(** * Glossary store: a shallow embedding of [main_app.py]

    The store keeps one JSON document in memory ([self.data]), a counter
    ([self.next_id]) and rewrites the backing file after every mutation.
    Python values are embedded as a small JSON-like datatype, Python
    exceptions as an error result, and the two things the program reads
    from its environment (the wall clock and the outcome of a file write)
    are explicit arguments of the operations that read them. *)

From Stdlib Require Import ZArith NArith List String Ascii Lia Bool.
From Stdlib Require Import DecimalN DecimalPos DecimalFacts.
From stdpp Require Import base list numbers option.
Import ListNotations.

Local Open Scope N_scope.

(** ** Text

    A Python [str] is a sequence of Unicode code points. *)

Abbreviation str := (list N).

(** String literals of the source are written as Rocq strings (UTF-8
    bytes) and decoded to code points. *)
Fixpoint utf8_decode (bs : list N) : str :=
  match bs with
  | [] => []
  | b0 :: r0 =>
    if b0 <? 128 then b0 :: utf8_decode r0
    else match r0 with
      | [] => []
      | b1 :: r1 =>
        if b0 <? 224 then (b0 mod 32 * 64 + b1 mod 64) :: utf8_decode r1
        else match r1 with
          | [] => []
          | b2 :: r2 =>
            if b0 <? 240
            then (b0 mod 16 * 4096 + b1 mod 64 * 64 + b2 mod 64) :: utf8_decode r2
            else match r2 with
              | [] => []
              | b3 :: r3 =>
                (b0 mod 8 * 262144 + b1 mod 64 * 4096 + b2 mod 64 * 64 + b3 mod 64)
                  :: utf8_decode r3
              end
          end
      end
  end.

Definition lit (s : string) : str :=
  utf8_decode (N_of_ascii <$> list_ascii_of_string s).

Definition str_eqb (a b : str) : bool := bool_decide (a = b).

(** [a in b] on strings: [a] occurs in [b] as a contiguous run. *)
Fixpoint str_startswith (b a : str) {struct a} : bool :=
  match a, b with
  | [], _ => true
  | _ :: _, [] => false
  | x :: a', y :: b' => (x =? y) && str_startswith b' a'
  end.

Fixpoint str_in (a b : str) : bool :=
  str_startswith b a ||
  match b with
  | [] => false
  | _ :: b' => str_in a b'
  end.

(** ** Values

    The values that live in the store: what [json.load] builds and what
    [create] and [update] put there. A [dict] keeps its keys in insertion
    order, each key once. JSON [true]/[false] and non-integer numbers are
    outside this domain: the store never produces them. *)

Unset Elimination Schemes.
Inductive value : Type :=
  | VNone
  | VInt (n : Z)
  | VStr (s : str)
  | VList (l : list value)
  | VDict (d : list (str * value)).
Set Elimination Schemes.

Section value_induction.
Variable P : value → Prop.
Hypothesis HNone : P VNone.
Hypothesis HInt : ∀ n, P (VInt n).
Hypothesis HStr : ∀ s, P (VStr s).
Hypothesis HList : ∀ l, Forall P l → P (VList l).
Hypothesis HDict : ∀ d, Forall (λ kv, P kv.2) d → P (VDict d).

Fixpoint value_ind (v : value) : P v :=
  match v with
  | VNone => HNone
  | VInt n => HInt n
  | VStr s => HStr s
  | VList l =>
    HList l ((fix go (l : list value) : Forall P l :=
                match l with
                | [] => Forall_nil_2 P
                | x :: l' => Forall_cons_2 P x l' (value_ind x) (go l')
                end) l)
  | VDict d =>
    HDict d ((fix go (d : list (str * value)) : Forall (λ kv, P kv.2) d :=
                match d with
                | [] => Forall_nil_2 _
                | kv :: d' => Forall_cons_2 _ kv d' (value_ind kv.2) (go d')
                end) d)
  end.
End value_induction.

(** ** Exceptions

    [ShapeError] stands for the family [KeyError] / [TypeError] /
    [AttributeError]: what Python raises when a value taken from the
    document does not have the shape the code expects. The last two are
    not Python exceptions: [OutsideModel] marks a document that holds a
    JSON value outside the domain of [value], and [OutOfFuel] the
    exhaustion of the recursion budget of the model of [json.load]
    (which does not happen, see [json_loads_fuel]). *)

Inductive exn : Type :=
  | ShapeError
  | ValueError
  | OSError
  | UnicodeEncodeError
  | JSONDecodeError
  | OutsideModel
  | OutOfFuel.

Inductive result (A : Type) : Type :=
  | Ok (a : A)
  | Raise (e : exn).
Arguments Ok {A} a.
Arguments Raise {A} e.

#[global] Instance result_ret : MRet result := λ A a, Ok a.
#[global] Instance result_bind : MBind result := λ A B f m,
  match m with
  | Ok a => f a
  | Raise e => Raise e
  end.
#[global] Instance result_fmap : FMap result := λ A B f m,
  match m with
  | Ok a => Ok (f a)
  | Raise e => Raise e
  end.

Definition is_ok {A} (r : result A) : bool :=
  match r with Ok _ => true | Raise _ => false end.

(** ** Python primitives on values *)

(** Keys of the document. *)
Definition k_glossary : str := Eval vm_compute in lit "glossary".
Definition k_id : str := Eval vm_compute in lit "id".
Definition k_title : str := Eval vm_compute in lit "title".
Definition k_definition : str := Eval vm_compute in lit "definition".
Definition k_category : str := Eval vm_compute in lit "category".
Definition k_examples : str := Eval vm_compute in lit "examples".
Definition k_related_terms : str := Eval vm_compute in lit "related_terms".
Definition k_source : str := Eval vm_compute in lit "source".
Definition k_created_at : str := Eval vm_compute in lit "created_at".
Definition k_updated_at : str := Eval vm_compute in lit "updated_at".

(** [bool(v)] *)
Definition py_truthy (v : value) : bool :=
  match v with
  | VNone => false
  | VInt n => negb (n =? 0)%Z
  | VStr s => match s with [] => false | _ => true end
  | VList l => match l with [] => false | _ => true end
  | VDict d => match d with [] => false | _ => true end
  end.

(** Lookup in a dict. *)
Fixpoint dict_get (d : list (str * value)) (key : str) : option value :=
  match d with
  | [] => None
  | (k, v) :: d' => if str_eqb k key then Some v else dict_get d' key
  end.

(** [d[key] = v]: an existing key keeps its place, a new key goes last. *)
Fixpoint dict_set (d : list (str * value)) (key : str) (v : value)
  : list (str * value) :=
  match d with
  | [] => [(key, v)]
  | (k, w) :: d' =>
    if str_eqb k key then (k, v) :: d' else (k, w) :: dict_set d' key v
  end.

(** [v[key]] for a string key. *)
Definition getitem (v : value) (key : str) : result value :=
  match v with
  | VDict d => match dict_get d key with
               | Some x => Ok x
               | None => Raise ShapeError
               end
  | _ => Raise ShapeError
  end.

(** [v.get(key)] *)
Definition py_get (v : value) (key : str) : result value :=
  match v with
  | VDict d => Ok (default VNone (dict_get d key))
  | _ => Raise ShapeError
  end.

(** [for x in v]: the elements the loop sees. *)
Definition py_iter (v : value) : result (list value) :=
  match v with
  | VList l => Ok l
  | VStr s => Ok ((λ c, VStr [c]) <$> s)
  | VDict d => Ok ((λ kv, VStr kv.1) <$> d)
  | VNone | VInt _ => Raise ShapeError
  end.

(** [v == n] for an integer [n]. *)
Definition py_eq_int (v : value) (n : Z) : bool :=
  match v with
  | VInt m => (m =? n)%Z
  | _ => false
  end.

(** [len(v)] *)
Definition py_len (v : value) : result Z :=
  match v with
  | VList l => Ok (Z.of_nat (length l))
  | VStr s => Ok (Z.of_nat (length s))
  | VDict d => Ok (Z.of_nat (length d))
  | VNone | VInt _ => Raise ShapeError
  end.

(** [l[a:b]] *)
Definition slice_index (len i : Z) : Z :=
  if (i <? 0)%Z then Z.max 0 (i + len) else Z.min i len.

Definition list_slice {A} (l : list A) (a b : Z) : list A :=
  let n := Z.of_nat (length l) in
  let lo := slice_index n a in
  let hi := slice_index n b in
  take (Z.to_nat (hi - lo)) (drop (Z.to_nat lo) l).

Definition py_slice (v : value) (a b : Z) : result value :=
  match v with
  | VList l => Ok (VList (list_slice l a b))
  | VStr s => Ok (VStr (list_slice s a b))
  | _ => Raise ShapeError
  end.

(** ** [json.dump(obj, f, ensure_ascii=False, indent=2)]

    The text the encoder of the standard library writes for a value of
    the domain above. Code points are written by number: 34 is the
    double quote, 92 the backslash, 44 the comma, 58 the colon, 45 the
    minus sign, 48 to 57 the digits, 91 and 93 the square brackets,
    123 and 125 the braces, 10 the newline and 32 the space. *)

Fixpoint uint_digits (d : Decimal.uint) : str :=
  match d with
  | Decimal.Nil => []
  | Decimal.D0 d => 48 :: uint_digits d
  | Decimal.D1 d => 49 :: uint_digits d
  | Decimal.D2 d => 50 :: uint_digits d
  | Decimal.D3 d => 51 :: uint_digits d
  | Decimal.D4 d => 52 :: uint_digits d
  | Decimal.D5 d => 53 :: uint_digits d
  | Decimal.D6 d => 54 :: uint_digits d
  | Decimal.D7 d => 55 :: uint_digits d
  | Decimal.D8 d => 56 :: uint_digits d
  | Decimal.D9 d => 57 :: uint_digits d
  end.

(** [int.__repr__] *)
Definition repr_int (n : Z) : str :=
  match n with
  | Z0 => [48]
  | Zpos p => uint_digits (Pos.to_uint p)
  | Zneg p => 45 :: uint_digits (Pos.to_uint p)
  end.

Definition hex_digit (n : N) : N := if n <? 10 then 48 + n else 87 + n.

(** One character of a string, as the encoder's [ESCAPE_DCT] writes it:
    the quote, the backslash and the control characters are escaped,
    everything else (also non-ASCII) is written as it is. *)
Definition escape_char (c : N) : str :=
  if c =? 34 then [92; 34]
  else if c =? 92 then [92; 92]
  else if c =? 10 then [92; 110]
  else if c =? 13 then [92; 114]
  else if c =? 9 then [92; 116]
  else if c =? 12 then [92; 102]
  else if c =? 8 then [92; 98]
  else if c <? 32 then [92; 117; 48; 48; hex_digit (c / 16); hex_digit (c mod 16)]
  else [c].

Definition encode_basestring (s : str) : str :=
  34 :: flat_map escape_char s ++ [34].

Definition newline_indent (level : nat) : str :=
  10 :: repeat 32 (2 * level)%nat.

Fixpoint join (sep : str) (chunks : list str) : str :=
  match chunks with
  | [] => []
  | [c] => c
  | c :: rest => c ++ sep ++ join sep rest
  end.

Fixpoint json_encode (level : nat) (v : value) : str :=
  match v with
  | VNone => [110; 117; 108; 108]
  | VInt n => repr_int n
  | VStr s => encode_basestring s
  | VList [] => [91; 93]
  | VList l =>
    [91] ++ newline_indent (S level)
    ++ join (44 :: newline_indent (S level))
         (json_encode (S level) <$> l)
    ++ newline_indent level ++ [93]
  | VDict [] => [123; 125]
  | VDict d =>
    [123] ++ newline_indent (S level)
    ++ join (44 :: newline_indent (S level))
         ((λ kv, encode_basestring kv.1 ++ [58; 32]
                   ++ json_encode (S level) kv.2) <$> d)
    ++ newline_indent level ++ [125]
  end.

Definition json_dumps (v : value) : str := json_encode 0 v.

(** What a text file opened with [encoding='utf-8'] accepts: code points
    of the Unicode range that are not surrogates. *)
Definition utf8_encodable (t : str) : bool :=
  forallb (λ c, (c <? 55296) || ((57343 <? c) && (c <? 1114112))) t.

(** ** [json.load(f)]

    The decoder of the standard library, as a recursive descent over the
    text: [scanstring], [JSONObject], [JSONArray] and the scanner's
    [scan_once]. *)

Definition is_ws (c : N) : bool :=
  (c =? 32) || (c =? 9) || (c =? 10) || (c =? 13).

Fixpoint skip_ws (s : str) : str :=
  match s with
  | [] => []
  | c :: r => if is_ws c then skip_ws r else s
  end.

Definition is_digit (c : N) : bool := (48 <=? c) && (c <=? 57).

Definition hex_value (c : N) : option N :=
  if is_digit c then Some (c - 48)
  else if (97 <=? c) && (c <=? 102) then Some (c - 87)
  else if (65 <=? c) && (c <=? 70) then Some (c - 55)
  else None.

Definition hex4 (h1 h2 h3 h4 : N) : option N :=
  a ← hex_value h1; b ← hex_value h2; c ← hex_value h3; d ← hex_value h4;
  Some (((a * 16 + b) * 16 + c) * 16 + d).

(** The decoder's [BACKSLASH] table. *)
Definition unescape (esc : N) : option N :=
  if esc =? 34 then Some 34
  else if esc =? 92 then Some 92
  else if esc =? 47 then Some 47
  else if esc =? 98 then Some 8
  else if esc =? 102 then Some 12
  else if esc =? 110 then Some 10
  else if esc =? 114 then Some 13
  else if esc =? 116 then Some 9
  else None.

Definition is_high_surrogate (u : N) : bool := (55296 <=? u) && (u <=? 56319).
Definition is_low_surrogate (u : N) : bool := (56320 <=? u) && (u <=? 57343).

Definition cons_char (c : N) (r : result (str * str)) : result (str * str) :=
  '(x, rest) ← r; Ok (c :: x, rest).

(** [scanstring], from the character after the opening quote. *)
Fixpoint scanstring (s : str) : result (str * str) :=
  match s with
  | [] => Raise JSONDecodeError
  | c :: r =>
    if c =? 34 then Ok ([], r)
    else if c =? 92 then
      match r with
      | [] => Raise JSONDecodeError
      | esc :: r1 =>
        if esc =? 117 then
          match r1 with
          | h1 :: h2 :: h3 :: h4 :: r2 =>
            match hex4 h1 h2 h3 h4 with
            | None => Raise JSONDecodeError
            | Some uni =>
              match r2 with
              | b :: u :: r2' =>
                if is_high_surrogate uni && (b =? 92) && (u =? 117) then
                  match r2' with
                  | l1 :: l2 :: l3 :: l4 :: r3 =>
                    match hex4 l1 l2 l3 l4 with
                    | None => Raise JSONDecodeError
                    | Some uni2 =>
                      if is_low_surrogate uni2
                      then cons_char
                             (65536 + ((uni - 55296) * 1024 + (uni2 - 56320)))
                             (scanstring r3)
                      else cons_char uni (scanstring r2)
                    end
                  | _ => Raise JSONDecodeError
                  end
                else cons_char uni (scanstring r2)
              | _ => cons_char uni (scanstring r2)
              end
            end
          | _ => Raise JSONDecodeError
          end
        else
          match unescape esc with
          | Some ch => cons_char ch (scanstring r1)
          | None => Raise JSONDecodeError
          end
      end
    else if c <? 32 then Raise JSONDecodeError
    else cons_char c (scanstring r)
  end.

Fixpoint span_digits (s : str) : str * str :=
  match s with
  | [] => ([], [])
  | c :: r =>
    if is_digit c then let '(ds, r') := span_digits r in (c :: ds, r')
    else ([], s)
  end.

Fixpoint digits_uint (ds : str) : Decimal.uint :=
  match ds with
  | [] => Decimal.Nil
  | c :: r =>
    let d := digits_uint r in
    if c =? 48 then Decimal.D0 d
    else if c =? 49 then Decimal.D1 d
    else if c =? 50 then Decimal.D2 d
    else if c =? 51 then Decimal.D3 d
    else if c =? 52 then Decimal.D4 d
    else if c =? 53 then Decimal.D5 d
    else if c =? 54 then Decimal.D6 d
    else if c =? 55 then Decimal.D7 d
    else if c =? 56 then Decimal.D8 d
    else Decimal.D9 d
  end.

(** The integer part of [NUMBER_RE]: [0|[1-9][0-9]*]. *)
Definition int_part (s : str) : option (str * str) :=
  match s with
  | [] => None
  | c :: r =>
    if c =? 48 then Some ([48], r)
    else if is_digit c then let '(ds, r') := span_digits r in Some (c :: ds, r')
    else None
  end.

(** Does a fraction [\.[0-9]+] or an exponent [[eE][-+]?[0-9]+] follow? *)
Definition starts_digit (s : str) : bool :=
  match s with c :: _ => is_digit c | [] => false end.

Definition float_follows (s : str) : bool :=
  match s with
  | [] => false
  | c :: r =>
    if c =? 46 then starts_digit r
    else if (c =? 101) || (c =? 69) then
      match r with
      | [] => false
      | sg :: r' =>
        if (sg =? 45) || (sg =? 43) then starts_digit r' else is_digit sg
      end
    else false
  end.

(** [match_number]: [None] when the text does not start with a number. *)
Definition match_number (s : str) : option (result (value * str)) :=
  let '(neg, s1) :=
    match s with
    | c :: r => if c =? 45 then (true, r) else (false, s)
    | [] => (false, s)
    end in
  match int_part s1 with
  | None => None
  | Some (ds, rest) =>
    if float_follows rest then Some (Raise OutsideModel)
    else
      let n := Z.of_N (N.of_uint (digits_uint ds)) in
      Some (Ok (VInt (if neg then - n else n)%Z, rest))
  end.

(** [dict(pairs)]: a later pair with the same key replaces the value. *)
Definition py_dict (pairs : list (str * value)) : list (str * value) :=
  fold_left (λ d kv, dict_set d kv.1 kv.2) pairs [].

Fixpoint scan_once (fuel : nat) (s : str) {struct fuel} : result (value * str) :=
  match fuel with
  | O => Raise OutOfFuel
  | S fuel =>
    match s with
    | [] => Raise JSONDecodeError
    | c :: r =>
      if c =? 34 then
        '(x, r') ← scanstring r; Ok (VStr x, r')
      else if c =? 123 then
        match skip_ws r with
        | [] => Raise JSONDecodeError
        | c' :: r' =>
          if c' =? 125 then Ok (VDict [], r')
          else if c' =? 34 then
            '(pairs, r'') ← JSONObject_loop fuel r';
            Ok (VDict (py_dict pairs), r'')
          else Raise JSONDecodeError
        end
      else if c =? 91 then
        match skip_ws r with
        | [] => Raise JSONDecodeError
        | c' :: r' =>
          if c' =? 93 then Ok (VList [], r')
          else
            '(values, r'') ← JSONArray_loop fuel (c' :: r');
            Ok (VList values, r'')
        end
      else if (c =? 110) && str_startswith r [117; 108; 108] then
        Ok (VNone, drop 3 r)
      else if (c =? 116) && str_startswith r [114; 117; 101] then
        Raise OutsideModel
      else if (c =? 102) && str_startswith r [97; 108; 115; 101] then
        Raise OutsideModel
      else
        match match_number s with
        | Some res => res
        | None =>
          if str_startswith s [78; 97; 78]
             || str_startswith s [73; 110; 102; 105; 110; 105; 116; 121]
             || str_startswith s [45; 73; 110; 102; 105; 110; 105; 116; 121]
          then Raise OutsideModel
          else Raise JSONDecodeError
        end
    end
  end

(** The loop of [JSONObject], from the character after the opening quote
    of a key. *)
with JSONObject_loop (fuel : nat) (s : str) {struct fuel}
  : result (list (str * value) * str) :=
  match fuel with
  | O => Raise OutOfFuel
  | S fuel =>
    '(key, r) ← scanstring s;
    match skip_ws r with
    | [] => Raise JSONDecodeError
    | c :: r1 =>
      if c =? 58 then
        '(v, r2) ← scan_once fuel (skip_ws r1);
        match skip_ws r2 with
        | [] => Raise JSONDecodeError
        | c' :: r3 =>
          if c' =? 125 then Ok ([(key, v)], r3)
          else if c' =? 44 then
            match skip_ws r3 with
            | [] => Raise JSONDecodeError
            | q :: r4 =>
              if q =? 34 then
                '(pairs, r5) ← JSONObject_loop fuel r4;
                Ok ((key, v) :: pairs, r5)
              else Raise JSONDecodeError
            end
          else Raise JSONDecodeError
        end
      else Raise JSONDecodeError
    end
  end

(** The loop of [JSONArray], from the first character of an element. *)
with JSONArray_loop (fuel : nat) (s : str) {struct fuel}
  : result (list value * str) :=
  match fuel with
  | O => Raise OutOfFuel
  | S fuel =>
    '(v, r) ← scan_once fuel s;
    match skip_ws r with
    | [] => Raise JSONDecodeError
    | c :: r1 =>
      if c =? 93 then Ok ([v], r1)
      else if c =? 44 then
        '(values, r2) ← JSONArray_loop fuel (skip_ws r1);
        Ok (v :: values, r2)
      else Raise JSONDecodeError
    end
  end.

(** [json.loads]: one value, then nothing but whitespace. *)
Definition json_loads (s : str) : result value :=
  '(v, r) ← scan_once (2 * length s + 1) (skip_ws s);
  match skip_ws r with
  | [] => Ok v
  | _ :: _ => Raise JSONDecodeError
  end.

(** ** Request models (pydantic)

    What FastAPI hands to the store after validating a request body.
    In [GlossaryTermUpdate] every field records whether the body set it:
    [None] is a field the body does not mention, [Some None] a field the
    body sets to [null], [Some (Some x)] a field set to [x]. *)

Module GlossaryTermCreate.
Record t : Type := {
  title : str;
  definition : str;
  category : str;
  examples : option (list str);
  related_terms : option (list str);
  source : option str
}.
End GlossaryTermCreate.

Module GlossaryTermUpdate.
Record t : Type := {
  title : option (option str);
  definition : option (option str);
  category : option (option str);
  examples : option (option (list str));
  related_terms : option (option (list str));
  source : option (option str)
}.
End GlossaryTermUpdate.

Definition as_str (v : value) : option str :=
  match v with VStr s => Some s | _ => None end.

Fixpoint as_strs (l : list value) : option (list str) :=
  match l with
  | [] => Some []
  | v :: l' => s ← as_str v; r ← as_strs l'; Some (s :: r)
  end.

Definition as_str_list (v : value) : option (list str) :=
  match v with VList l => as_strs l | _ => None end.

Definition len_between (lo hi : nat) (s : str) : bool :=
  (lo <=? length s)%nat && (length s <=? hi)%nat.

(** A field [Optional[T] = None] of a model built from a request body.
    The outer [option] is the validation, the result says whether the
    body set the field and to what. *)
Definition optional_field {A} (conv : value → option A)
    (body : list (str * value)) (key : str) : option (option (option A)) :=
  match dict_get body key with
  | None => Some None
  | Some VNone => Some (Some None)
  | Some v => x ← conv v; Some (Some (Some x))
  end.

Definition bounded_str (lo hi : nat) (v : value) : option str :=
  s ← as_str v; if len_between lo hi s then Some s else None.

(** [GlossaryTermCreate.model_validate]: [None] is a validation error
    (the 422 reply). A field with a default takes it when the body does
    not mention the field. *)
Definition validate_create (body : value) : option GlossaryTermCreate.t :=
  match body with
  | VDict b =>
    title ← dict_get b k_title ≫= bounded_str 1 100;
    definition ← dict_get b k_definition ≫= bounded_str 10 2000;
    category ← match dict_get b k_category with
               | None => Some (lit "General")
               | Some v => as_str v
               end;
    examples ← optional_field as_str_list b k_examples;
    related_terms ← optional_field as_str_list b k_related_terms;
    source ← optional_field as_str b k_source;
    Some {| GlossaryTermCreate.title := title;
            GlossaryTermCreate.definition := definition;
            GlossaryTermCreate.category := category;
            GlossaryTermCreate.examples := mjoin examples;
            GlossaryTermCreate.related_terms := mjoin related_terms;
            GlossaryTermCreate.source := mjoin source |}
  | _ => None
  end.

Definition validate_update (body : value) : option GlossaryTermUpdate.t :=
  match body with
  | VDict b =>
    title ← optional_field (bounded_str 1 100) b k_title;
    definition ← optional_field (bounded_str 10 2000) b k_definition;
    category ← optional_field as_str b k_category;
    examples ← optional_field as_str_list b k_examples;
    related_terms ← optional_field as_str_list b k_related_terms;
    source ← optional_field as_str b k_source;
    Some {| GlossaryTermUpdate.title := title;
            GlossaryTermUpdate.definition := definition;
            GlossaryTermUpdate.category := category;
            GlossaryTermUpdate.examples := examples;
            GlossaryTermUpdate.related_terms := related_terms;
            GlossaryTermUpdate.source := source |}
  | _ => None
  end.

Definition str_list (l : list str) : value := VList (VStr <$> l).

(** One field of [model_dump(exclude_unset=True)]. *)
Definition dump_field {A} (key : str) (conv : A → value)
    (f : option (option A)) : list (str * value) :=
  match f with
  | None => []
  | Some None => [(key, VNone)]
  | Some (Some x) => [(key, conv x)]
  end.

(** [term_data.model_dump(exclude_unset=True)]: the fields the body set,
    in the order of their declaration. *)
Definition model_dump_exclude_unset (u : GlossaryTermUpdate.t)
  : list (str * value) :=
  dump_field k_title VStr (GlossaryTermUpdate.title u)
  ++ dump_field k_definition VStr (GlossaryTermUpdate.definition u)
  ++ dump_field k_category VStr (GlossaryTermUpdate.category u)
  ++ dump_field k_examples str_list (GlossaryTermUpdate.examples u)
  ++ dump_field k_related_terms str_list (GlossaryTermUpdate.related_terms u)
  ++ dump_field k_source VStr (GlossaryTermUpdate.source u).

(** ** The store: [GlossaryDatabase]

    [disk] is the content of the file at [self.filepath]: [None] when the
    file does not exist. The text is what a reader of the file opened
    with [encoding='utf-8'] gets. *)

Record GlossaryDatabase : Type := {
  data : value;
  next_id : Z
}.

Record world : Type := {
  db : GlossaryDatabase;
  disk : option str
}.

(** What the environment decides about one write of the file: whether
    the operating system refuses it, and what a write that fails leaves
    in the file. *)
Record write_env : Type := {
  os_fault : bool;
  leftover : option str
}.

Definition _load_data (disk : option str) : result value :=
  match disk with
  | Some text => json_loads text
  | None => Ok (VDict [(k_glossary, VList [])])
  end.

(** [_save_data]: the result is the new content of the file and the
    outcome of the write. The text stream raises [UnicodeEncodeError] on
    a code point that UTF-8 cannot encode. Two failures of [json.dump]
    itself are outside the model: [ValueError] for an integer of more
    than 4300 digits, and [RecursionError] for a document nested deeper
    than the interpreter allows. *)
Definition _save_data (io : write_env) (self : GlossaryDatabase)
  : option str * result unit :=
  let text := json_dumps (data self) in
  if os_fault io then (leftover io, Raise OSError)
  else if utf8_encodable text then (Some text, Ok ())
  else (leftover io, Raise UnicodeEncodeError).

Definition as_int (v : value) : result Z :=
  match v with VInt n => Ok n | _ => Raise ShapeError end.

(** [max(term["id"] for term in ...)]: the generator is consumed one
    term at a time, the largest id seen so far is kept. *)
Fixpoint max_loop (maxitem : Z) (terms : list value) : result Z :=
  match terms with
  | [] => Ok maxitem
  | term :: rest =>
    v ← getitem term k_id;
    n ← as_int v;
    max_loop (if (n >? maxitem)%Z then n else maxitem) rest
  end.

Definition max_id (terms : list value) : result Z :=
  match terms with
  | [] => Raise ValueError
  | term :: rest =>
    v ← getitem term k_id;
    n ← as_int v;
    max_loop n rest
  end.

Definition _get_next_id (data : value) : result Z :=
  g ← getitem data k_glossary;
  if negb (py_truthy g) then Ok 1%Z
  else
    terms ← py_iter g;
    m ← max_id terms;
    Ok (m + 1)%Z.

Definition __init__ (disk : option str) : result GlossaryDatabase :=
  d ← _load_data disk;
  n ← _get_next_id d;
  Ok {| data := d; next_id := n |}.

Definition get_all (self : GlossaryDatabase) : result value :=
  getitem (data self) k_glossary.

(** The loop shared by [get_by_id] and [delete]: the first term whose id
    equals [term_id], with its position. Python hands out the dict
    object that sits in the list; the position stands for that
    reference. *)
Fixpoint find_by_id (terms : list value) (term_id : Z) (i : nat)
  : result (option (nat * value)) :=
  match terms with
  | [] => Ok None
  | term :: rest =>
    v ← getitem term k_id;
    if py_eq_int v term_id then Ok (Some (i, term))
    else find_by_id rest term_id (S i)
  end.

Definition get_by_id_ref (self : GlossaryDatabase) (term_id : Z)
  : result (option (nat * value)) :=
  g ← getitem (data self) k_glossary;
  terms ← py_iter g;
  find_by_id terms term_id 0.

Definition get_by_id (self : GlossaryDatabase) (term_id : Z) : result value :=
  found ← get_by_id_ref self term_id;
  Ok (match found with Some (_, term) => term | None => VNone end).

Section search.
(** [str.lower] follows the Unicode tables of the interpreter; the
    store is verified for any such function. *)
Variable lower : str → str.

(** [v.lower()] *)
Definition py_lower (v : value) : result str :=
  match v with VStr s => Ok (lower s) | _ => Raise ShapeError end.

(** The condition of the [if] in the loop of [search]. *)
Definition search_cond (keyword_lower : str) (term : value) : result bool :=
  t ← getitem term k_title;
  tl ← py_lower t;
  if str_in keyword_lower tl then Ok true
  else
    d ← getitem term k_definition;
    dl ← py_lower d;
    if str_in keyword_lower dl then Ok true
    else
      c ← py_get term k_category;
      if py_truthy c then
        c' ← getitem term k_category;
        cl ← py_lower c';
        Ok (str_in keyword_lower cl)
      else Ok false.

Fixpoint search_loop (keyword_lower : str) (terms : list value)
  : result (list value) :=
  match terms with
  | [] => Ok []
  | term :: rest =>
    b ← search_cond keyword_lower term;
    results ← search_loop keyword_lower rest;
    Ok (if (b : bool) then term :: results else results)
  end.

Definition search (self : GlossaryDatabase) (keyword : str)
  : result (list value) :=
  let keyword_lower := lower keyword in
  g ← getitem (data self) k_glossary;
  terms ← py_iter g;
  search_loop keyword_lower terms.
End search.

(** [self.data["glossary"]] after the list object it holds was changed
    in place. *)
Definition set_glossary (d : value) (l : list value) : value :=
  match d with
  | VDict kv => VDict (dict_set kv k_glossary (VList l))
  | _ => d
  end.

(** [x or []] and [x or ""] *)
Definition or_empty {A} (x : option (list A)) : list A :=
  match x with
  | Some (a :: l) => a :: l
  | Some [] | None => []
  end.

Definition new_term (id : Z) (now1 now2 : str)
    (term_data : GlossaryTermCreate.t) : value :=
  VDict [
    (k_id, VInt id);
    (k_title, VStr (GlossaryTermCreate.title term_data));
    (k_definition, VStr (GlossaryTermCreate.definition term_data));
    (k_category, VStr (GlossaryTermCreate.category term_data));
    (k_examples, str_list (or_empty (GlossaryTermCreate.examples term_data)));
    (k_related_terms,
       str_list (or_empty (GlossaryTermCreate.related_terms term_data)));
    (k_source, VStr (or_empty (GlossaryTermCreate.source term_data)));
    (k_created_at, VStr now1);
    (k_updated_at, VStr now2)
  ].

(** [create]: [now1] and [now2] are what the two calls of
    [datetime.now().isoformat()] return, in that order. *)
Definition create (now1 now2 : str) (io : write_env)
    (term_data : GlossaryTermCreate.t) (w : world) : world * result value :=
  let self := db w in
  let term := new_term (next_id self) now1 now2 term_data in
  match getitem (data self) k_glossary with
  | Raise e => (w, Raise e)
  | Ok (VList l) =>
    let self' := {| data := set_glossary (data self) (l ++ [term]);
                    next_id := next_id self + 1 |} in
    let '(disk', saved) := _save_data io self' in
    ({| db := self'; disk := disk' |}, saved ≫= λ _, Ok term)
  | Ok _ => (w, Raise ShapeError)
  end.

(** [term[key] = x] *)
Definition setitem (term : value) (key : str) (x : value) : result value :=
  match term with
  | VDict d => Ok (VDict (dict_set d key x))
  | _ => Raise ShapeError
  end.

Definition is_None (v : value) : bool :=
  match v with VNone => true | _ => false end.

(** The loop of [update] over [update_data.items()]. *)
Fixpoint update_loop (term : value) (items : list (str * value))
  : result value :=
  match items with
  | [] => Ok term
  | (key, x) :: rest =>
    if negb (is_None x)
    then term' ← setitem term key x; update_loop term' rest
    else update_loop term rest
  end.

(** The list in [self.data["glossary"]] after the object at position [i]
    was changed in place. *)
Definition store_term (d : value) (i : nat) (term : value) : value :=
  match getitem d k_glossary with
  | Ok (VList l) => set_glossary d (<[i := term]> l)
  | _ => d
  end.

Definition update (now : str) (io : write_env) (term_id : Z)
    (term_data : GlossaryTermUpdate.t) (w : world) : world * result value :=
  let self := db w in
  match get_by_id_ref self term_id with
  | Raise e => (w, Raise e)
  | Ok None => (w, Ok VNone)
  | Ok (Some (i, term)) =>
    if negb (py_truthy term) then (w, Ok VNone)
    else
      let update_data := model_dump_exclude_unset term_data in
      match term1 ← update_loop term update_data;
            setitem term1 k_updated_at (VStr now) with
      | Raise e => (w, Raise e)
      | Ok term2 =>
        let self' := {| data := store_term (data self) i term2;
                        next_id := next_id self |} in
        let '(disk', saved) := _save_data io self' in
        ({| db := self'; disk := disk' |}, saved ≫= λ _, Ok term2)
      end
  end.

Definition delete (io : write_env) (term_id : Z) (w : world)
  : world * result bool :=
  let self := db w in
  match get_by_id_ref self term_id with
  | Raise e => (w, Raise e)
  | Ok None => (w, Ok false)
  | Ok (Some (i, _)) =>
    match getitem (data self) k_glossary with
    | Ok (VList l) =>
      let self' := {| data := set_glossary (data self) (base.delete i l);
                      next_id := next_id self |} in
      let '(disk', saved) := _save_data io self' in
      ({| db := self'; disk := disk' |}, saved ≫= λ _, Ok true)
    | Ok _ => (w, Raise ShapeError)
    | Raise e => (w, Raise e)
    end
  end.

(** ** The request handler of the list operation

    [response_data] is the field [data] of [GlossaryResponse]. *)

Record GlossaryResponse : Type := {
  success : bool;
  message : str;
  response_data : option value
}.

Inductive reply : Type :=
  | Reply (status : Z) (body : GlossaryResponse)
  | ValidationError
  | ServerError (e : exn).

Definition k_total : str := Eval vm_compute in lit "total".
Definition k_skip : str := Eval vm_compute in lit "skip".
Definition k_limit : str := Eval vm_compute in lit "limit".
Definition k_items : str := Eval vm_compute in lit "items".

(** [get_all_terms]: [skip] and [limit] as the query string gives them,
    [None] when the request does not. *)
Definition get_all_terms (self : GlossaryDatabase) (skip limit : option Z)
  : reply :=
  let skip := default 0%Z skip in
  let limit := default 100%Z limit in
  if negb ((0 <=? skip)%Z && (1 <=? limit)%Z && (limit <=? 1000)%Z)
  then ValidationError
  else
    match (all_terms ← get_all self;
           paginated_terms ← py_slice all_terms skip (skip + limit);
           n ← py_len paginated_terms;
           total ← py_len all_terms;
           Ok (paginated_terms, n, total)) with
    | Raise e => ServerError e
    | Ok (paginated_terms, n, total) =>
      Reply 200 {|
        success := true;
        message := lit "Получено " ++ repr_int n ++ lit " терминов из "
                   ++ repr_int total ++ lit " всего";
        response_data := Some (VDict [
          (k_total, VInt total);
          (k_skip, VInt skip);
          (k_limit, VInt limit);
          (k_items, paginated_terms)
        ])
      |}
    end.

(** ** The life of a process

    A process is one [GlossaryDatabase] built at startup and the mutating
    requests served afterwards; a request carries what the environment
    answers while it is served. *)

Inductive request : Type :=
  | ReqCreate (now1 now2 : str) (io : write_env)
      (term_data : GlossaryTermCreate.t)
  | ReqUpdate (now : str) (io : write_env) (term_id : Z)
      (term_data : GlossaryTermUpdate.t)
  | ReqDelete (io : write_env) (term_id : Z).

Inductive response : Type :=
  | Created (r : result value)
  | Updated (r : result value)
  | Deleted (r : result bool).

Definition serve (rq : request) (w : world) : world * response :=
  match rq with
  | ReqCreate now1 now2 io term_data =>
    let '(w', r) := create now1 now2 io term_data w in (w', Created r)
  | ReqUpdate now io term_id term_data =>
    let '(w', r) := update now io term_id term_data w in (w', Updated r)
  | ReqDelete io term_id =>
    let '(w', r) := delete io term_id w in (w', Deleted r)
  end.

Fixpoint run (rqs : list request) (w : world) : world * list response :=
  match rqs with
  | [] => (w, [])
  | rq :: rest =>
    let '(w1, r) := serve rq w in
    let '(w2, rs) := run rest w1 in
    (w2, r :: rs)
  end.

(** The records of the store, and their ids. *)
Definition collection (self : GlossaryDatabase) : list value :=
  match getitem (data self) k_glossary with
  | Ok (VList l) => l
  | _ => []
  end.

Definition field (term : value) (key : str) : option value :=
  match term with
  | VDict d => dict_get d key
  | _ => None
  end.

Definition term_id_of (term : value) : option Z :=
  match field term k_id with
  | Some (VInt i) => Some i
  | _ => None
  end.

Definition term_ids (l : list value) : list Z := omap term_id_of l.

(** The ids that [create] handed back, in the order of the requests. *)
Definition issued (rs : list response) : list Z :=
  omap (λ r, match r with
             | Created (Ok term) => term_id_of term
             | _ => None
             end) rs.

(** The clock readings of a run, in the order they are taken. *)
Definition readings (rq : request) : list str :=
  match rq with
  | ReqCreate now1 now2 _ _ => [now1; now2]
  | ReqUpdate now _ _ _ => [now]
  | ReqDelete _ _ => []
  end.

(** The largest element of a list of integers that starts with [x]. *)
Definition max_of (x : Z) (xs : list Z) : Z := foldr Z.max x xs.

(** [a <= b] on strings: code point by code point. *)
Fixpoint str_leb (a b : str) : bool :=
  match a, b with
  | [], _ => true
  | _ :: _, [] => false
  | x :: a', y :: b' => (x <? y) || ((x =? y) && str_leb a' b')
  end.

(** [created_at <= updated_at], and [created_at] is not in the future of
    the clock reading [now]. *)
Definition stamps_ok (now : str) (term : value) : Prop :=
  ∃ c u, field term k_created_at = Some (VStr c)
         ∧ field term k_updated_at = Some (VStr u)
         ∧ str_leb c u = true ∧ str_leb c now = true.

(** Successive readings of a clock that does not run backwards. *)
Fixpoint nondecreasing (now : str) (ts : list str) : Prop :=
  match ts with
  | [] => True
  | t :: ts' => str_leb now t = true ∧ nondecreasing t ts'
  end.

(** A dict has each key once, at every depth. *)
Fixpoint wf_value (v : value) : Prop :=
  match v with
  | VNone | VInt _ | VStr _ => True
  | VList l => foldr (λ x P, wf_value x ∧ P) True l
  | VDict d =>
    NoDup d.*1 ∧ foldr (λ kv P, wf_value kv.2 ∧ P) True d
  end.

(** [a] occurs in [b]. *)
Definition occurs_in (a b : str) : Prop := ∃ pre post, b = pre ++ a ++ post.

(** Lower case for text in the ASCII range. *)
Definition ascii_lower (s : str) : str :=
  (λ c, if (65 <=? c) && (c <=? 90) then c + 32 else c) <$> s.

(** What the loop of [update] makes of a dict. *)
Definition apply_items (d : list (str * value)) (items : list (str * value))
  : list (str * value) :=
  fold_left (λ d kx, if is_None kx.2 then d else dict_set d kx.1 kx.2) items d.

(** The term [update] leaves in the store in place of the dict [d]. *)
Definition updated_term (d : list (str * value)) (now : str)
    (term_data : GlossaryTermUpdate.t) : value :=
  VDict (dict_set (apply_items d (model_dump_exclude_unset term_data))
           k_updated_at (VStr now)).

(** The persistence step of a mutating operation fails. *)
Definition write_fails (io : write_env) (self : GlossaryDatabase) : bool :=
  os_fault io || negb (utf8_encodable (json_dumps (data self))).

(** The six fields a request can set. *)
Definition settable : list str :=
  [k_title; k_definition; k_category; k_examples; k_related_terms; k_source].

(** Every record has an id, below the next id to assign. *)
Definition ids_below (self : GlossaryDatabase) : Prop :=
  Forall (λ t, ∃ i, term_id_of t = Some i ∧ (i < next_id self)%Z)
    (collection self).

(** The write environment of a request. *)
Definition env_of (rq : request) : write_env :=
  match rq with
  | ReqCreate _ _ io _ | ReqUpdate _ io _ _ | ReqDelete io _ => io
  end.

(** A request gets as far as the persistence step: [create] when the
    store holds a list to append to, [update] and [delete] when the
    record is found. *)
Definition reaches_save (rq : request) (self : GlossaryDatabase) : Prop :=
  match rq with
  | ReqCreate _ _ _ _ => ∃ l, getitem (data self) k_glossary = Ok (VList l)
  | ReqUpdate _ _ term_id _ | ReqDelete _ term_id =>
    ∃ i term, get_by_id_ref self term_id = Ok (Some (i, term))
  end.

(** The operation reports success to its caller. *)
Definition succeeded (r : response) : Prop :=
  match r with
  | Created (Ok _) | Updated (Ok _) | Deleted (Ok _) => True
  | _ => False
  end.

Definition raised (r : response) (e : exn) : Prop :=
  match r with
  | Created (Raise e') | Updated (Raise e') | Deleted (Raise e') => e' = e
  | _ => False
  end.

(** [term] sits at position [i] of the collection and is the first
    record with the id [term_id]; the records before it have other ids. *)
Definition first_with_id (l : list value) (term_id : Z) (i : nat)
    (term : value) : Prop :=
  l !! i = Some term ∧ term_id_of term = Some term_id
  ∧ ∀ j t, (j < i)%nat → l !! j = Some t →
      ∃ v, field t k_id = Some v ∧ v ≠ VInt term_id.

(** A field of the [data] of a reply. *)
Definition reply_field (r : reply) (key : str) : option value :=
  match r with
  | Reply _ body => response_data body ≫= λ d, field d key
  | _ => None
  end.

(** Search, in the words of the specification: a record matches when
    its title, its definition or its category is a text that contains
    the keyword, case ignored. *)
Section matching.
Variable lower : str → str.

Definition contains_ci (keyword s : str) : Prop :=
  occurs_in (lower keyword) (lower s).

Definition field_contains (keyword : str) (term : value) (key : str) : Prop :=
  ∃ s, field term key = Some (VStr s) ∧ contains_ci keyword s.

Definition term_matches (keyword : str) (term : value) : Prop :=
  field_contains keyword term k_title
  ∨ field_contains keyword term k_definition
  ∨ field_contains keyword term k_category.

Definition field_containsb (keyword : str) (term : value) (key : str)
  : bool :=
  match field term key with
  | Some (VStr s) => str_in (lower keyword) (lower s)
  | _ => false
  end.

Definition term_matchesb (keyword : str) (term : value) : bool :=
  field_containsb keyword term k_title
  || field_containsb keyword term k_definition
  || field_containsb keyword term k_category.
End matching.

(** A record as the data model has it, for the purpose of search: title
    and definition are text, the category is text, [null] or missing. *)
Definition searchable (term : value) : Prop :=
  (∃ s, field term k_title = Some (VStr s))
  ∧ (∃ s, field term k_definition = Some (VStr s))
  ∧ (field term k_category = None ∨ field term k_category = Some VNone
     ∨ ∃ s, field term k_category = Some (VStr s)).

(** The clock readings of a whole run, and the last reading after a
    request. *)
Definition all_readings (rqs : list request) : list str :=
  concat (readings <$> rqs).

Definition clock_after (now : str) (rq : request) : str :=
  match rq with
  | ReqCreate _ now2 _ _ => now2
  | ReqUpdate now' _ _ _ => now'
  | ReqDelete _ _ => now
  end.

(** What may follow a value in a document: nothing that would extend a
    number. *)
Definition after_value (rest : str) : Prop :=
  starts_digit rest = false ∧ float_follows rest = false.

(** The recursion budget that decoding the encoding of a value needs. *)
Fixpoint vsize (v : value) : nat :=
  match v with
  | VNone | VInt _ | VStr _ => 1
  | VList l => S (foldr (λ x n, S (vsize x + n)) 0 l)
  | VDict d => S (foldr (λ kv n, S (vsize kv.2 + n)) 0 d)
  end%nat.

(** The first character of an encoding. *)
Definition value_start (c : N) : Prop :=
  c = 110 ∨ c = 45 ∨ is_digit c = true ∨ c = 34 ∨ c = 91 ∨ c = 123.

(** Decoding the encoding of [v] gives [v] back, whatever follows it in
    the document. *)
Definition decodes (v : value) : Prop :=
  ∀ level fuel rest, (vsize v ≤ fuel)%nat → after_value rest →
    scan_once fuel (json_encode level v ++ rest) = Ok (v, rest).

(** The text of one member of an object. *)
Definition encode_member (level : nat) (kv : str * value) : str :=
  encode_basestring kv.1 ++ [58; 32] ++ json_encode level kv.2.

(** ** A small store, for the examples *)

Definition io_ok : write_env := {| os_fault := false; leftover := None |}.

(** A write that the operating system refuses half way: the file is
    left empty. *)
Definition io_fault : write_env := {| os_fault := true; leftover := Some [] |}.

Definition oracle : GlossaryTermCreate.t := {|
  GlossaryTermCreate.title := lit "Oracle";
  GlossaryTermCreate.definition :=
    lit "A service that feeds external data to a blockchain";
  GlossaryTermCreate.category := lit "Infrastructure";
  GlossaryTermCreate.examples := None;
  GlossaryTermCreate.related_terms := None;
  GlossaryTermCreate.source := None
|}.

Definition blockchain : GlossaryTermCreate.t := {|
  GlossaryTermCreate.title := lit "Блокчейн";
  GlossaryTermCreate.definition :=
    lit "Распределённый реестр, записи которого связаны в цепочку";
  GlossaryTermCreate.category := lit "General";
  GlossaryTermCreate.examples := Some [lit "Bitcoin"; lit "Ethereum"];
  GlossaryTermCreate.related_terms := None;
  GlossaryTermCreate.source := Some (lit "Курс DApps")
|}.

Definition clock (n : N) : str := lit "2024-01-01T00:00:0" ++ [48 + n].

Definition empty_store : world :=
  {| db := {| data := VDict [(k_glossary, VList [])]; next_id := 1 |};
     disk := None |}.

(** The store after both terms were created. *)
Definition two_terms : world :=
  Eval vm_compute in
    (run [ReqCreate (clock 1) (clock 2) io_ok oracle;
          ReqCreate (clock 3) (clock 4) io_ok blockchain] empty_store).1.

Definition oracle_term : value :=
  Eval vm_compute in new_term 1 (clock 1) (clock 2) oracle.

Definition blockchain_term : value :=
  Eval vm_compute in new_term 2 (clock 3) (clock 4) blockchain.

(** A partial update that sets [source] to [null] and [definition] to a
    text. *)
Definition null_source : GlossaryTermUpdate.t := {|
  GlossaryTermUpdate.title := None;
  GlossaryTermUpdate.definition :=
    Some (Some (lit "A bridge between a chain and the outside world"));
  GlossaryTermUpdate.category := None;
  GlossaryTermUpdate.examples := None;
  GlossaryTermUpdate.related_terms := None;
  GlossaryTermUpdate.source := Some None
|}.

Definition busy_day : list request :=
  [ReqDelete io_ok 1;
   ReqCreate (clock 5) (clock 6) io_ok oracle;
   ReqCreate (clock 6) (clock 6) io_fault oracle;
   ReqUpdate (clock 7) io_ok 2 null_source;
   ReqCreate (clock 8) (clock 9) io_ok blockchain].

(** A store of twenty-five records. *)
Definition twenty_five : list value :=
  (λ i, new_term (Z.of_nat i) (clock 1) (clock 2) oracle) <$> seq 1 25.

Definition full_store : GlossaryDatabase :=
  {| data := VDict [(k_glossary, VList twenty_five)]; next_id := 26 |}.

(** [scanstring] raises a decoding error or consumes text. *)
Definition scans (s : str) : Prop :=
  scanstring s = Raise JSONDecodeError
  ∨ ∃ x r, scanstring s = Ok (x, r) ∧ (length r < length s)%nat.

(** A successful step of the decoder leaves less text than it got. *)
Definition consumes {A} (m : result (A * str)) (s : str) : Prop :=
  ∀ a r, m = Ok (a, r) → (length r < length s)%nat.

(** ** The handlers of single records

    A handler returns its reply or raises [HTTPException], which the
    framework answers with that status code and the detail as the body.
    The record a lookup found is a dict, so [GlossaryResponse] accepts it
    as [data]. *)

Inductive outcome : Type :=
  | Returned (r : reply)
  | HTTPException (status_code : Z) (detail : str).

(** [HTTPException(status_code=404,
                   detail=f"Термин с ID {term_id} не найден")] *)
Definition not_found (term_id : Z) : outcome :=
  HTTPException 404
    (lit "Термин с ID " ++ repr_int term_id ++ lit " не найден").

Definition k_deleted_id : str := Eval vm_compute in lit "deleted_id".

Definition get_term (self : GlossaryDatabase) (term_id : Z) : outcome :=
  match get_by_id self term_id with
  | Raise e => Returned (ServerError e)
  | Ok term =>
    if negb (py_truthy term) then not_found term_id
    else Returned (Reply 200 {|
           success := true;
           message := lit "Термин найден";
           response_data := Some term |})
  end.

(** [create_term]: [body] is the JSON body of the request. *)
Definition create_term (now1 now2 : str) (io : write_env) (body : value)
    (w : world) : world * outcome :=
  match validate_create body with
  | None => (w, Returned ValidationError)
  | Some term =>
    let '(w', r) := create now1 now2 io term w in
    (w', match r with
         | Raise e => Returned (ServerError e)
         | Ok new_term =>
           Returned (Reply 201 {|
             success := true;
             message := lit "Новый термин успешно добавлен";
             response_data := Some new_term |})
         end)
  end.

Definition update_term (now : str) (io : write_env) (term_id : Z)
    (body : value) (w : world) : world * outcome :=
  match validate_update body with
  | None => (w, Returned ValidationError)
  | Some term_update =>
    let '(w', r) := update now io term_id term_update w in
    (w', match r with
         | Raise e => Returned (ServerError e)
         | Ok updated =>
           if negb (py_truthy updated) then not_found term_id
           else Returned (Reply 200 {|
                  success := true;
                  message := lit "Термин успешно обновлен";
                  response_data := Some updated |})
         end)
  end.

Definition delete_term (io : write_env) (term_id : Z) (w : world)
  : world * outcome :=
  let '(w', r) := delete io term_id w in
  (w', match r with
       | Raise e => Returned (ServerError e)
       | Ok deleted =>
         if negb deleted then not_found term_id
         else Returned (Reply 200 {|
                success := true;
                message := lit "Термин успешно удален";
                response_data := Some (VDict [(k_deleted_id, VInt term_id)]) |})
       end).

(** ** Statistics

    The keys of the dict [categories] are what
    [term.get("category", "Unknown")] gives: a text, [None] for a record
    whose category is [null], a number. A list or a dict cannot be a key.
    The entries keep the order in which the keys first appeared. *)

Definition hashable (v : value) : bool :=
  match v with
  | VNone | VInt _ | VStr _ => true
  | VList _ | VDict _ => false
  end.

(** Equality of two keys. *)
Definition key_eqb (a b : value) : bool :=
  match a, b with
  | VNone, VNone => true
  | VInt m, VInt n => (m =? n)%Z
  | VStr s, VStr t => str_eqb s t
  | _, _ => false
  end.

Fixpoint counts_get (categories : list (value * Z)) (key : value)
  : option Z :=
  match categories with
  | [] => None
  | (k, n) :: rest => if key_eqb k key then Some n else counts_get rest key
  end.

Fixpoint counts_set (categories : list (value * Z)) (key : value) (n : Z)
  : list (value * Z) :=
  match categories with
  | [] => [(key, n)]
  | (k, m) :: rest =>
    if key_eqb k key then (k, n) :: rest
    else (k, m) :: counts_set rest key n
  end.

(** [v.get(key, dflt)] *)
Definition py_get_default (v : value) (key : str) (dflt : value)
  : result value :=
  match v with
  | VDict d => Ok (default dflt (dict_get d key))
  | _ => Raise ShapeError
  end.

(** The loop of [get_statistics]. *)
Fixpoint categories_loop (categories : list (value * Z))
    (terms : list value) : result (list (value * Z)) :=
  match terms with
  | [] => Ok categories
  | term :: rest =>
    category ← py_get_default term k_category (VStr (lit "Unknown"));
    if hashable category then
      categories_loop
        (counts_set categories category
           (default 0 (counts_get categories category) + 1)%Z)
        rest
    else Raise ShapeError
  end.

(** The three entries of the [data] of the reply. *)
Record statistics : Type := {
  total_terms : Z;
  categories : list (value * Z);
  categories_count : Z
}.

Definition get_statistics (self : GlossaryDatabase) : result statistics :=
  all_terms ← get_all self;
  terms ← py_iter all_terms;
  categories ← categories_loop [] terms;
  total ← py_len all_terms;
  Ok {| total_terms := total;
        categories := categories;
        categories_count := Z.of_nat (length categories) |}.

(** The key under which [get_statistics] counts a record. *)
Definition category_key (term : value) : value :=
  default (VStr (lit "Unknown")) (field term k_category).

(** How many records of [l] are counted under [key]. *)
Definition count_key (key : value) (l : list value) : Z :=
  Z.of_nat (length (List.filter (λ t, key_eqb (category_key t) key) l)).

(** The counts kept for the keys: each key once, every key one that a
    dict accepts, every count positive. *)
Definition counts_ok (acc : list (value * Z)) : Prop :=
  NoDup acc.*1 ∧ Forall (λ kn, hashable kn.1 = true ∧ (1 ≤ kn.2)%Z) acc.

(** The count kept for a key, [0] when the key is not there. *)
Definition count_of (acc : list (value * Z)) (key : value) : Z :=
  default 0%Z (counts_get acc key).

(** The sum of the counts. *)
Definition total_count (acc : list (value * Z)) : Z :=
  foldr Z.add 0%Z acc.*2.

(** A record that [get_statistics] can count: a dict whose category, if
    it has one, can be the key of a dict. *)
Definition countable (term : value) : Prop :=
  (∃ d, term = VDict d) ∧ hashable (category_key term) = true.

(** ** Lookup and paging, in other words *)

(** The first record of [l] whose id is [term_id], [None] when there is
    none. *)
Definition lookup_id (l : list value) (term_id : Z) : value :=
  default VNone (snd <$> list_find (λ t, term_id_of t = Some term_id) l).

(** The record a request is about: the one [create] is going to add, or
    the one named in the request. *)
Definition target (rq : request) (self : GlossaryDatabase) : Z :=
  match rq with
  | ReqCreate _ _ _ _ => next_id self
  | ReqUpdate _ _ term_id _ | ReqDelete _ term_id => term_id
  end.

(** The items of one page of the list operation. *)
Definition page (self : GlossaryDatabase) (skip limit : Z) : list value :=
  match reply_field (get_all_terms self (Some skip) (Some limit)) k_items with
  | Some (VList items) => items
  | _ => []
  end.

(** The first [k] pages of [limit] records each, one after the other. *)
Definition walk (self : GlossaryDatabase) (limit : Z) (k : nat)
  : list value :=
  concat ((λ j, page self (Z.of_nat j * limit) limit) <$> seq 0 k).

(** A record as the request models let it into the store. *)
Definition valid_record (term : value) : Prop :=
  (∃ s, field term k_title = Some (VStr s) ∧ len_between 1 100 s = true)
  ∧ (∃ s, field term k_definition = Some (VStr s)
          ∧ len_between 10 2000 s = true)
  ∧ (∃ s, field term k_category = Some (VStr s)).

(* ===================================================================== *)
(** * Properties *)

(** ** Strings and dicts *)

Lemma str_eqb_true a b : str_eqb a b = true ↔ a = b.
Proof. unfold str_eqb. apply bool_decide_eq_true. Qed.

Lemma str_eqb_refl a : str_eqb a a = true.
Proof. by apply str_eqb_true. Qed.

Lemma str_eqb_false a b : str_eqb a b = false ↔ a ≠ b.
Proof. unfold str_eqb. apply bool_decide_eq_false. Qed.

Lemma dict_get_set_eq d k v : dict_get (dict_set d k v) k = Some v.
Proof.
  induction d as [|[k' w] d IH]; simpl.
  - by rewrite str_eqb_refl.
  - destruct (str_eqb k' k) eqn:E; simpl; rewrite E; [done | apply IH].
Qed.

Lemma dict_get_set_ne d k k' v :
  k ≠ k' → dict_get (dict_set d k v) k' = dict_get d k'.
Proof.
  intros Hne. induction d as [|[k0 w] d IH]; simpl.
  - apply str_eqb_false in Hne. by rewrite Hne.
  - destruct (str_eqb k0 k) eqn:E; simpl.
    + apply str_eqb_true in E. subst k0.
      apply str_eqb_false in Hne. by rewrite Hne.
    + by rewrite IH.
Qed.

Lemma dict_set_keys_in d k v :
  k ∈ d.*1 → List.map fst (dict_set d k v) = d.*1.
Proof.
  induction d as [|[k0 w] d IH]; simpl; [by intros ?%elem_of_nil|].
  intros Hin. destruct (str_eqb k0 k) eqn:E; simpl; [done|].
  f_equal. apply IH. apply elem_of_cons in Hin as [->|]; [|done].
  by rewrite str_eqb_refl in E.
Qed.

Lemma dict_set_keys_notin d k v :
  ¬ k ∈ d.*1 →
  dict_set d k v = d ++ [(k, v)].
Proof.
  induction d as [|[k0 w] d IH]; simpl; [done|].
  intros Hin. destruct (str_eqb k0 k) eqn:E.
  - apply str_eqb_true in E. subst. exfalso. apply Hin. left.
  - f_equal. apply IH. intros H. apply Hin. by right.
Qed.

Lemma dict_get_None d k : dict_get d k = None ↔ ¬ k ∈ d.*1.
Proof.
  induction d as [|[k0 w] d IH]; simpl.
  - split; [|done]. intros _ H. by apply elem_of_nil in H.
  - rewrite elem_of_cons. destruct (str_eqb k0 k) eqn:E.
    + apply str_eqb_true in E. split; [done | intros H; exfalso; apply H; by left].
    + apply str_eqb_false in E. rewrite IH. split; [intros H [?|?]; by subst | tauto].
Qed.

Lemma dict_set_NoDup d k v :
  NoDup (d.*1) → NoDup (List.map fst (dict_set d k v)).
Proof.
  intros Hnd. destruct (decide (k ∈ d.*1)) as [Hin|Hin].
  - by rewrite dict_set_keys_in.
  - rewrite dict_set_keys_notin by done.
    rewrite fmap_app. simpl. apply list.NoDup_app. split_and!; [done| |].
    + intros x Hx Hx'. apply list_elem_of_singleton in Hx'. by subst.
    + apply NoDup_singleton.
Qed.

Lemma getitem_Ok v k x :
  getitem v k = Ok x ↔ ∃ d, v = VDict d ∧ dict_get d k = Some x.
Proof.
  split.
  - destruct v; simpl; try done. destruct (dict_get d k) eqn:E; [|done].
    intros [= ->]. eauto.
  - intros (d & -> & H). simpl. by rewrite H.
Qed.

Lemma getitem_field v k x : getitem v k = Ok x ↔ field v k = Some x.
Proof.
  rewrite getitem_Ok. split.
  - by intros (d & -> & H).
  - destruct v; simpl; try done. eauto.
Qed.

Lemma py_eq_int_true v n : py_eq_int v n = true ↔ v = VInt n.
Proof.
  destruct v; simpl; try (split; done).
  rewrite Z.eqb_eq. split; [by intros -> | by intros [= ->]].
Qed.

(** ** The error monad *)

Lemma bind_Ok {A B} (m : result A) (f : A → result B) y :
  m ≫= f = Ok y ↔ ∃ a, m = Ok a ∧ f a = Ok y.
Proof.
  destruct m as [a|e]; simpl.
  - split; [eauto | by intros (? & [= <-] & ?)].
  - split; [done | by intros (? & ? & ?)].
Qed.

Ltac inv_bind H :=
  repeat match type of H with
  | _ ≫= _ = Ok _ =>
    let a := fresh "a" in let Ha := fresh "Ha" in
    apply bind_Ok in H as (a & Ha & H)
  end.

(** ** Finding a term by its id *)

Lemma term_id_of_Some t i : term_id_of t = Some i ↔ field t k_id = Some (VInt i).
Proof.
  unfold term_id_of. destruct (field t k_id) as [[]|]; split; try done; congruence.
Qed.

Lemma find_by_id_Some l id i0 i t :
  find_by_id l id i0 = Ok (Some (i, t)) →
  ∃ k, i = (i0 + k)%nat ∧ l !! k = Some t ∧ term_id_of t = Some id
       ∧ ∀ j t', (j < k)%nat → l !! j = Some t' →
           ∃ v, field t' k_id = Some v ∧ v ≠ VInt id.
Proof.
  revert i0. induction l as [|x l IH]; intros i0 H; simpl in H; [done|].
  apply bind_Ok in H as (v & Hv & H).
  apply getitem_field in Hv.
  destruct (py_eq_int v id) eqn:E.
  - injection H as <- <-. apply py_eq_int_true in E as ->.
    exists 0%nat. split_and!; [lia | done | by apply term_id_of_Some |].
    intros; lia.
  - apply IH in H as (k & -> & Hk & Hid & Hfirst).
    exists (S k). split_and!; [lia | done | done |].
    intros [|j] t' Hj Ht'; simpl in Ht'.
    + injection Ht' as <-. exists v. split; [done|].
      intros ->. simpl in E. by rewrite Z.eqb_refl in E.
    + apply (Hfirst j); [lia | done].
Qed.

Lemma find_by_id_None l id i0 :
  find_by_id l id i0 = Ok None ↔
  Forall (λ t, ∃ v, field t k_id = Some v ∧ v ≠ VInt id) l.
Proof.
  revert i0. induction l as [|x l IH]; intros i0; simpl.
  - split; [constructor | done].
  - rewrite list.Forall_cons. split.
    + intros H. apply bind_Ok in H as (v & Hv & H).
      apply getitem_field in Hv.
      destruct (py_eq_int v id) eqn:E; [done|].
      split; [|by eapply IH]. exists v. split; [done|].
      intros ->. simpl in E. by rewrite Z.eqb_refl in E.
    + intros [(v & Hv & Hne) Hl]. apply bind_Ok.
      exists v. split; [by apply getitem_field|].
      destruct (py_eq_int v id) eqn:E.
      * by apply py_eq_int_true in E.
      * by apply IH.
Qed.

Lemma find_by_id_found l id i0 k t :
  l !! k = Some t → term_id_of t = Some id →
  (∀ j t', (j < k)%nat → l !! j = Some t' →
     ∃ v, field t' k_id = Some v ∧ v ≠ VInt id) →
  find_by_id l id i0 = Ok (Some ((i0 + k)%nat, t)).
Proof.
  revert i0 k. induction l as [|x l IH]; intros i0 k Hk Hid Hfirst; [done|].
  simpl. destruct k as [|k]; simpl in Hk.
  - injection Hk as ->. apply term_id_of_Some, getitem_field in Hid.
    rewrite Hid. simpl. rewrite Z.eqb_refl. by rewrite Nat.add_0_r.
  - destruct (Hfirst 0%nat x) as (v & Hv & Hne); [lia | done |].
    apply getitem_field in Hv. rewrite Hv. simpl.
    destruct (py_eq_int v id) eqn:E; [by apply py_eq_int_true in E|].
    rewrite (IH (S i0) k); [do 3 f_equal; lia | done | done |].
    intros j t' Hj Ht'. apply (Hfirst (S j)); [lia | done].
Qed.

(** ** The collection *)

Lemma collection_eq self l :
  getitem (data self) k_glossary = Ok (VList l) → collection self = l.
Proof. unfold collection. by intros ->. Qed.

Lemma getitem_set_glossary d g l :
  getitem d k_glossary = Ok g →
  getitem (set_glossary d l) k_glossary = Ok (VList l).
Proof.
  intros (kv & -> & _)%getitem_Ok. simpl. by rewrite dict_get_set_eq.
Qed.

Lemma collection_set_glossary d g l n :
  getitem d k_glossary = Ok g →
  collection {| data := set_glossary d l; next_id := n |} = l.
Proof. intros H. apply collection_eq. simpl. by eapply getitem_set_glossary. Qed.

Lemma get_by_id_ref_Some self id i t :
  get_by_id_ref self id = Ok (Some (i, t)) →
  ∃ l, getitem (data self) k_glossary = Ok (VList l)
       ∧ l !! i = Some t ∧ term_id_of t = Some id
       ∧ ∀ j t', (j < i)%nat → l !! j = Some t' →
           ∃ v, field t' k_id = Some v ∧ v ≠ VInt id.
Proof.
  unfold get_by_id_ref. intros H. inv_bind H.
  apply find_by_id_Some in H as (k & -> & Hk & Hid & Hfirst). simpl.
  destruct a as [| |s|l|d]; simpl in Ha0; try done; injection Ha0 as <-.
  - apply list_lookup_fmap_Some in Hk as (c & -> & _). done.
  - by exists l.
  - apply list_lookup_fmap_Some in Hk as (c & -> & _). done.
Qed.

Lemma get_by_id_ref_None self id :
  get_by_id_ref self id = Ok None →
  Forall (λ t, ∃ v, field t k_id = Some v ∧ v ≠ VInt id) (collection self).
Proof.
  unfold get_by_id_ref, collection. intros H. inv_bind H. rewrite Ha.
  apply find_by_id_None in H.
  destruct a as [| |s|l|d]; simpl in Ha0; try done.
  by injection Ha0 as <-.
Qed.

(** ** What the operations do to the store *)

Lemma save_data_ok io self :
  write_fails io self = false →
  _save_data io self = (Some (json_dumps (data self)), Ok ()).
Proof.
  unfold write_fails, _save_data. intros [H1 H2]%orb_false_elim.
  apply negb_false_iff in H2. by rewrite H1, H2.
Qed.

Lemma save_data_fails io self :
  write_fails io self = true →
  ∃ e, _save_data io self = (leftover io, Raise e).
Proof.
  unfold write_fails, _save_data. intros H.
  destruct (os_fault io); [eauto|]. simpl in H.
  apply negb_true_iff in H. rewrite H. eauto.
Qed.

Lemma create_list now1 now2 io td w l :
  getitem (data (db w)) k_glossary = Ok (VList l) →
  let term := new_term (next_id (db w)) now1 now2 td in
  let self' := {| data := set_glossary (data (db w)) (l ++ [term]);
                  next_id := next_id (db w) + 1 |} in
  create now1 now2 io td w =
    ({| db := self'; disk := (_save_data io self').1 |},
     (_save_data io self').2 ≫= λ _, Ok term).
Proof. intros H. unfold create. rewrite H. by destruct (_save_data _ _). Qed.

Lemma create_not_list now1 now2 io td w :
  (∀ l, getitem (data (db w)) k_glossary ≠ Ok (VList l)) →
  ∃ e, create now1 now2 io td w = (w, Raise e).
Proof.
  intros H. unfold create.
  destruct (getitem (data (db w)) k_glossary) as [[]|]; eauto.
  by destruct (H l).
Qed.

Lemma create_cases now1 now2 io td w :
  (∃ l, getitem (data (db w)) k_glossary = Ok (VList l))
  ∨ (∃ e, create now1 now2 io td w = (w, Raise e)).
Proof.
  unfold create.
  destruct (getitem (data (db w)) k_glossary) as [[]|]; eauto.
Qed.

Lemma update_loop_dict d items :
  update_loop (VDict d) items = Ok (VDict (apply_items d items)).
Proof.
  revert d. induction items as [|[k x] items IH]; intros d; [done|].
  simpl. destruct (is_None x); simpl; apply IH.
Qed.

Lemma update_found now io id u w i t :
  get_by_id_ref (db w) id = Ok (Some (i, t)) →
  ∃ d l, t = VDict d
    ∧ getitem (data (db w)) k_glossary = Ok (VList l)
    ∧ l !! i = Some t
    ∧ let self' := {| data := set_glossary (data (db w))
                                (<[i := updated_term d now u]> l);
                      next_id := next_id (db w) |} in
      update now io id u w =
        ({| db := self'; disk := (_save_data io self').1 |},
         (_save_data io self').2 ≫= λ _, Ok (updated_term d now u)).
Proof.
  intros H. pose proof H as (l & Hl & Hi & Hid & _)%get_by_id_ref_Some.
  apply term_id_of_Some in Hid.
  destruct t as [| | | |d]; try done. simpl in Hid.
  exists d, l. split_and!; try done.
  unfold update. rewrite H.
  destruct d as [|kv d]; [done|]. cbn [py_truthy negb].
  rewrite update_loop_dict. cbn [mbind result_bind setitem].
  unfold store_term. rewrite Hl. unfold updated_term.
  by destruct (_save_data _ _).
Qed.

Lemma update_not_found now io id u w :
  get_by_id_ref (db w) id = Ok None → update now io id u w = (w, Ok VNone).
Proof. intros H. unfold update. by rewrite H. Qed.

Lemma update_raises now io id u w e :
  get_by_id_ref (db w) id = Raise e → update now io id u w = (w, Raise e).
Proof. intros H. unfold update. by rewrite H. Qed.

Lemma delete_found io id w i t :
  get_by_id_ref (db w) id = Ok (Some (i, t)) →
  ∃ l, getitem (data (db w)) k_glossary = Ok (VList l)
    ∧ l !! i = Some t
    ∧ let self' := {| data := set_glossary (data (db w)) (base.delete i l);
                      next_id := next_id (db w) |} in
      delete io id w =
        ({| db := self'; disk := (_save_data io self').1 |},
         (_save_data io self').2 ≫= λ _, Ok true).
Proof.
  intros H. pose proof H as (l & Hl & Hi & _)%get_by_id_ref_Some.
  exists l. split_and!; try done.
  unfold delete. rewrite H, Hl. by destruct (_save_data _ _).
Qed.

Lemma delete_not_found io id w :
  get_by_id_ref (db w) id = Ok None → delete io id w = (w, Ok false).
Proof. intros H. unfold delete. by rewrite H. Qed.

Lemma delete_raises io id w e :
  get_by_id_ref (db w) id = Raise e → delete io id w = (w, Raise e).
Proof. intros H. unfold delete. by rewrite H. Qed.

(** ** Fields that [update] does not touch *)

Lemma dump_field_keys {A} key (conv : A → value) f k :
  k ∈ (dump_field key conv f).*1 → k = key.
Proof.
  destruct f as [[x|]|]; simpl; intros H.
  - by apply list_elem_of_singleton in H.
  - by apply list_elem_of_singleton in H.
  - by apply elem_of_nil in H.
Qed.

Lemma model_dump_keys u k :
  k ∈ (model_dump_exclude_unset u).*1 → k ∈ settable.
Proof.
  unfold model_dump_exclude_unset, settable. rewrite !fmap_app, !elem_of_app.
  intros [H|[H|[H|[H|[H|H]]]]];
    apply dump_field_keys in H as ->; compute_done.
Qed.

Lemma apply_items_other d items key :
  key ∉ items.*1 → dict_get (apply_items d items) key = dict_get d key.
Proof.
  revert d. induction items as [|[k x] items IH]; intros d Hk; [done|].
  rewrite fmap_cons, not_elem_of_cons in Hk. destruct Hk as [Hne Hk].
  unfold apply_items. simpl. fold (apply_items (if is_None x then d else dict_set d k x) items).
  rewrite IH by done. destruct (is_None x); [done|].
  by apply dict_get_set_ne.
Qed.

Lemma updated_term_other d now u key :
  key ∉ settable → key ≠ k_updated_at →
  field (updated_term d now u) key = dict_get d key.
Proof.
  intros Hk Hne. unfold updated_term. simpl.
  rewrite dict_get_set_ne by done.
  apply apply_items_other. intros H. by apply model_dump_keys in H.
Qed.

Lemma updated_term_id d now u :
  term_id_of (updated_term d now u) = term_id_of (VDict d).
Proof.
  unfold term_id_of. rewrite updated_term_other; [done | compute_done..].
Qed.

(** ** Identifier allocation *)

Lemma foldr_max_init m n xs :
  foldr Z.max (Z.max m n) xs = Z.max n (foldr Z.max m xs).
Proof. induction xs as [|x xs IH]; simpl; lia. Qed.

Lemma foldr_max_ge m xs :
  (m ≤ foldr Z.max m xs)%Z ∧ Forall (λ x, x ≤ foldr Z.max m xs)%Z xs.
Proof.
  induction xs as [|x xs [IH1 IH2]]; simpl; [split; [lia | constructor]|].
  split; [lia|]. constructor; [lia|].
  eapply list.Forall_impl; [exact IH2|]. simpl. lia.
Qed.

Lemma max_loop_spec l m n :
  max_loop m l = Ok n →
  Forall (λ t, is_Some (term_id_of t)) l ∧ n = foldr Z.max m (term_ids l).
Proof.
  revert m. induction l as [|t l IH]; intros m H; simpl in H.
  - injection H as <-. split; [constructor | done].
  - apply bind_Ok in H as (v & Hv & H). apply bind_Ok in H as (i & Hi & H).
    destruct v; try done. injection Hi as ->.
    apply getitem_field in Hv. apply term_id_of_Some in Hv.
    apply IH in H as [Hl ->]. split; [constructor; [by rewrite Hv | done]|].
    unfold term_ids. simpl. rewrite Hv. simpl.
    assert ((if (i >? m)%Z then i else m) = Z.max m i) as ->
      by (destruct (Z.gtb_spec i m); lia).
    apply foldr_max_init.
Qed.

Lemma ids_bounded l (M : Z) :
  Forall (λ t, is_Some (term_id_of t)) l →
  Forall (λ x, x ≤ M)%Z (term_ids l) →
  Forall (λ t, ∃ j, term_id_of t = Some j ∧ (j < M + 1)%Z) l.
Proof.
  induction 1 as [|t l [j Hj] Hl IH]; intros H2; [constructor|].
  unfold term_ids in H2. simpl in H2. rewrite Hj in H2. simpl in H2.
  apply list.Forall_cons in H2 as [H2 H3].
  constructor; [exists j; split; [done | lia] | by apply IH].
Qed.

Lemma get_next_id_spec d n :
  _get_next_id d = Ok n →
  let self := {| data := d; next_id := n |} in
  ids_below self ∧
  n = match term_ids (collection self) with
      | [] => 1
      | i :: ids => max_of i ids + 1
      end%Z.
Proof.
  unfold _get_next_id, ids_below, collection. simpl. intros H.
  apply bind_Ok in H as (g & Hg & H). rewrite Hg.
  destruct (py_truthy g) eqn:Hgt; simpl in H.
  - apply bind_Ok in H as (terms & Hterms & H).
    apply bind_Ok in H as (m & Hm & H). injection H as <-.
    destruct terms as [|t terms]; [done|]. simpl in Hm.
    apply bind_Ok in Hm as (v & Hv & Hm). apply bind_Ok in Hm as (i & Hi & Hm).
    destruct v; try done. injection Hi as ->.
    apply getitem_field in Hv. pose proof Hv as Hid%term_id_of_Some.
    apply max_loop_spec in Hm as [Hl ->].
    destruct g as [| |s|l|d']; simpl in Hterms; try done.
    + destruct s; [done|]. by injection Hterms as <- _.
    + injection Hterms as ->. unfold term_ids at 2. simpl. rewrite Hid. simpl.
      fold (term_ids terms). unfold max_of. split; [|done].
      destruct (foldr_max_ge i (term_ids terms)) as [H1 H2].
      constructor; [exists i; split; [done | lia]|].
      by apply ids_bounded.
    + destruct d'; [done|]. by injection Hterms as <- _.
  - injection H as <-. destruct g as [| |s|l|d']; try done.
    destruct l; done.
Qed.

Lemma ids_below_lt self i :
  ids_below self → i ∈ term_ids (collection self) → (i < next_id self)%Z.
Proof.
  unfold ids_below, term_ids. intros H Hi.
  apply list_elem_of_omap in Hi as (t & Ht & Hid).
  rewrite list.Forall_forall in H. destruct (H t Ht) as (j & Hj & Hlt).
  congruence.
Qed.

Lemma term_ids_insert l i t t' :
  l !! i = Some t → term_id_of t' = term_id_of t →
  term_ids (<[i := t']> l) = term_ids l.
Proof.
  revert i. induction l as [|x l IH]; intros [|i] Hi Hid; simpl in *; try done.
  - injection Hi as ->. unfold term_ids. simpl. by rewrite Hid.
  - unfold term_ids in *. simpl. by rewrite IH.
Qed.

Lemma term_ids_delete l i : term_ids (base.delete i l) `sublist_of` term_ids l.
Proof.
  revert i. induction l as [|x l IH]; intros [|i]; simpl; try done.
  - unfold term_ids. simpl. destruct (term_id_of x); [by constructor | done].
  - unfold term_ids in *. simpl. destruct (term_id_of x);
      [apply sublist_skip | ]; apply IH.
Qed.

Lemma new_term_id n now1 now2 td : term_id_of (new_term n now1 now2 td) = Some n.
Proof. done. Qed.

Lemma serve_ids rq w w' r :
  ids_below (db w) → serve rq w = (w', r) →
  ids_below (db w') ∧ (next_id (db w) ≤ next_id (db w'))%Z
  ∧ (issued [r] = []
     ∨ issued [r] = [next_id (db w)]
       ∧ next_id (db w') = (next_id (db w) + 1)%Z)
  ∧ (NoDup (term_ids (collection (db w))) →
     NoDup (term_ids (collection (db w')))).
Proof.
  intros Hinv Hs. destruct rq as [now1 now2 io td|now io id u|io id]; simpl in Hs.
  - destruct (create_cases now1 now2 io td w) as [[l Hg]|[e He]].
    2:{ rewrite He in Hs. injection Hs as <- <-.
        split_and!; [done | lia | by left | done]. }
    rewrite (create_list _ _ _ _ _ _ Hg) in Hs. injection Hs as <- <-.
    pose proof (collection_eq _ _ Hg) as Hc.
    unfold ids_below. simpl.
    erewrite collection_set_glossary by done.
    split_and!.
    + apply Forall_app. split.
      * unfold ids_below in Hinv. rewrite Hc in Hinv.
        eapply list.Forall_impl; [exact Hinv|]. simpl.
        intros t (i & Hi & Hlt). exists i. split; [done | lia].
      * constructor; [|constructor]. eexists. split; [apply new_term_id | lia].
    + lia.
    + destruct (_save_data _ _).2; simpl; [right | left]; done.
    + intros Hnd. unfold term_ids. rewrite omap_app. simpl.
      apply list.NoDup_app. split_and!.
      * by rewrite <- Hc.
      * intros i Hi ->%list_elem_of_singleton. rewrite <- Hc in Hi.
        apply (ids_below_lt _ _ Hinv) in Hi. lia.
      * apply NoDup_singleton.
  - destruct (get_by_id_ref (db w) id) as [[[i t]|]|e] eqn:Hf.
    + destruct (update_found now io id u w i t Hf) as (d & l & -> & Hl & Hi & Hu).
      simpl in Hu. rewrite Hu in Hs. injection Hs as <- <-.
      pose proof (collection_eq _ _ Hl) as Hc.
      unfold ids_below. simpl. erewrite collection_set_glossary by done.
      split_and!; [ | lia | by left | ].
      * unfold ids_below in Hinv. rewrite Hc in Hinv.
        apply Forall_insert; [done|].
        rewrite list.Forall_forall in Hinv.
        destruct (Hinv (VDict d)) as (j & Hj & Hlt);
          [by eapply list_elem_of_lookup_2|].
        exists j. by rewrite updated_term_id.
      * rewrite Hc. by erewrite term_ids_insert; [| done | apply updated_term_id].
    + rewrite update_not_found in Hs by done. injection Hs as <- <-.
      split_and!; [done | lia | by left | done].
    + rewrite (update_raises _ _ _ _ _ e) in Hs by done. injection Hs as <- <-.
      split_and!; [done | lia | by left | done].
  - destruct (get_by_id_ref (db w) id) as [[[i t]|]|e] eqn:Hf.
    + destruct (delete_found io id w i t Hf) as (l & Hl & Hi & Hd).
      simpl in Hd. rewrite Hd in Hs. injection Hs as <- <-.
      pose proof (collection_eq _ _ Hl) as Hc.
      unfold ids_below. simpl. erewrite collection_set_glossary by done.
      split_and!; [ | lia | by left | ].
      * unfold ids_below in Hinv. rewrite Hc in Hinv.
        rewrite list.Forall_forall in Hinv. apply list.Forall_forall.
        intros x Hx. apply Hinv.
        by eapply list_elem_of_delete_inv.
      * rewrite Hc. intros Hnd.
        eapply sublist_NoDup; [done | apply term_ids_delete].
    + rewrite delete_not_found in Hs by done. injection Hs as <- <-.
      split_and!; [done | lia | by left | done].
    + rewrite (delete_raises _ _ _ e) in Hs by done. injection Hs as <- <-.
      split_and!; [done | lia | by left | done].
Qed.

Lemma issued_cons r rs : issued (r :: rs) = issued [r] ++ issued rs.
Proof. unfold issued. simpl. by destruct r as [[t|]| |]; [destruct (term_id_of t)|..]. Qed.

Lemma run_ids rqs w w' rs :
  ids_below (db w) → run rqs w = (w', rs) →
  ids_below (db w') ∧ (next_id (db w) ≤ next_id (db w'))%Z
  ∧ (∀ a i, issued rs !! a = Some i →
       (next_id (db w) ≤ i < next_id (db w'))%Z)
  ∧ (∀ a b i j, (a < b)%nat →
       issued rs !! a = Some i → issued rs !! b = Some j → (i < j)%Z)
  ∧ (NoDup (term_ids (collection (db w))) →
     NoDup (term_ids (collection (db w')))).
Proof.
  revert w rs. induction rqs as [|rq rqs IH]; intros w rs Hinv Hrun; simpl in Hrun.
  - injection Hrun as <- <-. split_and!; [done | lia | done | done | done].
  - destruct (serve rq w) as [w1 r] eqn:Hs.
    destruct (run rqs w1) as [w2 rs'] eqn:Hr. injection Hrun as <- <-.
    destruct (serve_ids _ _ _ _ Hinv Hs) as (Hinv1 & Hle1 & Hiss & Hnd1).
    destruct (IH _ _ Hinv1 Hr) as (Hinv2 & Hle2 & Hrange & Hsorted & Hnd2).
    split_and!; [done | lia | | | by intros ?; apply Hnd2, Hnd1].
    + intros a i. rewrite issued_cons.
      destruct Hiss as [->|[-> Hn]]; simpl.
      * intros H. apply Hrange in H. lia.
      * destruct a as [|a]; simpl; [intros [= <-]; lia|].
        intros H. apply Hrange in H. lia.
    + intros a b i j Hab. rewrite issued_cons.
      destruct Hiss as [->|[-> Hn]]; simpl; [by apply Hsorted|].
      destruct b as [|b]; [lia|]. destruct a as [|a]; simpl.
      * intros [= <-] H. apply Hrange in H. lia.
      * apply Hsorted. lia.
Qed.

Lemma init_spec disk0 self :
  __init__ disk0 = Ok self →
  ids_below self
  ∧ next_id self = match term_ids (collection self) with
                   | [] => 1
                   | i :: ids => max_of i ids + 1
                   end%Z.
Proof.
  unfold __init__. intros H. apply bind_Ok in H as (d & Hd & H).
  apply bind_Ok in H as (n & Hn & H). injection H as <-.
  by apply get_next_id_spec.
Qed.

(** C1. At initialization the next id is the largest id of the collection
    plus one (1 for an empty collection); the ids that [create] hands
    back during the life of the process are strictly increasing and larger
    than every id of the collection the process started with; ids that
    are distinct in that collection stay distinct in the live one. *)
Theorem next_id_monotone disk0 self rqs w' rs :
  __init__ disk0 = Ok self →
  run rqs {| db := self; disk := disk0 |} = (w', rs) →
  next_id self = match term_ids (collection self) with
                 | [] => 1
                 | i :: ids => max_of i ids + 1
                 end%Z
  ∧ (∀ a b i j, (a < b)%nat →
       issued rs !! a = Some i → issued rs !! b = Some j → (i < j)%Z)
  ∧ (∀ i j, i ∈ issued rs → j ∈ term_ids (collection self) → (j < i)%Z)
  ∧ (NoDup (term_ids (collection self)) →
     NoDup (term_ids (collection (db w')))).
Proof.
  intros [Hinv Hnext]%init_spec Hrun.
  destruct (run_ids rqs {| db := self; disk := disk0 |} _ _ Hinv Hrun)
    as (_ & _ & Hrange & Hsorted & Hnd).
  simpl in *. split_and!; [done | done | | done].
  intros i j (a & Ha)%list_elem_of_lookup_1 Hj.
  apply Hrange in Ha. apply (ids_below_lt _ _ Hinv) in Hj. lia.
Qed.

(** ** Persistence failures *)

Lemma save_data_cases io self :
  (write_fails io self = false
   ∧ _save_data io self = (Some (json_dumps (data self)), Ok ()))
  ∨ (write_fails io self = true
     ∧ ∃ e, _save_data io self = (leftover io, Raise e)
            ∧ (e = OSError ∨ e = UnicodeEncodeError)).
Proof.
  unfold write_fails, _save_data.
  destruct (os_fault io); simpl; [right; eauto|].
  destruct (utf8_encodable _); simpl; [left | right]; eauto.
Qed.

(** C4. When the persistence step of a mutating operation fails, the
    operation raises the write error instead of reporting success; an
    operation that reports success after its persistence step leaves on
    disk exactly the serialization of the document in memory; an
    operation that does not get to the persistence step changes neither
    memory nor disk. *)
Theorem write_failure_propagates rq w w' r :
  serve rq w = (w', r) →
  (reaches_save rq (db w) → write_fails (env_of rq) (db w') = true →
     ∃ e, raised r e ∧ (e = OSError ∨ e = UnicodeEncodeError))
  ∧ (reaches_save rq (db w) → succeeded r →
     disk w' = Some (json_dumps (data (db w'))))
  ∧ (¬ reaches_save rq (db w) → w' = w).
Proof.
  intros Hs. destruct rq as [now1 now2 io td|now io id u|io id]; simpl in *.
  - destruct (create_cases now1 now2 io td w) as [[l Hg]|[e He]].
    + rewrite (create_list _ _ _ _ _ _ Hg) in Hs. injection Hs as <- <-. simpl.
      match goal with |- context [_save_data io ?s] =>
        destruct (save_data_cases io s) as [[Hw ->]|[Hw (e & -> & He)]] end;
        simpl; rewrite Hw; split_and!; try done; eauto.
      all: intros Hn; destruct Hn; eauto.
    + rewrite He in Hs. injection Hs as <- <-. simpl.
      assert (¬ ∃ l, getitem (data (db w)) k_glossary = Ok (VList l)) as Hn.
      { intros [l Hl]. rewrite (create_list _ _ _ _ _ _ Hl) in He.
        injection He as He _.
        apply (f_equal (λ w, next_id (db w))) in He. simpl in He. lia. }
      split_and!; done.
  - destruct (get_by_id_ref (db w) id) as [[[i t]|]|e] eqn:Hf.
    + destruct (update_found now io id u w i t Hf) as (d & l & -> & Hl & Hi & Hu).
      simpl in Hu. rewrite Hu in Hs. injection Hs as <- <-. simpl.
      match goal with |- context [_save_data io ?s] =>
        destruct (save_data_cases io s) as [[Hw ->]|[Hw (e & -> & He)]] end;
        simpl; rewrite Hw; split_and!; try done; eauto.
      all: intros Hn; destruct Hn; eauto.
    + rewrite update_not_found in Hs by done. injection Hs as <- <-.
      split_and!; try done; by intros (? & ? & ?).
    + rewrite (update_raises _ _ _ _ _ e) in Hs by done. injection Hs as <- <-.
      split_and!; try done; by intros (? & ? & ?).
  - destruct (get_by_id_ref (db w) id) as [[[i t]|]|e] eqn:Hf.
    + destruct (delete_found io id w i t Hf) as (l & Hl & Hi & Hd).
      simpl in Hd. rewrite Hd in Hs. injection Hs as <- <-. simpl.
      match goal with |- context [_save_data io ?s] =>
        destruct (save_data_cases io s) as [[Hw ->]|[Hw (e & -> & He)]] end;
        simpl; rewrite Hw; split_and!; try done; eauto.
      all: intros Hn; destruct Hn; eauto.
    + rewrite delete_not_found in Hs by done. injection Hs as <- <-.
      split_and!; try done; by intros (? & ? & ?).
    + rewrite (delete_raises _ _ _ e) in Hs by done. injection Hs as <- <-.
      split_and!; try done; by intros (? & ? & ?).
Qed.

(** ** Delete *)

Lemma absent_id l id :
  Forall (λ t, is_Some (field t k_id)) l → id ∉ term_ids l →
  Forall (λ t, ∃ v, field t k_id = Some v ∧ v ≠ VInt id) l.
Proof.
  intros Hall Hid. rewrite list.Forall_forall in Hall. apply list.Forall_forall.
  intros t Ht. destruct (Hall t Ht) as [v Hv]. exists v. split; [done|].
  intros ->. apply Hid. apply list_elem_of_omap. exists t. split; [done|].
  by apply term_id_of_Some.
Qed.

Lemma get_by_id_ref_list self l id :
  getitem (data self) k_glossary = Ok (VList l) →
  get_by_id_ref self id = find_by_id l id 0.
Proof. intros H. unfold get_by_id_ref. by rewrite H. Qed.

Lemma get_by_id_ref_found self l id i t :
  getitem (data self) k_glossary = Ok (VList l) →
  first_with_id l id i t →
  get_by_id_ref self id = Ok (Some (i, t)).
Proof.
  intros Hl (Hi & Hid & Hfirst). rewrite (get_by_id_ref_list _ _ _ Hl).
  by rewrite (find_by_id_found l id 0 i t).
Qed.

(** C6. In a collection whose records all carry an id, deleting an id that
    no record has returns [False] without an error and changes nothing,
    so that deleting it again returns [False] again; deleting an id that
    a record has removes the first record with that id and no other,
    and, when the write succeeds, returns [True] with the remaining
    collection on disk. *)
Theorem delete_spec io id w l :
  getitem (data (db w)) k_glossary = Ok (VList l) →
  Forall (λ t, is_Some (field t k_id)) l →
  (id ∉ term_ids l →
     delete io id w = (w, Ok false)
     ∧ ∀ io', delete io' id (delete io id w).1 = (w, Ok false))
  ∧ (∀ i t, first_with_id l id i t →
       ∃ w' r, delete io id w = (w', r)
         ∧ collection (db w') = base.delete i l
         ∧ next_id (db w') = next_id (db w)
         ∧ (write_fails io (db w') = false →
            r = Ok true ∧ disk w' = Some (json_dumps (data (db w'))))).
Proof.
  intros Hl Hall. split.
  - intros Hid. pose proof (absent_id _ _ Hall Hid) as Habs.
    assert (∀ io', delete io' id w = (w, Ok false)) as Hd.
    { intros io'. apply delete_not_found.
      rewrite (get_by_id_ref_list _ _ _ Hl). by apply find_by_id_None. }
    split; [apply Hd|]. intros io'. rewrite Hd. apply Hd.
  - intros i t Hfirst.
    pose proof (get_by_id_ref_found _ _ _ _ _ Hl Hfirst) as Hf.
    destruct (delete_found io id w i t Hf) as (l' & Hl' & _ & Hd).
    rewrite Hl in Hl'. injection Hl' as <-. simpl in Hd.
    eexists _, _. split; [exact Hd|]. simpl.
    split; [by eapply collection_set_glossary|]. split; [done|].
    intros Hw. by rewrite (save_data_ok _ _ Hw).
Qed.

(** ** Create *)

Lemma or_empty_default {A} (x : option (list A)) : or_empty x = default [] x.
Proof. by destruct x as [[]|]. Qed.

(** C7. [create] gives the new record the next id, the two readings of the
    clock as [created_at] and [updated_at], empty lists for absent
    [examples] and [related_terms] and the empty string for an absent
    [source]; it appends the record to the collection and advances the
    counter; when the write succeeds it returns the record and the disk
    holds the whole document. A request body that does not mention
    [category] is validated to the category [General]. *)
Theorem create_spec now1 now2 io td w l :
  getitem (data (db w)) k_glossary = Ok (VList l) →
  ∃ w' r term, create now1 now2 io td w = (w', r)
    ∧ term = VDict [
        (k_id, VInt (next_id (db w)));
        (k_title, VStr (GlossaryTermCreate.title td));
        (k_definition, VStr (GlossaryTermCreate.definition td));
        (k_category, VStr (GlossaryTermCreate.category td));
        (k_examples, str_list (default [] (GlossaryTermCreate.examples td)));
        (k_related_terms,
           str_list (default [] (GlossaryTermCreate.related_terms td)));
        (k_source, VStr (default [] (GlossaryTermCreate.source td)));
        (k_created_at, VStr now1);
        (k_updated_at, VStr now2)]
    ∧ collection (db w') = l ++ [term]
    ∧ next_id (db w') = (next_id (db w) + 1)%Z
    ∧ (write_fails io (db w') = false →
       r = Ok term ∧ disk w' = Some (json_dumps (data (db w'))))
    ∧ (∀ b td', validate_create (VDict b) = Some td' →
         dict_get b k_category = None →
         GlossaryTermCreate.category td' = lit "General").
Proof.
  intros Hl. rewrite (create_list _ _ _ _ _ _ Hl).
  assert (new_term (next_id (db w)) now1 now2 td = VDict [
        (k_id, VInt (next_id (db w)));
        (k_title, VStr (GlossaryTermCreate.title td));
        (k_definition, VStr (GlossaryTermCreate.definition td));
        (k_category, VStr (GlossaryTermCreate.category td));
        (k_examples, str_list (default [] (GlossaryTermCreate.examples td)));
        (k_related_terms,
           str_list (default [] (GlossaryTermCreate.related_terms td)));
        (k_source, VStr (default [] (GlossaryTermCreate.source td)));
        (k_created_at, VStr now1);
        (k_updated_at, VStr now2)]) as ->.
  { unfold new_term. by rewrite !or_empty_default. }
  eexists _, _, _. split; [done|]. cbn [db disk next_id]. split_and!.
  - done.
  - by eapply collection_set_glossary.
  - done.
  - intros Hw. by rewrite (save_data_ok _ _ Hw).
  - intros b td' Hv Hc. unfold validate_create in Hv. rewrite Hc in Hv.
    simplify_option_eq. done.
Qed.

(** ** Update *)

Lemma dump_field_sublist {A} key (conv : A → value) f :
  (dump_field key conv f).*1 `sublist_of` [key].
Proof. destruct f as [[x|]|]; simpl; [done | done | by apply sublist_nil_l]. Qed.

Lemma model_dump_NoDup u : NoDup (model_dump_exclude_unset u).*1.
Proof.
  apply (sublist_NoDup _ settable); [compute_done|].
  unfold model_dump_exclude_unset, settable. rewrite !fmap_app.
  change [k_title; k_definition; k_category; k_examples; k_related_terms;
          k_source]
    with ([k_title] ++ [k_definition] ++ [k_category] ++ [k_examples]
          ++ [k_related_terms] ++ [k_source]).
  repeat (apply sublist_app; [apply dump_field_sublist|]).
  apply dump_field_sublist.
Qed.

Lemma NoDup_keys_functional {A} (l : list (str * A)) k x y :
  NoDup l.*1 → (k, x) ∈ l → (k, y) ∈ l → x = y.
Proof.
  induction l as [|[k0 x0] l IH]; intros Hnd Hx Hy.
  - by apply elem_of_nil in Hx.
  - rewrite fmap_cons in Hnd. apply list.NoDup_cons in Hnd as [Hk0 Hnd].
    apply elem_of_cons in Hx as [Hx|Hx];
      apply elem_of_cons in Hy as [Hy|Hy]; simplify_eq; try done.
    + destruct Hk0. by apply (list_elem_of_fmap_2 fst) in Hy.
    + destruct Hk0. by apply (list_elem_of_fmap_2 fst) in Hx.
    + by apply IH.
Qed.

Lemma apply_items_cons d k x items :
  apply_items d ((k, x) :: items)
  = apply_items (if is_None x then d else dict_set d k x) items.
Proof. done. Qed.

Lemma apply_items_set d items k x :
  NoDup items.*1 → (k, x) ∈ items → is_None x = false →
  dict_get (apply_items d items) k = Some x.
Proof.
  revert d. induction items as [|[k0 x0] items IH]; intros d Hnd Hin Hx.
  - by apply elem_of_nil in Hin.
  - rewrite fmap_cons in Hnd. apply list.NoDup_cons in Hnd as [Hk0 Hnd].
    rewrite apply_items_cons. apply elem_of_cons in Hin as [[= <- <-]|Hin].
    + rewrite apply_items_other by done. rewrite Hx. apply dict_get_set_eq.
    + by apply IH.
Qed.

Lemma apply_items_inv d items k v :
  dict_get (apply_items d items) k = Some v →
  dict_get d k = Some v ∨ ((k, v) ∈ items ∧ is_None v = false).
Proof.
  revert d. induction items as [|[k0 x0] items IH]; intros d H; [by left|].
  rewrite apply_items_cons in H. apply IH in H as [H|[H1 H2]].
  - destruct (is_None x0) eqn:E; [by left|].
    destruct (decide (k0 = k)) as [->|Hne].
    + rewrite dict_get_set_eq in H. injection H as ->.
      right. split; [left | done].
    + rewrite dict_get_set_ne in H by done. by left.
  - right. split; [by right | done].
Qed.

Lemma apply_items_null d items k :
  (∀ x, (k, x) ∈ items → x = VNone) →
  dict_get (apply_items d items) k = dict_get d k.
Proof.
  revert d. induction items as [|[k0 x0] items IH]; intros d H; [done|].
  rewrite apply_items_cons, IH.
  - destruct (is_None x0) eqn:E; [done|].
    apply dict_get_set_ne. intros ->.
    rewrite (H x0) in E; [done | left].
  - intros x Hx. apply H. by right.
Qed.

Lemma is_None_false x : x ≠ VNone ↔ is_None x = false.
Proof. destruct x; simpl; split; done. Qed.

Lemma first_with_id_dict l id i t :
  first_with_id l id i t → ∃ d, t = VDict d.
Proof.
  intros (_ & Hid & _). apply term_id_of_Some in Hid.
  destruct t; try done. eauto.
Qed.

(** What [update] does to a record it finds; the shared ground of the
    statements about [update] below. *)
Lemma update_at now io id u w l i d :
  getitem (data (db w)) k_glossary = Ok (VList l) →
  first_with_id l id i (VDict d) →
  let t' := updated_term d now u in
  ∃ w' r, update now io id u w = (w', r)
    ∧ collection (db w') = <[i := t']> l
    ∧ next_id (db w') = next_id (db w)
    ∧ (write_fails io (db w') = false →
       r = Ok t' ∧ disk w' = Some (json_dumps (data (db w')))).
Proof.
  intros Hl Hfirst t'.
  pose proof (get_by_id_ref_found _ _ _ _ _ Hl Hfirst) as Hf.
  destruct (update_found now io id u w i _ Hf) as (d' & l' & [= <-] & Hl' & _ & Hu).
  rewrite Hl in Hl'. injection Hl' as <-. simpl in Hu.
  eexists _, _. split; [exact Hu|]. simpl.
  split; [by eapply collection_set_glossary|]. split; [done|].
  intros Hw. by rewrite (save_data_ok _ _ Hw).
Qed.

(** C2, as amended. [update] of a record that is found replaces every
    field that the partial update sets to a value other than [null] by
    that value, whole; it leaves untouched every field that the partial
    update does not set or sets to [null]; it sets [updated_at] to the
    clock reading whatever the fields; with no field set, the record
    changes in [updated_at] only. No other record changes. *)
Theorem update_spec now io id u w l i t :
  getitem (data (db w)) k_glossary = Ok (VList l) →
  first_with_id l id i t →
  ∃ d w' r t', t = VDict d
    ∧ update now io id u w = (w', r)
    ∧ collection (db w') = <[i := t']> l
    ∧ (∀ k x, (k, x) ∈ model_dump_exclude_unset u → x ≠ VNone →
         field t' k = Some x)
    ∧ (∀ k, k ≠ k_updated_at →
         (∀ x, (k, x) ∈ model_dump_exclude_unset u → x = VNone) →
         field t' k = field t k)
    ∧ field t' k_updated_at = Some (VStr now)
    ∧ (model_dump_exclude_unset u = [] →
       t' = VDict (dict_set d k_updated_at (VStr now)))
    ∧ (write_fails io (db w') = false →
       r = Ok t' ∧ disk w' = Some (json_dumps (data (db w')))).
Proof.
  intros Hl Hfirst. destruct (first_with_id_dict _ _ _ _ Hfirst) as [d ->].
  destruct (update_at now io id u w l i d Hl Hfirst) as (w' & r & Hu & Hc & _ & Hw).
  exists d, w', r, (updated_term d now u). split_and!; try done.
  - intros k x Hin Hx. unfold updated_term. simpl.
    assert (k ≠ k_updated_at) as Hk.
    { intros ->. apply (list_elem_of_fmap_2 fst) in Hin.
      apply model_dump_keys in Hin. revert Hin. compute_done. }
    rewrite dict_get_set_ne by done.
    apply apply_items_set; [apply model_dump_NoDup | done | by apply is_None_false].
  - intros k Hk Hnull. unfold updated_term. simpl.
    rewrite dict_get_set_ne by done. by apply apply_items_null.
  - unfold updated_term. simpl. apply dict_get_set_eq.
  - intros Hnil. unfold updated_term. by rewrite Hnil.
Qed.

(** C10. A field that the partial update sets to [null] keeps the value it
    had in the store, and no field of the record is [null] after
    [update] unless it was [null] before. *)
Theorem update_ignores_null now io id u w l i t :
  getitem (data (db w)) k_glossary = Ok (VList l) →
  first_with_id l id i t →
  ∃ w' r t', update now io id u w = (w', r)
    ∧ collection (db w') = <[i := t']> l
    ∧ (∀ k, (k, VNone) ∈ model_dump_exclude_unset u →
         field t' k = field t k)
    ∧ (∀ k, field t' k = Some VNone → field t k = Some VNone).
Proof.
  intros Hl Hfirst. destruct (first_with_id_dict _ _ _ _ Hfirst) as [d ->].
  destruct (update_at now io id u w l i d Hl Hfirst) as (w' & r & Hu & Hc & _ & Hw).
  exists w', r, (updated_term d now u). split_and!; try done.
  - intros k Hin. unfold updated_term. simpl.
    assert (k ≠ k_updated_at) as Hk.
    { intros ->. apply (list_elem_of_fmap_2 fst) in Hin.
      apply model_dump_keys in Hin. revert Hin. compute_done. }
    rewrite dict_get_set_ne by done. apply apply_items_null.
    intros x Hx. pose proof (model_dump_NoDup u) as Hnd.
    symmetry. by eapply NoDup_keys_functional.
  - intros k. unfold updated_term. simpl.
    destruct (decide (k_updated_at = k)) as [<-|Hne].
    + by rewrite dict_get_set_eq.
    + rewrite dict_get_set_ne by done.
      intros [H|[_ H]]%apply_items_inv; done.
Qed.

(** ** Pagination *)

Lemma list_slice_nonneg {A} (l : list A) (a n : Z) :
  (0 ≤ a)%Z → (0 ≤ n)%Z →
  list_slice l a (a + n) = take (Z.to_nat n) (drop (Z.to_nat a) l).
Proof.
  intros Ha Hn. unfold list_slice, slice_index.
  destruct (Z.ltb_spec a 0); [lia|]. destruct (Z.ltb_spec (a + n) 0); [lia|].
  destruct (Z.le_gt_cases a (Z.of_nat (length l))) as [Hle|Hgt].
  - rewrite (Z.min_l a) by lia.
    destruct (Z.le_gt_cases (a + n) (Z.of_nat (length l))).
    + rewrite Z.min_l by lia. do 2 f_equal. lia.
    + rewrite Z.min_r by lia.
      rewrite (take_ge _ (Z.to_nat n)) by (rewrite length_drop; lia).
      apply take_ge. rewrite length_drop. lia.
  - rewrite !Z.min_r by lia. rewrite Z.sub_diag. simpl.
    rewrite (drop_ge l (Z.to_nat a)) by lia. by rewrite take_nil.
Qed.

(** C8. For [skip >= 0] and [1 <= limit <= 1000] the list operation
    answers with the at most [limit] records that follow the first [skip]
    records of the collection, the number of all records, and the [skip]
    and [limit] it applied; over 25 records, [skip=0, limit=10] gives 10
    items and [total = 25], and [skip=20, limit=10] gives 5 items. *)
Theorem get_all_terms_spec self l skip limit :
  get_all self = Ok (VList l) →
  (0 ≤ skip)%Z → (1 ≤ limit ≤ 1000)%Z →
  let items := take (Z.to_nat limit) (drop (Z.to_nat skip) l) in
  get_all_terms self (Some skip) (Some limit) =
    Reply 200 {|
      success := true;
      message := lit "Получено " ++ repr_int (Z.of_nat (length items))
                 ++ lit " терминов из " ++ repr_int (Z.of_nat (length l))
                 ++ lit " всего";
      response_data := Some (VDict [
        (k_total, VInt (Z.of_nat (length l)));
        (k_skip, VInt skip);
        (k_limit, VInt limit);
        (k_items, VList items)])
    |}
  ∧ (length l = 25%nat →
     reply_field (get_all_terms self (Some 0%Z) (Some 10%Z)) k_total
       = Some (VInt 25)
     ∧ (∃ page, reply_field (get_all_terms self (Some 0%Z) (Some 10%Z)) k_items
                  = Some (VList page) ∧ length page = 10%nat)
     ∧ (∃ page, reply_field (get_all_terms self (Some 20%Z) (Some 10%Z)) k_items
                  = Some (VList page) ∧ length page = 5%nat)).
Proof.
  intros Hall Hskip Hlimit.
  assert (∀ s n, (0 ≤ s)%Z → (1 ≤ n ≤ 1000)%Z →
    get_all_terms self (Some s) (Some n) =
    Reply 200 {|
      success := true;
      message := lit "Получено "
                 ++ repr_int (Z.of_nat (length (take (Z.to_nat n) (drop (Z.to_nat s) l))))
                 ++ lit " терминов из " ++ repr_int (Z.of_nat (length l))
                 ++ lit " всего";
      response_data := Some (VDict [
        (k_total, VInt (Z.of_nat (length l)));
        (k_skip, VInt s);
        (k_limit, VInt n);
        (k_items, VList (take (Z.to_nat n) (drop (Z.to_nat s) l)))])
    |}) as Hgen.
  { intros s n Hs Hn. unfold get_all_terms.
    change (default 0%Z (Some s)) with s.
    change (default 100%Z (Some n)) with n. cbv zeta.
    destruct (Z.leb_spec 0 s); [|lia].
    destruct (Z.leb_spec 1 n); [|lia].
    destruct (Z.leb_spec n 1000); [|lia].
    cbn [andb negb]. rewrite Hall. cbn [mbind result_bind py_slice py_len].
    by rewrite list_slice_nonneg by lia. }
  split; [by apply Hgen|].
  intros Hlen. rewrite !Hgen by lia. unfold reply_field. cbn.
  rewrite Hlen. split_and!; [done | |]; eexists; (split; [done|]);
    rewrite length_take, length_drop, Hlen; lia.
Qed.

(** ** Search *)

Lemma str_startswith_spec b a :
  str_startswith b a = true ↔ ∃ post, b = a ++ post.
Proof.
  revert b. induction a as [|x a IH]; intros b; simpl.
  - split; [by exists b | done].
  - destruct b as [|y b]; [split; [done | by intros [? ?]]|].
    rewrite andb_true_iff, N.eqb_eq, IH. split.
    + intros [-> [post ->]]. eauto.
    + intros [post [= -> ->]]. eauto.
Qed.

Lemma str_in_spec a b : str_in a b = true ↔ occurs_in a b.
Proof.
  unfold occurs_in. induction b as [|y b IH]; simpl.
  - rewrite orb_false_r, str_startswith_spec. split.
    + intros [post H]. exists [], post. done.
    + intros (pre & post & H). symmetry in H.
      apply app_eq_nil in H as [-> H]. apply app_eq_nil in H as [-> ->].
      by exists [].
  - rewrite orb_true_iff, str_startswith_spec, IH. split.
    + intros [[post H]|(pre & post & ->)].
      * exists [], post. done.
      * exists (y :: pre), post. done.
    + intros (pre & post & H). destruct pre as [|z pre]; simpl in H.
      * left. eauto.
      * injection H as -> ->. right. eauto.
Qed.

Lemma str_in_nil b : str_in [] b = true.
Proof. apply str_in_spec. by exists [], b. Qed.

Lemma str_in_nil_r a : str_in a [] = true → a = [].
Proof. by destruct a. Qed.

Section search_correct.
Variable lower : str → str.
Hypothesis lower_nil : lower [] = [].

Lemma field_containsb_spec keyword term key :
  field_containsb lower keyword term key = true
  ↔ field_contains lower keyword term key.
Proof.
  unfold field_containsb, field_contains, contains_ci.
  destruct (field term key) as [[| |s| |]|].
  all: try (split; [done | by intros (? & ? & ?)]).
  rewrite str_in_spec. split; [eauto | by intros (? & [= <-] & ?)].
Qed.

Lemma term_matchesb_spec keyword term :
  term_matchesb lower keyword term = true ↔ term_matches lower keyword term.
Proof.
  unfold term_matchesb, term_matches.
  rewrite !orb_true_iff, !field_containsb_spec. tauto.
Qed.

Lemma search_cond_spec keyword term :
  searchable term →
  search_cond lower (lower keyword) term
  = Ok (term_matchesb lower keyword term).
Proof.
  intros ([t Ht] & [d Hd] & Hc).
  unfold search_cond, term_matchesb, field_containsb.
  rewrite Ht, Hd.
  apply getitem_field in Ht as Ht'. apply getitem_field in Hd as Hd'.
  rewrite Ht'. cbn [mbind result_bind py_lower].
  destruct (str_in (lower keyword) (lower t)) eqn:Et; [done|].
  rewrite Hd'. cbn [mbind result_bind py_lower].
  destruct (str_in (lower keyword) (lower d)) eqn:Ed; [done|].
  cbn [orb].
  destruct term as [| | | |kv]; try done. cbn [py_get field] in *.
  destruct Hc as [Hc|[Hc|[c Hc]]]; rewrite Hc; cbn; try done.
  destruct c as [|x c]; cbn; [|by rewrite Hc].
  rewrite lower_nil. destruct (lower keyword) eqn:Ek; [|done].
  by rewrite str_in_nil in Et.
Qed.

Lemma search_loop_spec keyword l :
  Forall searchable l →
  search_loop lower (lower keyword) l
  = Ok (List.filter (term_matchesb lower keyword) l).
Proof.
  induction 1 as [|t l Ht Hl IH]; [done|].
  cbn [search_loop List.filter]. rewrite search_cond_spec, IH by done.
  cbn. by destruct (term_matchesb lower keyword t).
Qed.

End search_correct.

(** ** Timestamps *)

Lemma str_leb_refl a : str_leb a a = true.
Proof.
  induction a as [|x a IH]; [done|]. simpl.
  by rewrite N.eqb_refl, IH, orb_true_r.
Qed.

Lemma str_leb_trans a b c :
  str_leb a b = true → str_leb b c = true → str_leb a c = true.
Proof.
  revert b c. induction a as [|x a IH]; intros [|y b] [|z c]; simpl; try done.
  rewrite !orb_true_iff, !andb_true_iff, !N.ltb_lt, !N.eqb_eq.
  intros [H1|[-> H1]] [H2|[-> H2]].
  - left. lia.
  - by left.
  - by left.
  - right. split; [done|]. by eapply IH.
Qed.

(** The collection after a request, in terms of the collection before. *)
Lemma serve_collection rq w w' r :
  serve rq w = (w', r) →
  collection (db w') = collection (db w)
  ∨ (∃ now1 now2 io td,
       rq = ReqCreate now1 now2 io td
       ∧ collection (db w')
         = collection (db w) ++ [new_term (next_id (db w)) now1 now2 td])
  ∨ (∃ now io id u i d,
       rq = ReqUpdate now io id u
       ∧ collection (db w) !! i = Some (VDict d)
       ∧ collection (db w')
         = <[i := updated_term d now u]> (collection (db w)))
  ∨ (∃ io id i,
       rq = ReqDelete io id
       ∧ collection (db w') = base.delete i (collection (db w))).
Proof.
  intros Hs. destruct rq as [now1 now2 io td|now io id u|io id]; simpl in Hs.
  - destruct (create_cases now1 now2 io td w) as [[l Hg]|[e He]].
    + rewrite (create_list _ _ _ _ _ _ Hg) in Hs. injection Hs as <- <-.
      right. left. exists now1, now2, io, td. split; [done|]. simpl.
      rewrite (collection_eq _ _ Hg). by eapply collection_set_glossary.
    + rewrite He in Hs. injection Hs as <- <-. by left.
  - destruct (get_by_id_ref (db w) id) as [[[i t]|]|e] eqn:Hf.
    + destruct (update_found now io id u w i t Hf) as (d & l & -> & Hl & Hi & Hu).
      simpl in Hu. rewrite Hu in Hs. injection Hs as <- <-.
      right. right. left. exists now, io, id, u, i, d. simpl.
      rewrite (collection_eq _ _ Hl).
      split_and!; [done | done | by eapply collection_set_glossary].
    + rewrite update_not_found in Hs by done. injection Hs as <- <-. by left.
    + rewrite (update_raises _ _ _ _ _ e) in Hs by done.
      injection Hs as <- <-. by left.
  - destruct (get_by_id_ref (db w) id) as [[[i t]|]|e] eqn:Hf.
    + destruct (delete_found io id w i t Hf) as (l & Hl & Hi & Hd).
      simpl in Hd. rewrite Hd in Hs. injection Hs as <- <-.
      right. right. right. exists io, id, i. simpl.
      rewrite (collection_eq _ _ Hl).
      split; [done | by eapply collection_set_glossary].
    + rewrite delete_not_found in Hs by done. injection Hs as <- <-. by left.
    + rewrite (delete_raises _ _ _ e) in Hs by done.
      injection Hs as <- <-. by left.
Qed.

Lemma updated_term_created d now u :
  field (updated_term d now u) k_created_at = dict_get d k_created_at.
Proof. apply updated_term_other; compute_done. Qed.

Lemma updated_term_updated d now u :
  field (updated_term d now u) k_updated_at = Some (VStr now).
Proof. unfold updated_term. simpl. apply dict_get_set_eq. Qed.

Lemma serve_created_at rq w w' r t' :
  serve rq w = (w', r) → t' ∈ collection (db w') →
  (∃ t, t ∈ collection (db w) ∧ term_id_of t' = term_id_of t
        ∧ field t' k_created_at = field t k_created_at)
  ∨ (∃ now1 now2 io td, rq = ReqCreate now1 now2 io td
        ∧ field t' k_created_at = Some (VStr now1)).
Proof.
  intros Hs Ht'.
  destruct (serve_collection _ _ _ _ Hs)
    as [Hc|[(now1 & now2 & io & td & -> & Hc)
           |[(now & io & id & u & i & d & -> & Hi & Hc)
            |(io & id & i & -> & Hc)]]]; rewrite Hc in Ht'.
  - left. by exists t'.
  - apply elem_of_app in Ht' as [Ht'|Ht'].
    + left. by exists t'.
    + apply list_elem_of_singleton in Ht' as ->.
      right. by exists now1, now2, io, td.
  - apply list_elem_of_lookup in Ht' as [j Hj].
    destruct (decide (j = i)) as [->|Hne].
    + rewrite list_lookup_insert_eq in Hj
        by (by eapply lookup_lt_Some). injection Hj as <-.
      left. exists (VDict d). split_and!.
      * by eapply list_elem_of_lookup_2.
      * apply updated_term_id.
      * apply updated_term_created.
    + rewrite list_lookup_insert_ne in Hj by done.
      left. exists t'. split; [by eapply list_elem_of_lookup_2 | done].
  - left. exists t'. split; [by eapply list_elem_of_delete_inv | done].
Qed.

Lemma serve_stamps now0 rq w w' r :
  Forall (stamps_ok now0) (collection (db w)) →
  nondecreasing now0 (readings rq) →
  serve rq w = (w', r) →
  Forall (stamps_ok (clock_after now0 rq)) (collection (db w')).
Proof.
  intros Hinv Hclock Hs.
  assert (∀ now, str_leb now0 now = true → ∀ t,
            stamps_ok now0 t → stamps_ok now t) as Hmono.
  { intros now Hle t (c & u & Hc & Hu & Hcu & Hcn).
    exists c, u. split_and!; try done. by eapply str_leb_trans. }
  destruct (serve_collection _ _ _ _ Hs)
    as [Hc|[(now1 & now2 & io & td & -> & Hc)
           |[(now & io & id & u & i & d & -> & Hi & Hc)
            |(io & id & i & -> & Hc)]]]; rewrite Hc.
  - destruct rq as [now1 now2 io td|now io id u|io id]; simpl in *.
    + destruct Hclock as (H1 & H2 & _).
      eapply list.Forall_impl; [done|]. apply Hmono. by eapply str_leb_trans.
    + destruct Hclock as (H1 & _). eapply list.Forall_impl; [done|]. by apply Hmono.
    + done.
  - simpl in *. destruct Hclock as (H1 & H2 & _). apply Forall_app. split.
    + eapply list.Forall_impl; [done|]. apply Hmono. by eapply str_leb_trans.
    + constructor; [|constructor]. exists now1, now2. by split_and!.
  - simpl in *. destruct Hclock as (H1 & _).
    rewrite list.Forall_forall in Hinv.
    apply Forall_insert.
    + apply list.Forall_forall. intros t Ht. by apply Hmono, Hinv.
    + destruct (Hinv (VDict d)) as (c & u' & Hc' & Hu' & Hcu & Hcn);
        [by eapply list_elem_of_lookup_2|].
      exists c, now. rewrite updated_term_created, updated_term_updated.
      split_and!; try done; by eapply str_leb_trans.
  - simpl. rewrite list.Forall_forall in Hinv. apply list.Forall_forall.
    intros t Ht. by eapply Hinv, list_elem_of_delete_inv.
Qed.

Lemma nondecreasing_readings now0 rq rest :
  nondecreasing now0 (readings rq ++ rest) →
  nondecreasing now0 (readings rq)
  ∧ nondecreasing (clock_after now0 rq) rest.
Proof. destruct rq; simpl; tauto. Qed.

Lemma run_cons rq rqs w :
  run (rq :: rqs) w =
    ((run rqs (serve rq w).1).1, (serve rq w).2 :: (run rqs (serve rq w).1).2).
Proof.
  simpl. destruct (serve rq w) as [w1 r]. simpl.
  by destruct (run rqs w1).
Qed.

Lemma run_lookup rqs w w' rs k rq :
  run rqs w = (w', rs) → rqs !! k = Some rq →
  ∃ wk wk' r, serve rq wk = (wk', r) ∧ rs !! k = Some r.
Proof.
  revert w rs k. induction rqs as [|rq0 rqs IH]; intros w rs k Hrun Hk; [done|].
  rewrite run_cons in Hrun. injection Hrun as <- <-.
  destruct k as [|k]; simpl in Hk.
  - injection Hk as ->. exists w, (serve rq w).1, (serve rq w).2.
    split; [by destruct (serve rq w) | done].
  - destruct (run rqs (serve rq0 w).1) as [w2 rs2] eqn:Hr.
    destruct (IH _ _ _ Hr Hk) as (wk & wk' & r & Hs & Hrk).
    by exists wk, wk', r.
Qed.

Lemma run_created_at rqs w w' rs t' :
  run rqs w = (w', rs) → t' ∈ collection (db w') →
  (∃ t, t ∈ collection (db w) ∧ term_id_of t' = term_id_of t
        ∧ field t' k_created_at = field t k_created_at)
  ∨ (∃ now1 now2 io td, ReqCreate now1 now2 io td ∈ rqs
        ∧ field t' k_created_at = Some (VStr now1)).
Proof.
  revert w w' rs. induction rqs as [|rq rqs IH]; intros w w' rs Hrun Ht'.
  - injection Hrun as <- <-. left. by exists t'.
  - rewrite run_cons in Hrun. injection Hrun as <- <-.
    destruct (serve rq w) as [w1 r] eqn:Hs. simpl in Ht'.
    destruct (run rqs w1) as [w2 rs2] eqn:Hr. simpl in Ht'.
    destruct (IH _ _ _ Hr Ht') as [(t1 & Ht1 & Hid1 & Hc1)
                                |(now1 & now2 & io & td & Hin & Hc)].
    + destruct (serve_created_at _ _ _ _ _ Hs Ht1)
        as [(t & Ht & Hid & Hc)|(now1 & now2 & io & td & -> & Hc)].
      * left. exists t. split_and!; [done | congruence | congruence].
      * right. exists now1, now2, io, td. split; [left | congruence].
    + right. exists now1, now2, io, td. split; [by right | done].
Qed.

Lemma run_stamps rqs now0 w w' rs :
  Forall (stamps_ok now0) (collection (db w)) →
  nondecreasing now0 (all_readings rqs) →
  run rqs w = (w', rs) →
  ∃ now, Forall (stamps_ok now) (collection (db w')).
Proof.
  revert now0 w w' rs.
  induction rqs as [|rq rqs IH]; intros now0 w w' rs Hinv Hclock Hrun.
  - injection Hrun as <- <-. by exists now0.
  - rewrite run_cons in Hrun. injection Hrun as <- <-.
    unfold all_readings in Hclock. rewrite fmap_cons in Hclock. simpl in Hclock.
    apply nondecreasing_readings in Hclock as [Hc1 Hc2].
    destruct (serve rq w) as [w1 r] eqn:Hs. simpl.
    destruct (run rqs w1) as [w2 rs2] eqn:Hr. simpl.
    eapply (IH (clock_after now0 rq)); [|done|done].
    by eapply serve_stamps.
Qed.

Lemma serve_update_refresh now io id u w w' t :
  serve (ReqUpdate now io id u) w = (w', Updated (Ok t)) → t ≠ VNone →
  field t k_updated_at = Some (VStr now) ∧ t ∈ collection (db w').
Proof.
  simpl. intros Hs Ht.
  destruct (get_by_id_ref (db w) id) as [[[i t0]|]|e] eqn:Hf.
  - destruct (update_found now io id u w i t0 Hf) as (d & l & -> & Hl & Hi & Hu).
    simpl in Hu. rewrite Hu in Hs. injection Hs as <- Hr.
    destruct (_save_data _ _).2; [|done]. injection Hr as <-.
    split; [apply updated_term_updated|]. simpl.
    erewrite collection_set_glossary by done.
    eapply list_elem_of_lookup_2. apply list_lookup_insert_eq.
    by eapply lookup_lt_Some.
  - rewrite update_not_found in Hs by done. by injection Hs as <- <-.
  - by rewrite (update_raises _ _ _ _ _ e) in Hs by done.
Qed.

Lemma serve_create_stamps now1 now2 io td w w' t :
  serve (ReqCreate now1 now2 io td) w = (w', Created (Ok t)) →
  field t k_created_at = Some (VStr now1)
  ∧ field t k_updated_at = Some (VStr now2).
Proof.
  simpl. intros Hs.
  destruct (create_cases now1 now2 io td w) as [[l Hg]|[e He]].
  - rewrite (create_list _ _ _ _ _ _ Hg) in Hs. injection Hs as <- Hr.
    destruct (_save_data _ _).2; [|done]. by injection Hr as <-.
  - by rewrite He in Hs.
Qed.

(** C5, as amended. Along any run, the [created_at] of a record of the
    collection is the one it had at the start of the run or the first
    clock reading of the [create] that made it: no operation changes it.
    [create] stores the record with the two readings of the clock as
    [created_at] and [updated_at], and returns it; [update] of a record
    that is there stores it with [updated_at] set to the clock reading
    and [created_at] as it was, whatever the write of the file does, and
    returns it. When the clock does not run backwards and the records at
    the start have [created_at <= updated_at], not later than the clock,
    every record of the collection has [created_at <= updated_at] at
    the end. *)
Theorem timestamps rqs w w' rs now0 :
  run rqs w = (w', rs) →
  (∀ t', t' ∈ collection (db w') →
     (∃ t, t ∈ collection (db w) ∧ term_id_of t' = term_id_of t
           ∧ field t' k_created_at = field t k_created_at)
     ∨ (∃ now1 now2 io td, ReqCreate now1 now2 io td ∈ rqs
           ∧ field t' k_created_at = Some (VStr now1)))
  ∧ (∀ w1 now1 now2 io td l,
       getitem (data (db w1)) k_glossary = Ok (VList l) →
       ∃ t, collection (db (create now1 now2 io td w1).1) = l ++ [t]
         ∧ field t k_created_at = Some (VStr now1)
         ∧ field t k_updated_at = Some (VStr now2)
         ∧ (∀ x, (create now1 now2 io td w1).2 = Ok x → x = t))
  ∧ (∀ w1 now io id u l i t,
       getitem (data (db w1)) k_glossary = Ok (VList l) →
       first_with_id l id i t →
       ∃ t2, collection (db (update now io id u w1).1) = <[i := t2]> l
         ∧ field t2 k_updated_at = Some (VStr now)
         ∧ field t2 k_created_at = field t k_created_at
         ∧ (∀ x, (update now io id u w1).2 = Ok x → x = t2))
  ∧ (∀ k now1 now2 io td t,
       rqs !! k = Some (ReqCreate now1 now2 io td) →
       rs !! k = Some (Created (Ok t)) →
       field t k_created_at = Some (VStr now1)
       ∧ field t k_updated_at = Some (VStr now2))
  ∧ (∀ k now io id u t,
       rqs !! k = Some (ReqUpdate now io id u) →
       rs !! k = Some (Updated (Ok t)) → t ≠ VNone →
       field t k_updated_at = Some (VStr now))
  ∧ (Forall (stamps_ok now0) (collection (db w)) →
     nondecreasing now0 (all_readings rqs) →
     ∀ t', t' ∈ collection (db w') →
       ∃ c u, field t' k_created_at = Some (VStr c)
              ∧ field t' k_updated_at = Some (VStr u)
              ∧ str_leb c u = true).
Proof.
  intros Hrun. split_and!.
  - intros t' Ht'. by eapply run_created_at.
  - intros w1 now1 now2 io td l Hg.
    rewrite (create_list _ _ _ _ _ _ Hg). cbv zeta. cbn [fst snd db].
    exists (new_term (next_id (db w1)) now1 now2 td). split_and!.
    + by eapply collection_set_glossary.
    + reflexivity.
    + reflexivity.
    + intros x Hx. destruct (_save_data _ _).2; cbn in Hx; congruence.
  - intros w1 now io id u l i t Hg Hfirst.
    destruct (first_with_id_dict _ _ _ _ Hfirst) as [d ->].
    pose proof (get_by_id_ref_found _ _ _ _ _ Hg Hfirst) as Hf.
    destruct (update_found now io id u w1 i _ Hf)
      as (d' & l' & [= <-] & Hg' & _ & Hu).
    rewrite Hg in Hg'. inversion Hg'; subst l'. cbv zeta in Hu.
    rewrite Hu. cbn [fst snd db]. exists (updated_term d now u). split_and!.
    + by eapply collection_set_glossary.
    + apply updated_term_updated.
    + apply updated_term_created.
    + intros x Hx. destruct (_save_data _ _).2; cbn in Hx; congruence.
  - intros k now1 now2 io td t Hk Hr.
    destruct (run_lookup _ _ _ _ _ _ Hrun Hk) as (wk & wk' & r & Hs & Hrk).
    rewrite Hr in Hrk. injection Hrk as <-.
    by eapply serve_create_stamps.
  - intros k now io id u t Hk Hr Ht.
    destruct (run_lookup _ _ _ _ _ _ Hrun Hk) as (wk & wk' & r & Hs & Hrk).
    rewrite Hr in Hrk. injection Hrk as <-.
    by eapply serve_update_refresh.
  - intros Hinv Hclock t' Ht'.
    destruct (run_stamps _ _ _ _ _ Hinv Hclock Hrun) as [now Hall].
    rewrite list.Forall_forall in Hall.
    destruct (Hall t' Ht') as (c & u & Hc & Hu & Hcu & _). eauto.
Qed.

(** ** The JSON document: decoding what the encoder wrote *)

Lemma scanstring_cons c r :
  scanstring (c :: r) =
  if c =? 34 then Ok ([], r)
  else if c =? 92 then
    match r with
    | [] => Raise JSONDecodeError
    | esc :: r1 =>
      if esc =? 117 then
        match r1 with
        | h1 :: h2 :: h3 :: h4 :: r2 =>
          match hex4 h1 h2 h3 h4 with
          | None => Raise JSONDecodeError
          | Some uni =>
            match r2 with
            | b :: u :: r2' =>
              if is_high_surrogate uni && (b =? 92) && (u =? 117) then
                match r2' with
                | l1 :: l2 :: l3 :: l4 :: r3 =>
                  match hex4 l1 l2 l3 l4 with
                  | None => Raise JSONDecodeError
                  | Some uni2 =>
                    if is_low_surrogate uni2
                    then cons_char
                           (65536 + ((uni - 55296) * 1024 + (uni2 - 56320)))
                           (scanstring r3)
                    else cons_char uni (scanstring r2)
                  end
                | _ => Raise JSONDecodeError
                end
              else cons_char uni (scanstring r2)
            | _ => cons_char uni (scanstring r2)
            end
          end
        | _ => Raise JSONDecodeError
        end
      else
        match unescape esc with
        | Some ch => cons_char ch (scanstring r1)
        | None => Raise JSONDecodeError
        end
    end
  else if c <? 32 then Raise JSONDecodeError
  else cons_char c (scanstring r).
Proof. done. Qed.

Lemma hex4_small c :
  c < 32 → hex4 48 48 (hex_digit (c / 16)) (hex_digit (c mod 16)) = Some c.
Proof.
  intros Hc. rewrite <- (N2Nat.id c).
  assert (N.to_nat c < 32)%nat as Hn by lia.
  generalize dependent (N.to_nat c). clear. intros n Hn.
  do 32 (destruct n as [|n]; [done|]). lia.
Qed.

Lemma scanstring_escape c tail :
  scanstring (escape_char c ++ tail) = cons_char c (scanstring tail).
Proof.
  unfold escape_char.
  repeat match goal with
  | |- context [if ?x =? ?y then _ else _] =>
    destruct (N.eqb_spec x y) as [->|?]; [done|]
  end.
  destruct (N.ltb_spec c 32) as [Hc|Hc].
  - cbn [app]. rewrite scanstring_cons. cbn [N.eqb Pos.eqb].
    change (92 =? 34) with false. change (92 =? 92) with true.
    change (117 =? 117) with true. cbn match.
    rewrite hex4_small by done.
    assert (is_high_surrogate c = false) as Hs.
    { unfold is_high_surrogate. apply andb_false_iff. left.
      apply N.leb_gt. lia. }
    rewrite Hs. by destruct tail as [|b [|u r]].
  - cbn [app]. rewrite scanstring_cons.
    destruct (N.eqb_spec c 34); [done|]. destruct (N.eqb_spec c 92); [done|].
    by destruct (N.ltb_spec c 32); [lia|].
Qed.

Lemma scanstring_encoded s rest :
  scanstring (flat_map escape_char s ++ 34 :: rest) = Ok (s, rest).
Proof.
  induction s as [|c s IH]; [done|].
  cbn [flat_map]. rewrite <- app_assoc, scanstring_escape, IH. done.
Qed.

Lemma digits_uint_digits d : digits_uint (uint_digits d) = d.
Proof. induction d; simpl; by f_equal. Qed.

Lemma uint_digits_all d : Forall (λ c, is_digit c = true) (uint_digits d).
Proof. induction d; simpl; by constructor. Qed.

Lemma span_digits_app ds rest :
  Forall (λ c, is_digit c = true) ds → starts_digit rest = false →
  span_digits (ds ++ rest) = (ds, rest).
Proof.
  intros Hds Hrest. induction Hds as [|c ds Hc Hds IH]; cbn [app span_digits].
  - destruct rest as [|c r]; [done|]. unfold starts_digit in Hrest.
    cbn [span_digits]. by rewrite Hrest.
  - by rewrite Hc, IH.
Qed.

Lemma to_uint_head p :
  ∃ c ds, uint_digits (Pos.to_uint p) = c :: ds
          ∧ is_digit c = true ∧ (c =? 48) = false.
Proof.
  assert (Pos.to_uint p = Decimal.unorm (Pos.to_uint p)) as Hnorm.
  { rewrite <- (DecimalPos.Unsigned.to_of (Pos.to_uint p)).
    by rewrite DecimalPos.Unsigned.of_to. }
  pose proof (DecimalPos.Unsigned.to_uint_nonzero p) as Hnz.
  pose proof (DecimalPos.Unsigned.to_uint_nonnil p) as Hnn.
  destruct (Pos.to_uint p) as [|d|d|d|d|d|d|d|d|d|d] eqn:E;
    try done; try (by eexists _, _).
  exfalso. rewrite unorm_D0 in Hnorm.
  assert (d ≠ Decimal.Nil) as Hd by (by intros ->).
  pose proof (nb_digits_unorm d Hd) as Hlen.
  rewrite <- Hnorm in Hlen. simpl in Hlen. lia.
Qed.

Lemma match_number_repr n rest :
  after_value rest →
  match_number (repr_int n ++ rest) = Some (Ok (VInt n, rest)).
Proof.
  intros [Hd Hf]. destruct n as [|p|p]; simpl.
  - unfold match_number. simpl. by rewrite Hf.
  - destruct (to_uint_head p) as (c & ds & E & Hc & Hz).
    pose proof (uint_digits_all (Pos.to_uint p)) as Hall.
    unfold match_number. rewrite E in *. simpl.
    assert ((c =? 45) = false) as ->.
    { apply N.eqb_neq. intros ->. done. }
    simpl. rewrite Hz, Hc.
    apply list.Forall_cons in Hall as [_ Hall].
    rewrite span_digits_app by done. rewrite Hf.
    do 4 f_equal. rewrite <- E, digits_uint_digits.
    change (Pos.to_uint p) with (N.to_uint (N.pos p)).
    by rewrite DecimalN.Unsigned.of_to.
  - destruct (to_uint_head p) as (c & ds & E & Hc & Hz).
    pose proof (uint_digits_all (Pos.to_uint p)) as Hall.
    unfold match_number. rewrite E in *. simpl. rewrite Hz, Hc.
    apply list.Forall_cons in Hall as [_ Hall].
    rewrite span_digits_app by done. rewrite Hf.
    do 4 f_equal. rewrite <- E, digits_uint_digits.
    change (Pos.to_uint p) with (N.to_uint (N.pos p)).
    by rewrite DecimalN.Unsigned.of_to.
Qed.

Lemma skip_ws_nonws c r : is_ws c = false → skip_ws (c :: r) = c :: r.
Proof. intros H. simpl. by rewrite H. Qed.

Lemma skip_ws_spaces n s : skip_ws (repeat 32 n ++ s) = skip_ws s.
Proof. induction n as [|n IH]; [done|]. simpl. apply IH. Qed.

Lemma skip_ws_indent level s : skip_ws (newline_indent level ++ s) = skip_ws s.
Proof. unfold newline_indent. cbn [app skip_ws is_ws]. simpl. apply skip_ws_spaces. Qed.

Lemma repr_int_head n :
  ∃ c r, repr_int n = c :: r ∧ (c = 45 ∨ is_digit c = true).
Proof.
  destruct n as [|p|p]; simpl.
  - eexists _, _. split; [done | by right].
  - destruct (to_uint_head p) as (c & ds & -> & Hc & _). eauto.
  - eauto.
Qed.

Lemma json_encode_head level v :
  ∃ c r, json_encode level v = c :: r ∧ value_start c.
Proof.
  unfold value_start. destruct v as [|n|s|[|x l]|[|kv d]]; simpl; eauto 10.
  destruct (repr_int_head n) as (c & r & -> & [H|H]); eauto 10.
Qed.

Lemma value_start_nonws c : value_start c → is_ws c = false.
Proof.
  unfold value_start, is_digit, is_ws.
  intros [-> | [-> | [H | [-> | [-> | ->]]]]]; try done.
  apply andb_true_iff in H as [H1 H2]. apply N.leb_le in H1, H2.
  repeat (apply orb_false_iff; split); apply N.eqb_neq; lia.
Qed.

Lemma after_value_comma r : after_value (44 :: r).
Proof. done. Qed.

Lemma after_value_newline r : after_value (10 :: r).
Proof. done. Qed.

Lemma after_value_nil : after_value [].
Proof. done. Qed.

Lemma JSONArray_loop_S fuel s :
  JSONArray_loop (S fuel) s =
  '(v, r) ← scan_once fuel s;
  match skip_ws r with
  | [] => Raise JSONDecodeError
  | c :: r1 =>
    if c =? 93 then Ok ([v], r1)
    else if c =? 44 then
      '(values, r2) ← JSONArray_loop fuel (skip_ws r1);
      Ok (v :: values, r2)
    else Raise JSONDecodeError
  end.
Proof. done. Qed.

Lemma JSONObject_loop_S fuel s :
  JSONObject_loop (S fuel) s =
  '(key, r) ← scanstring s;
  match skip_ws r with
  | [] => Raise JSONDecodeError
  | c :: r1 =>
    if c =? 58 then
      '(v, r2) ← scan_once fuel (skip_ws r1);
      match skip_ws r2 with
      | [] => Raise JSONDecodeError
      | c' :: r3 =>
        if c' =? 125 then Ok ([(key, v)], r3)
        else if c' =? 44 then
          match skip_ws r3 with
          | [] => Raise JSONDecodeError
          | q :: r4 =>
            if q =? 34 then
              '(pairs, r5) ← JSONObject_loop fuel r4;
              Ok ((key, v) :: pairs, r5)
            else Raise JSONDecodeError
          end
        else Raise JSONDecodeError
      end
    else Raise JSONDecodeError
  end.
Proof. done. Qed.

Lemma scan_once_string fuel r :
  scan_once (S fuel) (34 :: r) = '(x, r') ← scanstring r; Ok (VStr x, r').
Proof. done. Qed.

Lemma scan_once_array fuel r :
  scan_once (S fuel) (91 :: r) =
  match skip_ws r with
  | [] => Raise JSONDecodeError
  | c' :: r' =>
    if c' =? 93 then Ok (VList [], r')
    else '(values, r'') ← JSONArray_loop fuel (c' :: r'); Ok (VList values, r'')
  end.
Proof. done. Qed.

Lemma scan_once_object fuel r :
  scan_once (S fuel) (123 :: r) =
  match skip_ws r with
  | [] => Raise JSONDecodeError
  | c' :: r' =>
    if c' =? 125 then Ok (VDict [], r')
    else if c' =? 34 then
      '(pairs, r'') ← JSONObject_loop fuel r'; Ok (VDict (py_dict pairs), r'')
    else Raise JSONDecodeError
  end.
Proof. done. Qed.

Lemma scan_once_number fuel c r :
  c = 45 ∨ is_digit c = true →
  scan_once (S fuel) (c :: r) =
  match match_number (c :: r) with
  | Some res => res
  | None =>
    if str_startswith (c :: r) [78; 97; 78]
       || str_startswith (c :: r) [73; 110; 102; 105; 110; 105; 116; 121]
       || str_startswith (c :: r) [45; 73; 110; 102; 105; 110; 105; 116; 121]
    then Raise OutsideModel
    else Raise JSONDecodeError
  end.
Proof.
  intros Hc.
  assert (c ≠ 34 ∧ c ≠ 123 ∧ c ≠ 91 ∧ c ≠ 110 ∧ c ≠ 116 ∧ c ≠ 102)
    as (H1 & H2 & H3 & H4 & H5 & H6).
  { destruct Hc as [->|Hc]; [done|]. unfold is_digit in Hc.
    apply andb_true_iff in Hc as [Ha Hb]. apply N.leb_le in Ha, Hb.
    split_and!; lia. }
  cbn [scan_once].
  apply N.eqb_neq in H1, H2, H3, H4, H5, H6.
  by rewrite H1, H2, H3, H4, H5, H6.
Qed.

Lemma join_cons2 sep c c' rest :
  join sep (c :: c' :: rest) = c ++ sep ++ join sep (c' :: rest).
Proof. done. Qed.

Lemma skip_ws_encoded level v s :
  skip_ws (json_encode level v ++ s) = json_encode level v ++ s.
Proof.
  destruct (json_encode_head level v) as (c & r & -> & Hc).
  apply skip_ws_nonws. by apply value_start_nonws.
Qed.

Lemma join_head sep c l :
  join sep (c :: l) = c ++ match l with [] => [] | _ => sep ++ join sep l end.
Proof. destruct l; simpl; [by rewrite app_nil_r | done]. Qed.

Lemma array_step fuel x level tail :
  decodes x → (vsize x ≤ fuel)%nat → after_value tail →
  JSONArray_loop (S fuel) (json_encode level x ++ tail) =
  match skip_ws tail with
  | [] => Raise JSONDecodeError
  | c :: r1 =>
    if c =? 93 then Ok ([x], r1)
    else if c =? 44 then
      '(values, r2) ← JSONArray_loop fuel (skip_ws r1);
      Ok (x :: values, r2)
    else Raise JSONDecodeError
  end.
Proof.
  intros Hx Hfuel Htail. rewrite JSONArray_loop_S.
  by rewrite (Hx level fuel tail).
Qed.

Lemma object_step fuel k v level tail :
  decodes v → (vsize v ≤ fuel)%nat → after_value tail →
  JSONObject_loop (S fuel)
    (flat_map escape_char k ++ 34 :: 58 :: 32 :: json_encode level v ++ tail) =
  match skip_ws tail with
  | [] => Raise JSONDecodeError
  | c' :: r3 =>
    if c' =? 125 then Ok ([(k, v)], r3)
    else if c' =? 44 then
      match skip_ws r3 with
      | [] => Raise JSONDecodeError
      | q :: r4 =>
        if q =? 34 then
          '(pairs, r5) ← JSONObject_loop fuel r4;
          Ok ((k, v) :: pairs, r5)
        else Raise JSONDecodeError
      end
    else Raise JSONDecodeError
  end.
Proof.
  intros Hx Hfuel Htail. rewrite JSONObject_loop_S, scanstring_encoded.
  cbn [mbind result_bind].
  change (skip_ws (58 :: 32 :: json_encode level v ++ tail))
    with (58 :: 32 :: json_encode level v ++ tail).
  cbv beta iota. change (58 =? 58) with true. cbv beta iota.
  change (skip_ws (32 :: json_encode level v ++ tail))
    with (skip_ws (json_encode level v ++ tail)).
  rewrite skip_ws_encoded. by rewrite (Hx level fuel tail).
Qed.

Lemma skip_ws_close_array level rest :
  skip_ws (newline_indent level ++ 93 :: rest) = 93 :: rest.
Proof. by rewrite skip_ws_indent. Qed.

Lemma skip_ws_close_object level rest :
  skip_ws (newline_indent level ++ 125 :: rest) = 125 :: rest.
Proof. by rewrite skip_ws_indent. Qed.

Lemma after_value_indent level s : after_value (newline_indent level ++ s).
Proof. done. Qed.

Lemma array_loop_encoded x items level rest fuel :
  Forall decodes (x :: items) →
  (foldr (λ x n, S (vsize x + n)) 0 (x :: items) ≤ fuel)%nat →
  JSONArray_loop fuel
    (join (44 :: newline_indent (S level))
       (json_encode (S level) <$> x :: items)
     ++ newline_indent level ++ 93 :: rest)
  = Ok (x :: items, rest).
Proof.
  revert x fuel. induction items as [|y items IH]; intros x fuel Hall Hfuel.
  - apply list.Forall_cons in Hall as [Hx _].
    destruct fuel as [|fuel]; [simpl in Hfuel; lia|]. simpl in Hfuel.
    cbn [fmap list_fmap join].
    rewrite array_step by (done || lia || apply after_value_indent).
    by rewrite skip_ws_close_array.
  - apply list.Forall_cons in Hall as [Hx Hall].
    destruct fuel as [|fuel]; [simpl in Hfuel; lia|]. simpl in Hfuel.
    rewrite !fmap_cons, join_cons2, <- !app_assoc.
    rewrite array_step by (done || lia || apply after_value_comma).
    cbn [app]. change (skip_ws (44 :: ?s)) with (44 :: s).
    cbv beta iota. change (44 =? 93) with false. change (44 =? 44) with true.
    cbv beta iota. rewrite skip_ws_indent.
    rewrite <- fmap_cons.
    assert (∀ s, skip_ws (join (44 :: newline_indent (S level))
                            (json_encode (S level) <$> y :: items) ++ s)
                 = join (44 :: newline_indent (S level))
                     (json_encode (S level) <$> y :: items) ++ s) as Hskip.
    { intros s. rewrite fmap_cons, join_head, <- app_assoc.
      apply skip_ws_encoded. }
    rewrite Hskip.
    rewrite IH by (done || simpl; lia). done.
Qed.

Lemma object_loop_encoded kv d level rest fuel :
  Forall (λ kv, decodes kv.2) (kv :: d) →
  (foldr (λ kv n, S (vsize kv.2 + n)) 0 (kv :: d) ≤ fuel)%nat →
  ∃ text,
    join (44 :: newline_indent (S level))
      (encode_member (S level) <$> kv :: d)
    ++ newline_indent level ++ 125 :: rest = 34 :: text
    ∧ JSONObject_loop fuel text = Ok (kv :: d, rest).
Proof.
  revert kv fuel. induction d as [|kv' d IH]; intros [k v] fuel Hall Hfuel.
  - apply list.Forall_cons in Hall as [Hx _]. simpl in Hx.
    destruct fuel as [|fuel]; [simpl in Hfuel; lia|]. simpl in Hfuel.
    eexists. split.
    { cbn [fmap list_fmap join]. unfold encode_member, encode_basestring.
      cbn [fst snd].
      repeat first [rewrite <- app_assoc | progress (cbn [app])]. reflexivity. }
    repeat first [rewrite <- app_assoc | progress (cbn [app])].
    rewrite object_step by (done || lia || apply after_value_indent).
    by rewrite skip_ws_close_object.
  - apply list.Forall_cons in Hall as [Hx Hall]. simpl in Hx.
    destruct fuel as [|fuel]; [simpl in Hfuel; lia|]. simpl in Hfuel.
    destruct (IH kv' fuel Hall) as (text' & Htext & Hloop); [simpl; lia|].
    eexists. split.
    { rewrite !fmap_cons, join_cons2. unfold encode_member at 1.
      unfold encode_basestring. cbn [fst snd].
      rewrite <- !app_assoc. cbn [app]. reflexivity. }
    repeat first [rewrite <- app_assoc | progress (cbn [app])].
    rewrite object_step by (done || lia || apply after_value_comma).
    change (skip_ws (44 :: ?s)) with (44 :: s).
    cbv beta iota. change (44 =? 125) with false. change (44 =? 44) with true.
    cbv beta iota. rewrite skip_ws_indent. rewrite <- fmap_cons.
    rewrite Htext.
    change (skip_ws (34 :: text')) with (34 :: text').
    cbv beta iota. change (34 =? 34) with true. cbv beta iota.
    by rewrite Hloop.
Qed.

Lemma py_dict_fold acc pairs :
  NoDup (acc.*1 ++ pairs.*1) →
  fold_left (λ d kv, dict_set d kv.1 kv.2) pairs acc = acc ++ pairs.
Proof.
  revert acc. induction pairs as [|[k v] pairs IH]; intros acc Hnd; simpl.
  - by rewrite app_nil_r.
  - rewrite dict_set_keys_notin.
    + rewrite IH; [by rewrite <- app_assoc|].
      rewrite fmap_app, <- app_assoc. done.
    + apply list.NoDup_app in Hnd as (_ & Hnd & _). intros Hk.
      apply (Hnd k Hk). left.
Qed.

Lemma py_dict_NoDup d : NoDup d.*1 → py_dict d = d.
Proof. intros H. unfold py_dict. by rewrite py_dict_fold. Qed.

Lemma wf_list l : wf_value (VList l) ↔ Forall wf_value l.
Proof.
  simpl. induction l as [|x l IH]; simpl.
  - split; [constructor | done].
  - rewrite list.Forall_cons, IH. done.
Qed.

Lemma wf_dict d :
  wf_value (VDict d) ↔ NoDup d.*1 ∧ Forall (λ kv, wf_value kv.2) d.
Proof.
  simpl. apply and_iff_compat_l. induction d as [|x d IH]; simpl.
  - split; [constructor | done].
  - rewrite list.Forall_cons, IH. done.
Qed.

Lemma join_encoded_head sep level x l s :
  ∃ c r, join sep (json_encode level <$> x :: l) ++ s = c :: r
         ∧ value_start c.
Proof.
  rewrite fmap_cons, join_head, <- app_assoc.
  destruct (json_encode_head level x) as (c & r & -> & Hc).
  eexists _, _. split; [done | done].
Qed.

Lemma value_start_not_close c : value_start c → (c =? 93) = false.
Proof.
  intros Hc. apply N.eqb_neq. intros ->.
  destruct Hc as [?|[?|[?|[?|[?|?]]]]]; done.
Qed.

Lemma json_encode_list level x l rest :
  json_encode level (VList (x :: l)) ++ rest =
  91 :: newline_indent (S level)
        ++ join (44 :: newline_indent (S level))
             (json_encode (S level) <$> x :: l)
        ++ newline_indent level ++ 93 :: rest.
Proof. cbn [json_encode]. by rewrite <- !app_assoc. Qed.

Lemma json_encode_dict level kv d rest :
  json_encode level (VDict (kv :: d)) ++ rest =
  123 :: newline_indent (S level)
         ++ join (44 :: newline_indent (S level))
              (encode_member (S level) <$> kv :: d)
         ++ newline_indent level ++ 125 :: rest.
Proof. cbn [json_encode]. by rewrite <- !app_assoc. Qed.

Lemma scan_once_encoded v : wf_value v → decodes v.
Proof.
  induction v as [|n|s|l IH|d IH] using value_ind;
    intros Hwf level fuel rest Hfuel Hrest.
  - destruct fuel as [|fuel]; [simpl in Hfuel; lia|]. done.
  - destruct fuel as [|fuel]; [simpl in Hfuel; lia|].
    cbn [json_encode].
    destruct (repr_int_head n) as (c & r & E & Hc).
    pose proof (match_number_repr n rest Hrest) as Hm.
    rewrite E in *. cbn [app] in *.
    rewrite scan_once_number by done. by rewrite Hm.
  - destruct fuel as [|fuel]; [simpl in Hfuel; lia|].
    cbn [json_encode]. unfold encode_basestring. cbn [app].
    rewrite scan_once_string, <- app_assoc. cbn [app].
    by rewrite scanstring_encoded.
  - destruct fuel as [|fuel]; [simpl in Hfuel; lia|].
    apply wf_list in Hwf.
    assert (Forall decodes l) as Hall.
    { clear -IH Hwf. induction Hwf; inversion_clear IH; constructor; auto. }
    destruct l as [|x l]; [done|].
    rewrite json_encode_list.
    rewrite scan_once_array, skip_ws_indent.
    destruct (join_encoded_head (44 :: newline_indent (S level)) (S level)
                x l (newline_indent level ++ 93 :: rest))
      as (c & r & E & Hc).
    rewrite E. rewrite (skip_ws_nonws c r) by (by apply value_start_nonws).
    rewrite (value_start_not_close c Hc). rewrite <- E.
    rewrite array_loop_encoded; [done | done |]. simpl in Hfuel. simpl. lia.
  - destruct fuel as [|fuel]; [simpl in Hfuel; lia|].
    apply wf_dict in Hwf as [Hnd Hwf].
    assert (Forall (λ kv, decodes kv.2) d) as Hall.
    { clear -IH Hwf. induction Hwf; inversion_clear IH; constructor; auto. }
    destruct d as [|kv d]; [done|].
    rewrite json_encode_dict.
    rewrite scan_once_object, skip_ws_indent.
    destruct (object_loop_encoded kv d level rest fuel Hall)
      as (text & Htext & Hloop); [simpl in Hfuel; simpl; lia|].
    rewrite Htext.
    change (skip_ws (34 :: text)) with (34 :: text).
    cbv beta iota. change (34 =? 125) with false. change (34 =? 34) with true.
    cbv beta iota. rewrite Hloop. cbn [mbind result_bind].
    by rewrite py_dict_NoDup.
Qed.

Lemma skip_ws_json_dumps v : skip_ws (json_dumps v) = json_dumps v.
Proof.
  unfold json_dumps. rewrite <- (app_nil_r (json_encode 0 v)).
  apply skip_ws_encoded.
Qed.

Lemma join_bound {A} (f : A → nat) (enc : A → str) sep l :
  (1 ≤ length sep)%nat →
  Forall (λ x, f x ≤ 2 * length (enc x))%nat l →
  (foldr (λ x n, S (f x + n)) 0 l ≤ 2 * length (join sep (enc <$> l)) + 2)%nat.
Proof.
  intros Hsep Hall. induction Hall as [|x l Hx Hall IH]; [simpl; lia|].
  destruct l as [|y l]; [simpl; lia|].
  rewrite !fmap_cons, join_cons2. rewrite fmap_cons in IH.
  cbn [foldr] in *. rewrite !length_app. lia.
Qed.

Lemma vsize_bound v level : (vsize v ≤ 2 * length (json_encode level v))%nat.
Proof.
  revert level. induction v as [|n|s|l IH|d IH] using value_ind; intros level.
  - simpl. lia.
  - destruct (repr_int_head n) as (c & r & E & _). simpl. rewrite E. simpl. lia.
  - simpl. lia.
  - destruct l as [|x l]; [simpl; lia|].
    rewrite <- (app_nil_r (json_encode _ _)), json_encode_list.
    cbn [vsize length]. rewrite !length_app.
    pose proof (join_bound vsize (json_encode (S level))
                  (44 :: newline_indent (S level)) (x :: l)) as Hb.
    cbn [length] in *. etrans; [apply le_n_S, Hb|]; [lia | | lia].
    eapply list.Forall_impl; [exact IH|]. intros y Hy. apply Hy.
  - destruct d as [|kv d]; [simpl; lia|].
    rewrite <- (app_nil_r (json_encode _ _)), json_encode_dict.
    cbn [vsize length]. rewrite !length_app.
    pose proof (join_bound (λ kv, vsize kv.2) (encode_member (S level))
                  (44 :: newline_indent (S level)) (kv :: d)) as Hb.
    cbn [length] in *. etrans; [apply le_n_S, Hb|]; [lia | | lia].
    eapply list.Forall_impl; [exact IH|]. intros y Hy. simpl in Hy.
    unfold encode_member. rewrite !length_app. specialize (Hy (S level)). lia.
Qed.

(** Reading back what [json.dump] wrote. *)
Lemma json_loads_dumps v : wf_value v → json_loads (json_dumps v) = Ok v.
Proof.
  intros Hwf. unfold json_loads. rewrite skip_ws_json_dumps.
  unfold json_dumps.
  pose proof (scan_once_encoded v Hwf 0%nat
                (2 * length (json_encode 0 v) + 1)%nat []) as H.
  rewrite app_nil_r in H. rewrite H; [done | | apply after_value_nil].
  pose proof (vsize_bound v 0%nat). lia.
Qed.

(** ** Well-formed documents

    A Python dict has each key once; the embedding as an association
    list keeps that as an invariant, which every document that the
    store reads or builds satisfies. *)

Lemma py_dict_wf pairs :
  Forall (λ kv, wf_value kv.2) pairs → wf_value (VDict (py_dict pairs)).
Proof.
  intros Hall. unfold py_dict.
  assert (wf_value (VDict [])) as Hacc by (apply wf_dict; split; constructor).
  revert Hacc. generalize (@nil (str * value)).
  induction Hall as [|[k v] pairs Hv Hall IH]; intros acc Hacc; [done|].
  simpl. apply IH. apply wf_dict in Hacc as [Hnd Hacc]. apply wf_dict.
  split; [by apply dict_set_NoDup|].
  clear -Hacc Hv. induction acc as [|[k0 w] acc IH]; simpl.
  - by constructor.
  - apply list.Forall_cons in Hacc as [Hw Hacc].
    destruct (str_eqb k0 k); constructor; auto.
Qed.

Lemma scan_wf fuel :
  (∀ s v r, scan_once fuel s = Ok (v, r) → wf_value v)
  ∧ (∀ s pairs r, JSONObject_loop fuel s = Ok (pairs, r) →
       Forall (λ kv, wf_value kv.2) pairs)
  ∧ (∀ s values r, JSONArray_loop fuel s = Ok (values, r) →
       Forall wf_value values).
Proof.
  induction fuel as [|fuel (IHs & IHo & IHa)]; [by split_and!|].
  split_and!.
  - intros s v r H. cbn [scan_once] in H. destruct s as [|c s]; [done|].
    destruct (c =? 34).
    { apply bind_Ok in H as ([x r'] & _ & [= <- _]). done. }
    destruct (c =? 123).
    { destruct (skip_ws s) as [|c' r']; [done|].
      destruct (c' =? 125);
        [injection H as <- _; apply wf_dict; split; constructor|].
      destruct (c' =? 34); [|done].
      apply bind_Ok in H as ([pairs r''] & Hp & [= <- _]).
      apply py_dict_wf. by eapply IHo. }
    destruct (c =? 91).
    { destruct (skip_ws s) as [|c' r']; [done|].
      destruct (c' =? 93); [by injection H as <- _|].
      apply bind_Ok in H as ([values r''] & Hp & [= <- _]).
      apply wf_list. by eapply IHa. }
    destruct ((c =? 110) && _); [by injection H as <- _|].
    destruct ((c =? 116) && _); [done|].
    destruct ((c =? 102) && _); [done|].
    destruct (match_number (c :: s)) as [res|] eqn:Hm.
    + subst res. unfold match_number in Hm.
      destruct (match c :: s with
                | [] => (false, c :: s)
                | c0 :: r0 => if c0 =? 45 then (true, r0) else (false, c :: s)
                end) as [neg s1].
      destruct (int_part s1) as [[ds rest]|]; [|done].
      destruct (float_follows rest); [done|]. by injection Hm as <- _.
    + by destruct (_ || _).
  - intros s pairs r H. rewrite JSONObject_loop_S in H.
    apply bind_Ok in H as ([key r0] & _ & H). cbn beta iota in H.
    destruct (skip_ws r0) as [|c r1]; [done|]. destruct (c =? 58); [|done].
    apply bind_Ok in H as ([v r2] & Hv & H). cbn beta iota in H.
    apply IHs in Hv.
    destruct (skip_ws r2) as [|c' r3]; [done|].
    destruct (c' =? 125); [injection H as <- _; by repeat constructor|].
    destruct (c' =? 44); [|done].
    destruct (skip_ws r3) as [|q r4]; [done|]. destruct (q =? 34); [|done].
    apply bind_Ok in H as ([ps r5] & Hp & [= <- _]).
    constructor; [done | by eapply IHo].
  - intros s values r H. rewrite JSONArray_loop_S in H.
    apply bind_Ok in H as ([v r0] & Hv & H). cbn beta iota in H.
    apply IHs in Hv.
    destruct (skip_ws r0) as [|c r1]; [done|].
    destruct (c =? 93); [injection H as <- _; by repeat constructor|].
    destruct (c =? 44); [|done].
    apply bind_Ok in H as ([vs r2] & Hp & [= <- _]).
    constructor; [done | by eapply IHa].
Qed.

Lemma json_loads_wf s v : json_loads s = Ok v → wf_value v.
Proof.
  unfold json_loads. intros H. apply bind_Ok in H as ([v' r] & Hv & H).
  cbn beta iota in H. destruct (skip_ws r); [|done]. injection H as <-.
  by eapply (proj1 (scan_wf _)).
Qed.

Lemma load_data_wf disk0 d : _load_data disk0 = Ok d → wf_value d.
Proof.
  destruct disk0 as [text|]; simpl.
  - apply json_loads_wf.
  - intros [= <-]. simpl. split_and!; try done. apply NoDup_singleton.
Qed.

Lemma dict_set_wf d k v :
  wf_value (VDict d) → wf_value v → wf_value (VDict (dict_set d k v)).
Proof.
  intros [Hnd Hd]%wf_dict Hv. apply wf_dict.
  split; [by apply dict_set_NoDup|].
  clear -Hd Hv. induction d as [|[k0 w] d IH]; simpl.
  - by constructor.
  - apply list.Forall_cons in Hd as [Hw Hd].
    destruct (str_eqb k0 k); constructor; auto.
Qed.

Lemma dict_get_wf d k v :
  wf_value (VDict d) → dict_get d k = Some v → wf_value v.
Proof.
  intros [_ Hd]%wf_dict. induction Hd as [|[k0 w] d Hw Hd IH]; [done|].
  simpl. destruct (str_eqb k0 k); [by intros [= <-] | done].
Qed.

Lemma collection_wf d l :
  wf_value d → getitem d k_glossary = Ok (VList l) → Forall wf_value l.
Proof.
  intros Hwf (kv & -> & Hg)%getitem_Ok. apply wf_list. by eapply dict_get_wf.
Qed.

Lemma set_glossary_wf d l :
  wf_value d → Forall wf_value l → wf_value (set_glossary d l).
Proof.
  intros Hd Hl. destruct d; try done. simpl set_glossary.
  apply dict_set_wf; [done | by apply wf_list].
Qed.

Lemma str_list_wf l : wf_value (str_list l).
Proof. apply wf_list. induction l; by constructor. Qed.

Lemma new_term_wf n now1 now2 td : wf_value (new_term n now1 now2 td).
Proof.
  apply wf_dict. split; [compute_done|].
  repeat constructor; apply str_list_wf.
Qed.

Lemma dump_field_wf {A} key (conv : A → value) f :
  (∀ x, wf_value (conv x)) →
  Forall (λ kv, wf_value kv.2) (dump_field key conv f).
Proof. intros H. destruct f as [[x|]|]; repeat constructor. apply H. Qed.

Lemma model_dump_wf u :
  Forall (λ kv, wf_value kv.2) (model_dump_exclude_unset u).
Proof.
  unfold model_dump_exclude_unset.
  repeat (apply Forall_app; split);
    apply dump_field_wf; (done || apply str_list_wf).
Qed.

Lemma apply_items_wf d items :
  wf_value (VDict d) → Forall (λ kv, wf_value kv.2) items →
  wf_value (VDict (apply_items d items)).
Proof.
  intros Hd Hitems. revert d Hd.
  induction Hitems as [|[k x] items Hx Hitems IH]; intros d Hd; [done|].
  rewrite apply_items_cons. apply IH.
  destruct (is_None x); [done | by apply dict_set_wf].
Qed.

Lemma updated_term_wf d now u :
  wf_value (VDict d) → wf_value (updated_term d now u).
Proof.
  intros Hd. unfold updated_term.
  apply dict_set_wf; [|done]. apply apply_items_wf; [done | apply model_dump_wf].
Qed.

Lemma serve_wf rq w w' r :
  wf_value (data (db w)) → serve rq w = (w', r) → wf_value (data (db w')).
Proof.
  intros Hwf Hs. destruct rq as [now1 now2 io td|now io id u|io id]; simpl in Hs.
  - destruct (create_cases now1 now2 io td w) as [[l Hg]|[e He]].
    + rewrite (create_list _ _ _ _ _ _ Hg) in Hs. injection Hs as <- <-. simpl.
      apply set_glossary_wf; [done|]. apply Forall_app. split.
      * by eapply collection_wf.
      * constructor; [apply new_term_wf | constructor].
    + rewrite He in Hs. by injection Hs as <- <-.
  - destruct (get_by_id_ref (db w) id) as [[[i t]|]|e] eqn:Hf.
    + destruct (update_found now io id u w i t Hf) as (d & l & -> & Hl & Hi & Hu).
      simpl in Hu. rewrite Hu in Hs. injection Hs as <- <-. simpl.
      pose proof (collection_wf _ _ Hwf Hl) as Hall.
      apply set_glossary_wf; [done|]. apply Forall_insert; [done|].
      apply updated_term_wf. rewrite list.Forall_forall in Hall.
      apply Hall. by eapply list_elem_of_lookup_2.
    + rewrite update_not_found in Hs by done. by injection Hs as <- <-.
    + rewrite (update_raises _ _ _ _ _ e) in Hs by done. by injection Hs as <- <-.
  - destruct (get_by_id_ref (db w) id) as [[[i t]|]|e] eqn:Hf.
    + destruct (delete_found io id w i t Hf) as (l & Hl & Hi & Hd).
      simpl in Hd. rewrite Hd in Hs. injection Hs as <- <-. simpl.
      pose proof (collection_wf _ _ Hwf Hl) as Hall.
      apply set_glossary_wf; [done|].
      rewrite list.Forall_forall in Hall. apply list.Forall_forall.
      intros x Hx. by eapply Hall, list_elem_of_delete_inv.
    + rewrite delete_not_found in Hs by done. by injection Hs as <- <-.
    + rewrite (delete_raises _ _ _ e) in Hs by done. by injection Hs as <- <-.
Qed.

Lemma run_wf rqs w w' rs :
  wf_value (data (db w)) → run rqs w = (w', rs) → wf_value (data (db w')).
Proof.
  revert w w' rs. induction rqs as [|rq rqs IH]; intros w w' rs Hwf Hrun.
  - by injection Hrun as <- <-.
  - rewrite run_cons in Hrun. injection Hrun as <- <-.
    destruct (serve rq w) as [w1 r] eqn:Hs. simpl.
    destruct (run rqs w1) as [w2 rs2] eqn:Hr. simpl.
    eapply IH; [|done]. by eapply serve_wf.
Qed.

(** Every document a process holds is well formed. *)
Lemma reachable_wf disk0 self rqs w' rs :
  __init__ disk0 = Ok self →
  run rqs {| db := self; disk := disk0 |} = (w', rs) →
  wf_value (data (db w')).
Proof.
  intros Hinit Hrun. eapply run_wf; [|done]. simpl.
  unfold __init__ in Hinit. apply bind_Ok in Hinit as (d & Hd & H).
  apply bind_Ok in H as (n & _ & [= <-]). by eapply load_data_wf.
Qed.

(** C9. For every document in memory (a dict has each key once), when
    [_save_data] succeeds, loading the file it wrote gives the same
    document back: every record with every field value and both
    timestamps as they were, whatever code points the text holds; a
    store initialized from that file holds this document, with the next
    id computed from it. *)
Theorem persistence_roundtrip io self disk' :
  wf_value (data self) →
  _save_data io self = (disk', Ok ()) →
  _load_data disk' = Ok (data self)
  ∧ (∀ n, _get_next_id (data self) = Ok n →
       __init__ disk' = Ok {| data := data self; next_id := n |})
  ∧ (∀ self', __init__ disk' = Ok self' →
       collection self' = collection self).
Proof.
  intros Hwf Hsave.
  assert (_load_data disk' = Ok (data self)) as Hload.
  { destruct (save_data_cases io self) as [[_ H]|[_ (e & H & _)]];
      rewrite H in Hsave; [|done].
    injection Hsave as <-. simpl. by apply json_loads_dumps. }
  split_and!; [done | |].
  - intros n Hn. unfold __init__. rewrite Hload. simpl. by rewrite Hn.
  - intros self' H. unfold __init__ in H. rewrite Hload in H. simpl in H.
    apply bind_Ok in H as (n & _ & [= <-]). done.
Qed.

(** ** The recursion budget of the decoder is never exhausted *)

Lemma skip_ws_length s : (length (skip_ws s) ≤ length s)%nat.
Proof.
  induction s as [|c s IH]; simpl; [lia|]. destruct (is_ws c); simpl; lia.
Qed.

Lemma skip_ws_cons_length s c r :
  skip_ws s = c :: r → (length r < length s)%nat.
Proof. intros H. pose proof (skip_ws_length s). rewrite H in *. simpl in *. lia. Qed.

Lemma cons_char_cases c m :
  (∀ x r, m = Ok (x, r) → cons_char c m = Ok (c :: x, r))
  ∧ (∀ e, m = Raise e → cons_char c m = Raise e).
Proof. split; intros; subst; done. Qed.

Lemma scans_cons_char c (s t : str) :
  (length t ≤ length s)%nat → scans t →
  cons_char c (scanstring t) = Raise JSONDecodeError
  ∨ ∃ x r, cons_char c (scanstring t) = Ok (x, r) ∧ (length r < S (length s))%nat.
Proof.
  intros Hlen [->|(x & r & -> & Hr)]; [by left|].
  right. exists (c :: x), r. split; [done | lia].
Qed.

Lemma scanstring_scans s : scans s.
Proof.
  remember (length s) as n eqn:Hn.
  revert s Hn. induction (lt_wf n) as [n _ IH]. intros s ->.
  destruct s as [|c s]; [by left|].
  unfold scans. rewrite scanstring_cons. cbn [length].
  destruct (c =? 34); [right; eexists _, _; split; [done | lia]|].
  destruct (c =? 92).
  2:{ destruct (c <? 32); [by left|].
      apply scans_cons_char; [lia|]. eapply IH; [|done]. simpl. lia. }
  destruct s as [|esc r1]; [by left|].
  destruct (esc =? 117).
  2:{ destruct (unescape esc); [|by left].
      apply scans_cons_char; [simpl; lia|]. eapply IH; [|done]. simpl. lia. }
  destruct r1 as [|h1 [|h2 [|h3 [|h4 r2]]]]; try by left.
  destruct (hex4 h1 h2 h3 h4) as [uni|]; [|by left].
  assert (cons_char uni (scanstring r2) = Raise JSONDecodeError
          ∨ ∃ x r, cons_char uni (scanstring r2) = Ok (x, r)
                   ∧ (length r < S (length (esc :: h1 :: h2 :: h3 :: h4 :: r2)))%nat)
    as Hplain.
  { apply scans_cons_char; [simpl; lia|]. eapply IH; [|done]. simpl. lia. }
  destruct r2 as [|b [|u r2']]; try exact Hplain.
  destruct (is_high_surrogate uni && (b =? 92) && (u =? 117)); [|exact Hplain].
  destruct r2' as [|l1 [|l2 [|l3 [|l4 r3]]]]; try by left.
  destruct (hex4 l1 l2 l3 l4) as [uni2|]; [|by left].
  destruct (is_low_surrogate uni2); [|exact Hplain].
  apply scans_cons_char; [simpl; lia|]. eapply IH; [|done]. simpl. lia.
Qed.

Lemma span_digits_length s : (length (span_digits s).2 ≤ length s)%nat.
Proof.
  induction s as [|c s IH]; simpl; [lia|].
  destruct (is_digit c); [|simpl; lia].
  destruct (span_digits s) as [ds r']. simpl in *. lia.
Qed.

Lemma match_number_cases s res :
  match_number s = Some res →
  res = Raise OutsideModel
  ∨ ∃ v r, res = Ok (v, r) ∧ (length r < length s)%nat.
Proof.
  unfold match_number.
  assert (∀ s1 ds rest, int_part s1 = Some (ds, rest) →
            (length rest < length s1)%nat) as Hint.
  { intros s1 ds rest. unfold int_part. destruct s1 as [|c r]; [done|].
    destruct (c =? 48); [intros [= <- <-]; simpl; lia|].
    destruct (is_digit c); [|done].
    pose proof (span_digits_length r). destruct (span_digits r) as [ds' r'].
    intros [= <- <-]. simpl in *. lia. }
  destruct (match s with
            | [] => (false, s)
            | c :: r => if c =? 45 then (true, r) else (false, s)
            end) as [neg s1] eqn:E.
  destruct (int_part s1) as [[ds rest]|] eqn:Ei; [|done].
  apply Hint in Ei. destruct (float_follows rest); intros [= <-]; [by left|].
  right. eexists _, _. split; [done|].
  destruct s as [|c r]; [by injection E as <- <-|].
  destruct (c =? 45); injection E as <- <-; simpl in *; lia.
Qed.

Lemma scanstring_consumes s : consumes (scanstring s) s.
Proof.
  intros x r H. destruct (scanstring_scans s) as [E|(x' & r' & E & Hr)];
    rewrite E in H; [done|]. by injection H as <- <-.
Qed.

Lemma scanstring_in_budget s : scanstring s ≠ Raise OutOfFuel.
Proof.
  destruct (scanstring_scans s) as [E|(x' & r' & E & Hr)]; by rewrite E.
Qed.

Lemma scan_consumes fuel :
  (∀ s, consumes (scan_once fuel s) s)
  ∧ (∀ s, consumes (JSONObject_loop fuel s) s)
  ∧ (∀ s, consumes (JSONArray_loop fuel s) s).
Proof.
  induction fuel as [|fuel (IHs & IHo & IHa)]; [by split_and!|].
  split_and!.
  - intros s v r H. cbn [scan_once] in H. destruct s as [|c s]; [done|].
    cbn [length].
    destruct (c =? 34).
    { apply bind_Ok in H as ([x r'] & Hx & [= _ <-]).
      apply scanstring_consumes in Hx. lia. }
    destruct (c =? 123).
    { destruct (skip_ws s) as [|c' r'] eqn:E; [done|].
      apply skip_ws_cons_length in E.
      destruct (c' =? 125); [injection H as _ <-; lia|].
      destruct (c' =? 34); [|done].
      apply bind_Ok in H as ([pairs r''] & Hp & [= _ <-]).
      apply IHo in Hp. lia. }
    destruct (c =? 91).
    { destruct (skip_ws s) as [|c' r'] eqn:E; [done|].
      apply skip_ws_cons_length in E.
      destruct (c' =? 93); [injection H as _ <-; lia|].
      apply bind_Ok in H as ([values r''] & Hp & [= _ <-]).
      apply IHa in Hp. simpl in Hp. lia. }
    destruct ((c =? 110) && _).
    { injection H as _ <-. rewrite length_drop. lia. }
    destruct ((c =? 116) && _); [done|].
    destruct ((c =? 102) && _); [done|].
    destruct (match_number (c :: s)) as [res|] eqn:Hm.
    + apply match_number_cases in Hm as [->|(v' & r' & -> & Hr)]; [done|].
      injection H as _ <-. simpl in Hr. lia.
    + by destruct (_ || _).
  - intros s pairs r H. rewrite JSONObject_loop_S in H.
    apply bind_Ok in H as ([key r0] & Hk & H). cbn beta iota in H.
    apply scanstring_consumes in Hk.
    destruct (skip_ws r0) as [|c r1] eqn:E0; [done|].
    apply skip_ws_cons_length in E0. destruct (c =? 58); [|done].
    apply bind_Ok in H as ([v r2] & Hv & H). cbn beta iota in H.
    apply IHs in Hv. pose proof (skip_ws_length r1).
    destruct (skip_ws r2) as [|c' r3] eqn:E2; [done|].
    apply skip_ws_cons_length in E2.
    destruct (c' =? 125); [injection H as _ <-; lia|].
    destruct (c' =? 44); [|done].
    destruct (skip_ws r3) as [|q r4] eqn:E3; [done|].
    apply skip_ws_cons_length in E3. destruct (q =? 34); [|done].
    apply bind_Ok in H as ([ps r5] & Hp & [= _ <-]).
    apply IHo in Hp. lia.
  - intros s values r H. rewrite JSONArray_loop_S in H.
    apply bind_Ok in H as ([v r0] & Hv & H). cbn beta iota in H.
    apply IHs in Hv.
    destruct (skip_ws r0) as [|c r1] eqn:E0; [done|].
    apply skip_ws_cons_length in E0.
    destruct (c =? 93); [injection H as _ <-; lia|].
    destruct (c =? 44); [|done].
    apply bind_Ok in H as ([vs r2] & Hp & [= _ <-]).
    apply IHa in Hp. pose proof (skip_ws_length r1). lia.
Qed.

Lemma bind_in_budget {A B} (m : result A) (f : A → result B) :
  m ≠ Raise OutOfFuel → (∀ a, m = Ok a → f a ≠ Raise OutOfFuel) →
  m ≫= f ≠ Raise OutOfFuel.
Proof.
  destruct m as [a|e]; simpl; [auto|]. intros H _ [= ->]. by apply H.
Qed.

Lemma scan_in_budget fuel :
  (∀ s, (2 * length s + 1 ≤ fuel)%nat → scan_once fuel s ≠ Raise OutOfFuel)
  ∧ (∀ s, (2 * length s + 1 ≤ fuel)%nat →
       JSONObject_loop fuel s ≠ Raise OutOfFuel)
  ∧ (∀ s, (2 * length s + 2 ≤ fuel)%nat →
       JSONArray_loop fuel s ≠ Raise OutOfFuel).
Proof.
  induction fuel as [|fuel (IHs & IHo & IHa)]; [split_and!; intros; lia|].
  split_and!.
  - intros s Hfuel. cbn [scan_once]. destruct s as [|c s]; [done|].
    cbn [length] in Hfuel.
    destruct (c =? 34).
    { apply bind_in_budget; [apply scanstring_in_budget | by intros []]. }
    destruct (c =? 123).
    { destruct (skip_ws s) as [|c' r'] eqn:E; [done|].
      apply skip_ws_cons_length in E.
      destruct (c' =? 125); [done|]. destruct (c' =? 34); [|done].
      apply bind_in_budget; [apply IHo; lia | by intros []]. }
    destruct (c =? 91).
    { destruct (skip_ws s) as [|c' r'] eqn:E; [done|].
      apply skip_ws_cons_length in E.
      destruct (c' =? 93); [done|].
      apply bind_in_budget; [apply IHa; simpl; lia | by intros []]. }
    destruct ((c =? 110) && _); [done|].
    destruct ((c =? 116) && _); [done|].
    destruct ((c =? 102) && _); [done|].
    destruct (match_number (c :: s)) as [res|] eqn:Hm.
    + by apply match_number_cases in Hm as [->|(v' & r' & -> & Hr)].
    + by destruct (_ || _).
  - intros s Hfuel. rewrite JSONObject_loop_S.
    apply bind_in_budget; [apply scanstring_in_budget|].
    intros [key r0] Hk. apply scanstring_consumes in Hk.
    destruct (skip_ws r0) as [|c r1] eqn:E0; [done|].
    apply skip_ws_cons_length in E0. destruct (c =? 58); [|done].
    pose proof (skip_ws_length r1).
    apply bind_in_budget; [apply IHs; lia|].
    intros [v r2] Hv. apply (proj1 (scan_consumes fuel)) in Hv.
    destruct (skip_ws r2) as [|c' r3] eqn:E2; [done|].
    apply skip_ws_cons_length in E2.
    destruct (c' =? 125); [done|]. destruct (c' =? 44); [|done].
    destruct (skip_ws r3) as [|q r4] eqn:E3; [done|].
    apply skip_ws_cons_length in E3. destruct (q =? 34); [|done].
    apply bind_in_budget; [apply IHo; lia | by intros []].
  - intros s Hfuel. rewrite JSONArray_loop_S.
    apply bind_in_budget; [apply IHs; lia|].
    intros [v r0] Hv. apply (proj1 (scan_consumes fuel)) in Hv.
    destruct (skip_ws r0) as [|c r1] eqn:E0; [done|].
    apply skip_ws_cons_length in E0.
    destruct (c =? 93); [done|]. destruct (c =? 44); [|done].
    pose proof (skip_ws_length r1).
    apply bind_in_budget; [apply IHa; lia | by intros []].
Qed.

(** The budget [json_loads] gives the decoder is enough for every text:
    [OutOfFuel] is never the outcome. *)
Lemma json_loads_fuel s : json_loads s ≠ Raise OutOfFuel.
Proof.
  unfold json_loads. apply bind_in_budget.
  - apply (proj1 (scan_in_budget _)). pose proof (skip_ws_length s). lia.
  - intros [v r] _. by destruct (skip_ws r).
Qed.

(** ** Scenarios

    The operations evaluated on the small store. *)

(** Creating the first term on an empty store gives it the id 1 and
    empty lists for the examples and related terms it does not give. *)
Example create_on_empty_store :
  (create (clock 1) (clock 2) io_ok oracle empty_store).2 = Ok oracle_term
  ∧ field oracle_term k_id = Some (VInt 1)
  ∧ field oracle_term k_examples = Some (VList [])
  ∧ field oracle_term k_related_terms = Some (VList [])
  ∧ field oracle_term k_source = Some (VStr []).
Proof. split_and!; vm_compute; reflexivity. Qed.

(** After the first of two terms is deleted, the second is all that is
    left, the id 1 is not found, and deleting it again returns [False]. *)
Example delete_first_of_two :
  (delete io_ok 1 two_terms).2 = Ok true
  ∧ get_all (db (delete io_ok 1 two_terms).1) = Ok (VList [blockchain_term])
  ∧ get_by_id (db (delete io_ok 1 two_terms).1) 1 = Ok VNone
  ∧ (delete io_ok 1 (delete io_ok 1 two_terms).1).2 = Ok false.
Proof. split_and!; vm_compute; reflexivity. Qed.

(** An update of the definition alone leaves title, category and
    [created_at] as they were; [source], set to [null], keeps its value. *)
Example update_definition_only :
  ∃ t, (update (clock 7) io_ok 1 null_source two_terms).2 = Ok t
    ∧ field t k_definition
      = Some (VStr (lit "A bridge between a chain and the outside world"))
    ∧ field t k_title = field oracle_term k_title
    ∧ field t k_category = field oracle_term k_category
    ∧ field t k_created_at = field oracle_term k_created_at
    ∧ field t k_source = Some (VStr [])
    ∧ field t k_updated_at = Some (VStr (clock 7)).
Proof. eexists. split_and!; vm_compute; reflexivity. Qed.

(** The keyword in lower case finds the term whose title has a capital. *)
Example search_oracle :
  search ascii_lower (db two_terms) (lit "oracle") = Ok [oracle_term]
  ∧ search ascii_lower (db two_terms) (lit "GENERAL") = Ok [blockchain_term]
  ∧ search ascii_lower (db two_terms) (lit "nothing") = Ok [].
Proof. split_and!; vm_compute; reflexivity. Qed.

(** A write that fails: the request raises, the record is in memory, the
    file no longer holds a document, and a restart cannot load it. *)
Example create_with_failing_write :
  (create (clock 5) (clock 6) io_fault oracle two_terms).2 = Raise OSError
  ∧ length (collection
              (db (create (clock 5) (clock 6) io_fault oracle two_terms).1))
    = 3%nat
  ∧ disk (create (clock 5) (clock 6) io_fault oracle two_terms).1 = Some []
  ∧ __init__ (disk (create (clock 5) (clock 6) io_fault oracle two_terms).1)
    = Raise JSONDecodeError.
Proof. split_and!; vm_compute; reflexivity. Qed.

(** A text with a lone surrogate cannot be written to the file. *)
Example surrogate_cannot_be_saved :
  (_save_data io_ok
     {| data := VDict [(k_glossary, VList [VStr [55296]])]; next_id := 1 |}).2
  = Raise UnicodeEncodeError.
Proof. vm_compute; reflexivity. Qed.

(** The id of a deleted record is issued again after a restart when it
    was the largest. *)
Example id_reused_after_restart :
  ∃ self, __init__ (disk (delete io_ok 2 two_terms).1) = Ok self
    ∧ next_id (db (delete io_ok 2 two_terms).1) = 3%Z
    ∧ next_id self = 2%Z.
Proof. eexists. split_and!; vm_compute; reflexivity. Qed.

(** ** The statements at a concrete store *)

Lemma next_id_monotone_witness :
  __init__ (disk two_terms) = Ok (db two_terms)
  ∧ run busy_day {| db := db two_terms; disk := disk two_terms |}
    = ((run busy_day two_terms).1, (run busy_day two_terms).2)
  ∧ (next_id (db two_terms)
     = match term_ids (collection (db two_terms)) with
       | [] => 1
       | i :: ids => max_of i ids + 1
       end%Z
     ∧ (∀ a b i j, (a < b)%nat →
          issued (run busy_day two_terms).2 !! a = Some i →
          issued (run busy_day two_terms).2 !! b = Some j → (i < j)%Z)
     ∧ (∀ i j, i ∈ issued (run busy_day two_terms).2 →
          j ∈ term_ids (collection (db two_terms)) → (j < i)%Z)
     ∧ (NoDup (term_ids (collection (db two_terms))) →
        NoDup (term_ids (collection (db (run busy_day two_terms).1))))).
Proof.
  assert (__init__ (disk two_terms) = Ok (db two_terms)) as H1
    by (vm_compute; reflexivity).
  assert (run busy_day {| db := db two_terms; disk := disk two_terms |}
          = ((run busy_day two_terms).1, (run busy_day two_terms).2)) as H2
    by (vm_compute; reflexivity).
  split; [exact H1|]. split; [exact H2|].
  exact (next_id_monotone _ _ _ _ _ H1 H2).
Defined.

Lemma write_failure_propagates_witness :
  serve (ReqCreate (clock 5) (clock 6) io_fault oracle) two_terms
  = ((serve (ReqCreate (clock 5) (clock 6) io_fault oracle) two_terms).1,
     Created (Raise OSError))
  ∧ ((reaches_save (ReqCreate (clock 5) (clock 6) io_fault oracle)
        (db two_terms) →
      write_fails (env_of (ReqCreate (clock 5) (clock 6) io_fault oracle))
        (db (serve (ReqCreate (clock 5) (clock 6) io_fault oracle)
               two_terms).1) = true →
      ∃ e, raised (Created (Raise OSError)) e
           ∧ (e = OSError ∨ e = UnicodeEncodeError))
     ∧ (reaches_save (ReqCreate (clock 5) (clock 6) io_fault oracle)
          (db two_terms) →
        succeeded (Created (Raise OSError)) →
        disk (serve (ReqCreate (clock 5) (clock 6) io_fault oracle)
                two_terms).1
        = Some (json_dumps
                  (data (db (serve (ReqCreate (clock 5) (clock 6) io_fault
                                      oracle) two_terms).1))))
     ∧ (¬ reaches_save (ReqCreate (clock 5) (clock 6) io_fault oracle)
            (db two_terms) →
        (serve (ReqCreate (clock 5) (clock 6) io_fault oracle) two_terms).1
        = two_terms)).
Proof.
  assert (serve (ReqCreate (clock 5) (clock 6) io_fault oracle) two_terms
          = ((serve (ReqCreate (clock 5) (clock 6) io_fault oracle)
                two_terms).1, Created (Raise OSError))) as H
    by (vm_compute; reflexivity).
  split; [exact H|].
  exact (write_failure_propagates _ _ _ _ H).
Defined.

Lemma delete_spec_witness :
  getitem (data (db two_terms)) k_glossary
  = Ok (VList [oracle_term; blockchain_term])
  ∧ Forall (λ t, is_Some (field t k_id)) [oracle_term; blockchain_term]
  ∧ ((7%Z ∉ term_ids [oracle_term; blockchain_term] →
        delete io_ok 7 two_terms = (two_terms, Ok false)
        ∧ ∀ io', delete io' 7 (delete io_ok 7 two_terms).1
                 = (two_terms, Ok false))
     ∧ (∀ i t, first_with_id [oracle_term; blockchain_term] 7 i t →
          ∃ w' r, delete io_ok 7 two_terms = (w', r)
            ∧ collection (db w')
              = base.delete i [oracle_term; blockchain_term]
            ∧ next_id (db w') = next_id (db two_terms)
            ∧ (write_fails io_ok (db w') = false →
               r = Ok true
               ∧ disk w' = Some (json_dumps (data (db w')))))).
Proof.
  assert (getitem (data (db two_terms)) k_glossary
          = Ok (VList [oracle_term; blockchain_term])) as H1
    by (vm_compute; reflexivity).
  assert (Forall (λ t, is_Some (field t k_id))
            [oracle_term; blockchain_term]) as H2
    by (repeat constructor; vm_compute; eexists; reflexivity).
  split; [exact H1|]. split; [exact H2|].
  exact (delete_spec io_ok 7 two_terms _ H1 H2).
Defined.

Lemma create_spec_witness :
  getitem (data (db two_terms)) k_glossary
  = Ok (VList [oracle_term; blockchain_term])
  ∧ ∃ w' r term, create (clock 5) (clock 6) io_ok oracle two_terms = (w', r)
    ∧ term = VDict [
        (k_id, VInt (next_id (db two_terms)));
        (k_title, VStr (GlossaryTermCreate.title oracle));
        (k_definition, VStr (GlossaryTermCreate.definition oracle));
        (k_category, VStr (GlossaryTermCreate.category oracle));
        (k_examples,
           str_list (default [] (GlossaryTermCreate.examples oracle)));
        (k_related_terms,
           str_list (default [] (GlossaryTermCreate.related_terms oracle)));
        (k_source, VStr (default [] (GlossaryTermCreate.source oracle)));
        (k_created_at, VStr (clock 5));
        (k_updated_at, VStr (clock 6))]
    ∧ collection (db w') = [oracle_term; blockchain_term] ++ [term]
    ∧ next_id (db w') = (next_id (db two_terms) + 1)%Z
    ∧ (write_fails io_ok (db w') = false →
       r = Ok term ∧ disk w' = Some (json_dumps (data (db w'))))
    ∧ (∀ b td', validate_create (VDict b) = Some td' →
         dict_get b k_category = None →
         GlossaryTermCreate.category td' = lit "General").
Proof.
  assert (getitem (data (db two_terms)) k_glossary
          = Ok (VList [oracle_term; blockchain_term])) as H1
    by (vm_compute; reflexivity).
  split; [exact H1|].
  exact (create_spec (clock 5) (clock 6) io_ok oracle two_terms _ H1).
Defined.

Lemma first_oracle : first_with_id [oracle_term; blockchain_term] 1 0 oracle_term.
Proof. split_and!; [done | done | intros; lia]. Qed.

Lemma update_spec_witness :
  getitem (data (db two_terms)) k_glossary
  = Ok (VList [oracle_term; blockchain_term])
  ∧ first_with_id [oracle_term; blockchain_term] 1 0 oracle_term
  ∧ ∃ d w' r t', oracle_term = VDict d
    ∧ update (clock 7) io_ok 1 null_source two_terms = (w', r)
    ∧ collection (db w') = <[0%nat := t']> [oracle_term; blockchain_term]
    ∧ (∀ k x, (k, x) ∈ model_dump_exclude_unset null_source → x ≠ VNone →
         field t' k = Some x)
    ∧ (∀ k, k ≠ k_updated_at →
         (∀ x, (k, x) ∈ model_dump_exclude_unset null_source → x = VNone) →
         field t' k = field oracle_term k)
    ∧ field t' k_updated_at = Some (VStr (clock 7))
    ∧ (model_dump_exclude_unset null_source = [] →
       t' = VDict (dict_set d k_updated_at (VStr (clock 7))))
    ∧ (write_fails io_ok (db w') = false →
       r = Ok t' ∧ disk w' = Some (json_dumps (data (db w')))).
Proof.
  assert (getitem (data (db two_terms)) k_glossary
          = Ok (VList [oracle_term; blockchain_term])) as H1
    by (vm_compute; reflexivity).
  split; [exact H1|]. split; [exact first_oracle|].
  exact (update_spec (clock 7) io_ok 1 null_source two_terms _ _ _
           H1 first_oracle).
Defined.

Lemma update_ignores_null_witness :
  getitem (data (db two_terms)) k_glossary
  = Ok (VList [oracle_term; blockchain_term])
  ∧ first_with_id [oracle_term; blockchain_term] 1 0 oracle_term
  ∧ ∃ w' r t', update (clock 7) io_ok 1 null_source two_terms = (w', r)
    ∧ collection (db w') = <[0%nat := t']> [oracle_term; blockchain_term]
    ∧ (∀ k, (k, VNone) ∈ model_dump_exclude_unset null_source →
         field t' k = field oracle_term k)
    ∧ (∀ k, field t' k = Some VNone → field oracle_term k = Some VNone).
Proof.
  assert (getitem (data (db two_terms)) k_glossary
          = Ok (VList [oracle_term; blockchain_term])) as H1
    by (vm_compute; reflexivity).
  split; [exact H1|]. split; [exact first_oracle|].
  exact (update_ignores_null (clock 7) io_ok 1 null_source two_terms _ _ _
           H1 first_oracle).
Defined.

(** C2, as the claim states it, fails: a field that the partial update
    sets to [null] is a field present in it, and [update] does not
    replace the stored value by that [null]. *)
Lemma update_replaces_present_fields_counterexample :
  ¬ (∀ now io id u w l i t w' r t',
       getitem (data (db w)) k_glossary = Ok (VList l) →
       first_with_id l id i t →
       update now io id u w = (w', r) →
       collection (db w') !! i = Some t' →
       ∀ k x, (k, x) ∈ model_dump_exclude_unset u → field t' k = Some x).
Proof.
  intros H.
  specialize (H (clock 7) io_ok 1%Z null_source two_terms
                [oracle_term; blockchain_term] 0%nat oracle_term
                (update (clock 7) io_ok 1 null_source two_terms).1
                (update (clock 7) io_ok 1 null_source two_terms).2
                (updated_term
                   match oracle_term with VDict d => d | _ => [] end
                   (clock 7) null_source)).
  specialize (H ltac:(vm_compute; reflexivity) first_oracle
                ltac:(vm_compute; reflexivity) ltac:(vm_compute; reflexivity)
                k_source VNone).
  assert ((k_source, VNone) ∈ model_dump_exclude_unset null_source) as Hin.
  { vm_compute. apply list_elem_of_further, list_elem_of_here. }
  specialize (H Hin). vm_compute in H. discriminate H.
Qed.

Lemma two_terms_searchable : Forall searchable [oracle_term; blockchain_term].
Proof.
  assert (∀ t, (∃ s, field t k_title = Some (VStr s)) →
               (∃ s, field t k_definition = Some (VStr s)) →
               (∃ s, field t k_category = Some (VStr s)) → searchable t) as H.
  { intros t H1 H2 H3. split_and!; [done | done | by right; right]. }
  constructor; [apply H; by eexists|].
  constructor; [apply H; by eexists | constructor].
Qed.


Lemma two_terms_stamps :
  Forall (stamps_ok (clock 4)) (collection (db two_terms)).
Proof. repeat constructor; eexists _, _; by split_and!. Qed.

Lemma busy_day_clock : nondecreasing (clock 4) (all_readings busy_day).
Proof. by vm_compute. Qed.

Lemma timestamps_witness :
  run busy_day two_terms
  = ((run busy_day two_terms).1, (run busy_day two_terms).2)
  ∧ Forall (stamps_ok (clock 4)) (collection (db two_terms))
  ∧ nondecreasing (clock 4) (all_readings busy_day)
  ∧ ((∀ t', t' ∈ collection (db (run busy_day two_terms).1) →
        (∃ t, t ∈ collection (db two_terms)
              ∧ term_id_of t' = term_id_of t
              ∧ field t' k_created_at = field t k_created_at)
        ∨ (∃ now1 now2 io td, ReqCreate now1 now2 io td ∈ busy_day
              ∧ field t' k_created_at = Some (VStr now1)))
     ∧ (∀ w1 now1 now2 io td l,
          getitem (data (db w1)) k_glossary = Ok (VList l) →
          ∃ t, collection (db (create now1 now2 io td w1).1) = l ++ [t]
            ∧ field t k_created_at = Some (VStr now1)
            ∧ field t k_updated_at = Some (VStr now2)
            ∧ (∀ x, (create now1 now2 io td w1).2 = Ok x → x = t))
     ∧ (∀ w1 now io id u l i t,
          getitem (data (db w1)) k_glossary = Ok (VList l) →
          first_with_id l id i t →
          ∃ t2, collection (db (update now io id u w1).1) = <[i := t2]> l
            ∧ field t2 k_updated_at = Some (VStr now)
            ∧ field t2 k_created_at = field t k_created_at
            ∧ (∀ x, (update now io id u w1).2 = Ok x → x = t2))
     ∧ (∀ k now1 now2 io td t,
          busy_day !! k = Some (ReqCreate now1 now2 io td) →
          (run busy_day two_terms).2 !! k = Some (Created (Ok t)) →
          field t k_created_at = Some (VStr now1)
          ∧ field t k_updated_at = Some (VStr now2))
     ∧ (∀ k now io id u t,
          busy_day !! k = Some (ReqUpdate now io id u) →
          (run busy_day two_terms).2 !! k = Some (Updated (Ok t)) →
          t ≠ VNone →
          field t k_updated_at = Some (VStr now))
     ∧ (Forall (stamps_ok (clock 4)) (collection (db two_terms)) →
        nondecreasing (clock 4) (all_readings busy_day) →
        ∀ t', t' ∈ collection (db (run busy_day two_terms).1) →
          ∃ c u, field t' k_created_at = Some (VStr c)
                 ∧ field t' k_updated_at = Some (VStr u)
                 ∧ str_leb c u = true)).
Proof.
  assert (run busy_day two_terms
          = ((run busy_day two_terms).1, (run busy_day two_terms).2)) as H
    by (vm_compute; reflexivity).
  split; [exact H|]. split; [exact two_terms_stamps|].
  split; [exact busy_day_clock|].
  exact (timestamps busy_day two_terms _ _ (clock 4) H).
Defined.

(** C5, as the claim states it, fails: the timestamps are readings of
    the wall clock, and nothing orders them. When the clock of the
    machine is set back between the creation of a record and its update,
    the record is left with [updated_at] before [created_at]. *)
Lemma updated_at_after_created_at_counterexample :
  ¬ (∀ rqs w' rs t',
       run rqs empty_store = (w', rs) → t' ∈ collection (db w') →
       ∃ c u, field t' k_created_at = Some (VStr c)
              ∧ field t' k_updated_at = Some (VStr u)
              ∧ str_leb c u = true).
Proof.
  intros H.
  destruct (H [ReqCreate (clock 5) (clock 5) io_ok oracle;
               ReqUpdate (clock 3) io_ok 1 null_source]
              _ _ _ eq_refl (list_elem_of_here _ _))
    as (c & u & Hc & Hu & Hcu).
  vm_compute in Hc, Hu. inversion Hc; subst c. inversion Hu; subst u.
  vm_compute in Hcu. discriminate Hcu.
Qed.

Lemma get_all_terms_spec_witness :
  get_all full_store = Ok (VList twenty_five)
  ∧ (0 ≤ 20)%Z ∧ (1 ≤ 10 ≤ 1000)%Z
  ∧ (let items := take (Z.to_nat 10) (drop (Z.to_nat 20) twenty_five) in
     get_all_terms full_store (Some 20%Z) (Some 10%Z) =
       Reply 200 {|
         success := true;
         message := lit "Получено " ++ repr_int (Z.of_nat (length items))
                    ++ lit " терминов из "
                    ++ repr_int (Z.of_nat (length twenty_five))
                    ++ lit " всего";
         response_data := Some (VDict [
           (k_total, VInt (Z.of_nat (length twenty_five)));
           (k_skip, VInt 20);
           (k_limit, VInt 10);
           (k_items, VList items)])
       |}
     ∧ (length twenty_five = 25%nat →
        reply_field (get_all_terms full_store (Some 0%Z) (Some 10%Z)) k_total
          = Some (VInt 25)
        ∧ (∃ page,
             reply_field (get_all_terms full_store (Some 0%Z) (Some 10%Z))
               k_items = Some (VList page) ∧ length page = 10%nat)
        ∧ (∃ page,
             reply_field (get_all_terms full_store (Some 20%Z) (Some 10%Z))
               k_items = Some (VList page) ∧ length page = 5%nat))).
Proof.
  assert (get_all full_store = Ok (VList twenty_five)) as H1 by reflexivity.
  assert (0 ≤ 20)%Z as H2 by lia.
  assert (1 ≤ 10 ≤ 1000)%Z as H3 by lia.
  split; [exact H1|]. split; [exact H2|]. split; [exact H3|].
  exact (get_all_terms_spec full_store twenty_five 20 10 H1 H2 H3).
Defined.

Lemma two_terms_wf : wf_value (data (db two_terms)).
Proof.
  apply (run_wf [ReqCreate (clock 1) (clock 2) io_ok oracle;
                 ReqCreate (clock 3) (clock 4) io_ok blockchain]
           empty_store two_terms
           (run [ReqCreate (clock 1) (clock 2) io_ok oracle;
                 ReqCreate (clock 3) (clock 4) io_ok blockchain]
              empty_store).2).
  - simpl. split_and!; try done. apply NoDup_singleton.
  - by vm_compute.
Qed.

Lemma persistence_roundtrip_witness :
  wf_value (data (db two_terms))
  ∧ _save_data io_ok (db two_terms) = (disk two_terms, Ok ())
  ∧ (_load_data (disk two_terms) = Ok (data (db two_terms))
     ∧ (∀ n, _get_next_id (data (db two_terms)) = Ok n →
          __init__ (disk two_terms)
          = Ok {| data := data (db two_terms); next_id := n |})
     ∧ (∀ self', __init__ (disk two_terms) = Ok self' →
          collection self' = collection (db two_terms))).
Proof.
  assert (_save_data io_ok (db two_terms) = (disk two_terms, Ok ())) as H
    by (vm_compute; reflexivity).
  split; [exact two_terms_wf|]. split; [exact H|].
  exact (persistence_roundtrip io_ok (db two_terms) _ two_terms_wf H).
Defined.

(* ===================================================================== *)
(** * Reading the store *)

(** ** Lookup by id *)

Lemma lookup_id_cons t l id :
  lookup_id (t :: l) id
  = if decide (term_id_of t = Some id) then t else lookup_id l id.
Proof.
  unfold lookup_id. cbn [list_find]. destruct (decide _); [done|].
  destruct (list_find _ l) as [[j x]|]; done.
Qed.

Lemma py_eq_int_id t v id :
  field t k_id = Some v →
  py_eq_int v id = bool_decide (term_id_of t = Some id).
Proof.
  intros Hv. unfold term_id_of. rewrite Hv.
  destruct v as [|n| | |]; cbn; try (symmetry; apply bool_decide_eq_false; congruence).
  destruct (Z.eqb_spec n id) as [->|Hne]; symmetry.
  - by apply bool_decide_eq_true.
  - apply bool_decide_eq_false. congruence.
Qed.

Lemma find_by_id_lookup l id i0 :
  Forall (λ t, is_Some (field t k_id)) l →
  (found ← find_by_id l id i0;
   Ok (match found with Some (_, term) => term | None => VNone end))
  = Ok (lookup_id l id).
Proof.
  intros Hl. revert i0. induction Hl as [|t l [v Hv] _ IH]; intros i0; [done|].
  rewrite lookup_id_cons. cbn [find_by_id].
  apply getitem_field in Hv as Hg. rewrite Hg. cbn [mbind result_bind].
  rewrite (py_eq_int_id _ _ _ Hv).
  destruct (decide _) as [e|n].
  - by rewrite bool_decide_eq_true_2.
  - rewrite bool_decide_eq_false_2 by done. apply IH.
Qed.

Lemma get_by_id_lookup self l id :
  getitem (data self) k_glossary = Ok (VList l) →
  Forall (λ t, is_Some (field t k_id)) l →
  get_by_id self id = Ok (lookup_id l id).
Proof.
  intros Hg Hl. unfold get_by_id. rewrite (get_by_id_ref_list _ _ _ Hg).
  by apply find_by_id_lookup.
Qed.

Lemma term_ids_cons t l :
  term_ids (t :: l)
  = match term_id_of t with Some i => i :: term_ids l | None => term_ids l end.
Proof. done. Qed.

Lemma lookup_id_absent l id : id ∉ term_ids l → lookup_id l id = VNone.
Proof.
  induction l as [|t l IH]; [done|].
  rewrite term_ids_cons, lookup_id_cons. intros Hn.
  destruct (decide _) as [e|n].
  - rewrite e in Hn. exfalso. apply Hn. left.
  - apply IH. destruct (term_id_of t); [|done].
    intros Hin. apply Hn. by right.
Qed.

Lemma lookup_id_present l id :
  id ∈ term_ids l →
  ∃ i, l !! i = Some (lookup_id l id) ∧ term_id_of (lookup_id l id) = Some id
       ∧ ∀ j t, (j < i)%nat → l !! j = Some t → term_id_of t ≠ Some id.
Proof.
  induction l as [|t l IH]; [by intros ?%elem_of_nil|].
  rewrite term_ids_cons, lookup_id_cons. intros Hin.
  destruct (decide _) as [e|n].
  - exists 0%nat. split_and!; [done..|]. intros; lia.
  - destruct IH as (i & Hi & Hid & Hbefore).
    { destruct (term_id_of t) as [j|]; [|done].
      apply elem_of_cons in Hin as [->|]; [done|done]. }
    exists (S i). split_and!; [done..|].
    intros [|j] t' Hj Ht'; cbn in Ht'.
    + by inversion Ht'; subst.
    + apply (Hbefore j); [lia|done].
Qed.

Lemma other_id t v id :
  field t k_id = Some v → v ≠ VInt id ↔ term_id_of t ≠ Some id.
Proof.
  intros Hv. unfold term_id_of. rewrite Hv.
  destruct v; split; congruence.
Qed.

Lemma lookup_id_first l id i t : first_with_id l id i t → lookup_id l id = t.
Proof.
  revert i. induction l as [|t0 l IH]; intros i (Hi & Hid & Hbefore).
  { by rewrite lookup_nil in Hi. }
  rewrite lookup_id_cons. destruct i as [|i]; cbn in Hi.
  - inversion Hi; subst. by rewrite decide_True.
  - destruct (Hbefore 0%nat t0) as (v & Hv & Hne); [lia|done|].
    rewrite decide_False by by apply (other_id _ _ _ Hv).
    apply (IH i). split_and!; [done..|].
    intros j t' Hj Ht'. apply (Hbefore (S j)); [lia|done].
Qed.

Lemma first_with_id_lookup l id :
  Forall (λ t, is_Some (field t k_id)) l → id ∈ term_ids l →
  ∃ i, first_with_id l id i (lookup_id l id).
Proof.
  intros Hl Hin. destruct (lookup_id_present _ _ Hin) as (i & Hi & Hid & Hbefore).
  exists i. split_and!; [done..|].
  intros j t Hj Ht.
  rewrite list.Forall_forall in Hl.
  destruct (Hl t) as [v Hv]; [by eapply list_elem_of_lookup_2|].
  exists v. split; [done|]. apply (other_id _ _ _ Hv). by eapply Hbefore.
Qed.

Lemma lookup_id_app_r l1 l2 id :
  id ∉ term_ids l1 → lookup_id (l1 ++ l2) id = lookup_id l2 id.
Proof.
  induction l1 as [|t l1 IH]; [done|].
  rewrite term_ids_cons. cbn [app]. rewrite lookup_id_cons. intros Hn.
  destruct (decide _) as [e|n].
  - rewrite e in Hn. exfalso. apply Hn. left.
  - apply IH. destruct (term_id_of t); [|done].
    intros Hin. apply Hn. by right.
Qed.

Lemma lookup_id_app_l l1 l2 id :
  id ∈ term_ids l1 → lookup_id (l1 ++ l2) id = lookup_id l1 id.
Proof.
  induction l1 as [|t l1 IH]; [by intros ?%elem_of_nil|].
  rewrite term_ids_cons. cbn [app]. rewrite !lookup_id_cons. intros Hin.
  destruct (decide _) as [e|n]; [done|].
  apply IH. destruct (term_id_of t) as [j|]; [|done].
  apply elem_of_cons in Hin as [->|]; done.
Qed.

Lemma lookup_id_insert_other l i t t' id :
  l !! i = Some t → term_id_of t ≠ Some id → term_id_of t' ≠ Some id →
  lookup_id (<[i := t']> l) id = lookup_id l id.
Proof.
  revert i. induction l as [|t0 l IH]; intros i Hi Ht Ht'; [done|].
  destruct i as [|i]; cbn in Hi; cbn [insert list_insert]; rewrite !lookup_id_cons.
  - inversion Hi; subst. by rewrite !decide_False.
  - destruct (decide _); [done|]. by apply IH.
Qed.

Lemma lookup_id_insert_first l i t t' id :
  first_with_id l id i t → term_id_of t' = Some id →
  lookup_id (<[i := t']> l) id = t'.
Proof.
  intros (Hi & Hid & Hbefore) Ht'. apply (lookup_id_first _ _ i).
  split_and!; [|done|].
  - apply list_lookup_insert_eq. by eapply lookup_lt_Some.
  - intros j t0 Hj Ht0. apply (Hbefore j); [done|].
    by rewrite list_lookup_insert_ne in Ht0 by lia.
Qed.

Lemma lookup_id_delete_other l i t id :
  l !! i = Some t → term_id_of t ≠ Some id →
  lookup_id (base.delete i l) id = lookup_id l id.
Proof.
  revert i. induction l as [|t0 l IH]; intros i Hi Ht; [done|].
  destruct i as [|i]; cbn in Hi; cbn [base.delete list_delete].
  - inversion Hi; subst. by rewrite lookup_id_cons, decide_False.
  - rewrite !lookup_id_cons. destruct (decide _); [done|]. by eapply IH.
Qed.

Lemma term_ids_delete_unique l i t id :
  NoDup (term_ids l) → l !! i = Some t → term_id_of t = Some id →
  id ∉ term_ids (base.delete i l).
Proof.
  revert i. induction l as [|t0 l IH]; intros i Hnd Hi Ht; [done|].
  rewrite term_ids_cons in Hnd.
  destruct i as [|i]; cbn in Hi; cbn [base.delete list_delete].
  - inversion Hi; subst. rewrite Ht in Hnd. by apply list.NoDup_cons in Hnd as [? _].
  - rewrite term_ids_cons.
    destruct (term_id_of t0) as [j|] eqn:Hj.
    + apply list.NoDup_cons in Hnd as [Hj' Hnd].
      intros [->|Hin]%elem_of_cons.
      * apply Hj'. unfold term_ids. apply list_elem_of_omap. exists t.
        split; [by eapply list_elem_of_lookup_2|done].
      * by eapply IH.
    + by eapply IH.
Qed.

(** X1: in a collection whose records all have an id, [get_by_id]
    returns without raising; the result is [None] when no record has the
    id, and otherwise the first record that has it. *)
Theorem get_by_id_spec self l id :
  getitem (data self) k_glossary = Ok (VList l) →
  Forall (λ t, is_Some (field t k_id)) l →
  ∃ r, get_by_id self id = Ok r
    ∧ (id ∉ term_ids l → r = VNone)
    ∧ (id ∈ term_ids l → ∃ i, first_with_id l id i r)
    ∧ (∀ i t, first_with_id l id i t → r = t).
Proof.
  intros Hg Hl. exists (lookup_id l id). split_and!.
  - by apply get_by_id_lookup.
  - apply lookup_id_absent.
  - by apply first_with_id_lookup.
  - intros i t H. by apply lookup_id_first in H.
Qed.

(** ** Lookups after a request *)

Lemma ids_below_has_id self :
  ids_below self → Forall (λ t, is_Some (field t k_id)) (collection self).
Proof.
  intros Hb. eapply list.Forall_impl; [exact Hb|]. intros t (i & Hi & _).
  apply term_id_of_Some in Hi. by eexists.
Qed.

Lemma ids_below_fresh self : ids_below self → next_id self ∉ term_ids (collection self).
Proof. intros Hb Hin. apply (ids_below_lt _ _ Hb) in Hin. lia. Qed.

Lemma has_id_of t i : term_id_of t = Some i → is_Some (field t k_id).
Proof. intros H%term_id_of_Some. by eexists. Qed.

Lemma find_by_id_total l id i0 :
  Forall (λ t, is_Some (field t k_id)) l →
  ∃ found, find_by_id l id i0 = Ok found.
Proof.
  intros Hl. revert i0. induction Hl as [|t l [v Hv] _ IH]; intros i0.
  { by eexists. }
  cbn [find_by_id]. apply getitem_field in Hv. rewrite Hv.
  cbn [mbind result_bind]. destruct (py_eq_int v id); [by eexists|apply IH].
Qed.

Lemma get_by_id_set_glossary d g l n id :
  getitem d k_glossary = Ok g →
  Forall (λ t, is_Some (field t k_id)) l →
  get_by_id {| data := set_glossary d l; next_id := n |} id
  = Ok (lookup_id l id).
Proof.
  intros Hg Hl. apply get_by_id_lookup; [|done]. cbn [data].
  by eapply getitem_set_glossary.
Qed.

(** X2: a request leaves alone what the lookups of the other ids
    return: [create] those of every id but the one it assigns, [update]
    and [delete] those of every id but the one they are called with. *)
Theorem serve_frame rq w w' r l id :
  getitem (data (db w)) k_glossary = Ok (VList l) →
  Forall (λ t, is_Some (field t k_id)) l →
  serve rq w = (w', r) →
  id ≠ target rq (db w) →
  get_by_id (db w') id = get_by_id (db w) id.
Proof.
  intros Hg Hl Hs Hne.
  rewrite (get_by_id_lookup _ _ id Hg Hl).
  destruct rq as [now1 now2 io td|now io tid u|io tid]; cbn [serve target] in *.
  - rewrite (create_list _ _ _ _ _ _ Hg) in Hs. cbv zeta in Hs.
    inversion Hs; subst w' r; clear Hs. cbn [db].
    rewrite (get_by_id_set_glossary _ _ _ _ _ Hg).
    2:{ apply Forall_app. split; [done|]. constructor; [|constructor].
        eapply has_id_of, new_term_id. }
    f_equal. destruct (decide (id ∈ term_ids l)) as [Hin|Hin].
    + by apply lookup_id_app_l.
    + rewrite lookup_id_app_r by done. rewrite (lookup_id_absent l) by done.
      rewrite lookup_id_cons, new_term_id. rewrite decide_False by congruence.
      done.
  - destruct (find_by_id_total l tid 0 Hl) as [found Hf].
    rewrite <- (get_by_id_ref_list _ _ _ Hg) in Hf.
    destruct found as [[i t]|].
    + destruct (update_found now io tid u w i t Hf)
        as (d & l' & -> & Hg' & Hi & Hu).
      rewrite Hg in Hg'. inversion Hg'; subst l'. cbv zeta in Hu.
      rewrite Hu in Hs. inversion Hs; subst w' r; clear Hs. cbn [db].
      apply get_by_id_ref_Some in Hf as (l' & Hg'' & _ & Hid & _).
      rewrite (get_by_id_set_glossary _ _ _ _ _ Hg).
      * f_equal. eapply lookup_id_insert_other; [done|..].
        -- rewrite Hid. congruence.
        -- rewrite updated_term_id, Hid. congruence.
      * apply Forall_insert; [done|].
        eapply has_id_of. by rewrite updated_term_id.
    + rewrite (update_not_found _ _ _ _ _ Hf) in Hs.
      inversion Hs; subst. by apply get_by_id_lookup.
  - destruct (find_by_id_total l tid 0 Hl) as [found Hf].
    rewrite <- (get_by_id_ref_list _ _ _ Hg) in Hf.
    destruct found as [[i t]|].
    + destruct (delete_found io tid w i t Hf) as (l' & Hg' & Hi & Hd).
      rewrite Hg in Hg'. inversion Hg'; subst l'. cbv zeta in Hd.
      rewrite Hd in Hs. inversion Hs; subst w' r; clear Hs. cbn [db].
      apply get_by_id_ref_Some in Hf as (l' & Hg'' & _ & Hid & _).
      rewrite (get_by_id_set_glossary _ _ _ _ _ Hg).
      * f_equal. eapply lookup_id_delete_other; [done|].
        rewrite Hid. congruence.
      * by apply Forall_delete.
    + rewrite (delete_not_found _ _ _ Hf) in Hs.
      inversion Hs; subst. by apply get_by_id_lookup.
Qed.

(** X3: the record [create] adds is what [get_by_id] returns for the
    id it was given, whether or not the write of the file succeeded; and
    when [create] returns, it returns that record. *)
Theorem create_then_get now1 now2 io td w l :
  getitem (data (db w)) k_glossary = Ok (VList l) →
  ids_below (db w) →
  ∃ w' r, create now1 now2 io td w = (w', r)
    ∧ get_by_id (db w') (next_id (db w))
      = Ok (new_term (next_id (db w)) now1 now2 td)
    ∧ (∀ t, r = Ok t → get_by_id (db w') (next_id (db w)) = Ok t).
Proof.
  intros Hg Hb. rewrite (create_list _ _ _ _ _ _ Hg). cbv zeta.
  eexists _, _. split; [done|]. cbn [db].
  pose proof (ids_below_has_id _ Hb) as Hl.
  pose proof (ids_below_fresh _ Hb) as Hf.
  rewrite (collection_eq _ _ Hg) in Hl, Hf.
  assert (get_by_id
            {| data := set_glossary (data (db w))
                         (l ++ [new_term (next_id (db w)) now1 now2 td]);
               next_id := next_id (db w) + 1 |} (next_id (db w))
          = Ok (new_term (next_id (db w)) now1 now2 td)) as Hget.
  { rewrite (get_by_id_set_glossary _ _ _ _ _ Hg).
    - rewrite lookup_id_app_r by done.
      by rewrite lookup_id_cons, new_term_id, decide_True.
    - apply Forall_app. split; [done|]. constructor; [|constructor].
      eapply has_id_of, new_term_id. }
  split; [done|]. intros t Ht. rewrite Hget.
  destruct (_save_data _ _).2; cbn in Ht; congruence.
Qed.

(** X4: after [update] found a record, [get_by_id] returns the updated
    record for that id, whatever the write of the file did; and when
    [update] returns, it returns that record. *)
Theorem update_then_get now io id u w l i t :
  getitem (data (db w)) k_glossary = Ok (VList l) →
  Forall (λ t, is_Some (field t k_id)) l →
  first_with_id l id i t →
  ∃ w' r t', update now io id u w = (w', r)
    ∧ get_by_id (db w') id = Ok t'
    ∧ field t' k_updated_at = Some (VStr now)
    ∧ (∀ x, r = Ok x → x = t').
Proof.
  intros Hg Hl Hfirst.
  pose proof (get_by_id_ref_found _ _ _ _ _ Hg Hfirst) as Hf.
  destruct (update_found now io id u w i t Hf)
    as (d & l' & -> & Hg' & Hi & Hu).
  rewrite Hg in Hg'. inversion Hg'; subst l'. cbv zeta in Hu.
  rewrite Hu. eexists _, _, (updated_term d now u). split; [done|]. cbn [db].
  destruct Hfirst as (_ & Hid & _). split_and!.
  - rewrite (get_by_id_set_glossary _ _ _ _ _ Hg).
    + f_equal. eapply lookup_id_insert_first.
      * apply get_by_id_ref_Some in Hf as (l' & Hg'' & ? & ? & ?).
        rewrite Hg in Hg''. inversion Hg''; subst l'. by split_and!.
      * by rewrite updated_term_id.
    + apply Forall_insert; [done|].
      eapply has_id_of. by rewrite updated_term_id.
  - apply updated_term_updated.
  - intros x Hx. destruct (_save_data _ _).2; cbn in Hx; congruence.
Qed.

(** X5: when the ids of the collection are distinct, a record that
    [delete] removed is no longer found under its id, also when the
    write of the file failed and [delete] raised. *)
Theorem delete_then_get io id w l i t :
  getitem (data (db w)) k_glossary = Ok (VList l) →
  Forall (λ t, is_Some (field t k_id)) l →
  NoDup (term_ids l) →
  first_with_id l id i t →
  ∃ w' r, delete io id w = (w', r)
    ∧ get_by_id (db w') id = Ok VNone
    ∧ (∀ io', delete io' id w' = (w', Ok false)).
Proof.
  intros Hg Hl Hnd Hfirst.
  pose proof (get_by_id_ref_found _ _ _ _ _ Hg Hfirst) as Hf.
  destruct (delete_found io id w i t Hf) as (l' & Hg' & Hi & Hd).
  rewrite Hg in Hg'. inversion Hg'; subst l'. cbv zeta in Hd.
  rewrite Hd. eexists _, _. split; [done|]. cbn [db].
  destruct Hfirst as (_ & Hid & _).
  pose proof (term_ids_delete_unique _ _ _ _ Hnd Hi Hid) as Habs.
  assert (Forall (λ t, is_Some (field t k_id)) (base.delete i l)) as Hl'
    by by apply Forall_delete.
  split.
  - rewrite (get_by_id_set_glossary _ _ _ _ _ Hg) by done.
    f_equal. by apply lookup_id_absent.
  - intros io'. apply delete_not_found. cbn [db].
    erewrite get_by_id_ref_list by (cbn [data]; by eapply getitem_set_glossary).
    apply find_by_id_None. by apply absent_id.
Qed.

(** X6: [update] of an id that no record has returns [None] and leaves
    the store and the file as they were. *)
Theorem update_absent now io id u w l :
  getitem (data (db w)) k_glossary = Ok (VList l) →
  Forall (λ t, is_Some (field t k_id)) l →
  id ∉ term_ids l →
  update now io id u w = (w, Ok VNone).
Proof.
  intros Hg Hl Hn. apply update_not_found.
  rewrite (get_by_id_ref_list _ _ _ Hg).
  apply find_by_id_None. by apply absent_id.
Qed.

(** ** Requests that undo or repeat one another *)

Lemma dict_set_same d k v : dict_get d k = Some v → dict_set d k v = d.
Proof.
  induction d as [|[k0 v0] d IH]; [done|]. cbn.
  destruct (str_eqb k0 k) eqn:E.
  - by intros [= ->].
  - intros H. by rewrite IH.
Qed.

Lemma dict_set_set d k v v' : dict_set (dict_set d k v) k v' = dict_set d k v'.
Proof.
  induction d as [|[k0 v0] d IH]; cbn.
  - by rewrite str_eqb_refl.
  - destruct (str_eqb k0 k) eqn:E; cbn; rewrite E; [done|]. by rewrite IH.
Qed.

Lemma set_glossary_same d l :
  getitem d k_glossary = Ok (VList l) → set_glossary d l = d.
Proof.
  intros (kv & -> & Hkv)%getitem_Ok. cbn. by rewrite dict_set_same.
Qed.

Lemma set_glossary_twice d l1 l2 :
  set_glossary (set_glossary d l1) l2 = set_glossary d l2.
Proof. destruct d; try done. cbn. by rewrite dict_set_set. Qed.

Lemma apply_items_fixed d items :
  (∀ k x, (k, x) ∈ items → is_None x = false → dict_get d k = Some x) →
  apply_items d items = d.
Proof.
  induction items as [|[k x] items IH]; [done|]. intros H.
  rewrite apply_items_cons. destruct (is_None x) eqn:E.
  - apply IH. intros k' x' Hin. apply H. by right.
  - rewrite dict_set_same by (apply H; [left|done]).
    apply IH. intros k' x' Hin. apply H. by right.
Qed.

Lemma updated_at_not_settable : k_updated_at ∉ settable.
Proof. by vm_compute; intros H; repeat (inversion H as [|? ? ? H']; clear H; rename H' into H; subst). Qed.

Lemma updated_term_twice d now1 now2 u :
  updated_term
    (dict_set (apply_items d (model_dump_exclude_unset u))
       k_updated_at (VStr now1)) now2 u
  = updated_term d now2 u.
Proof.
  unfold updated_term. f_equal.
  rewrite apply_items_fixed; [apply dict_set_set|].
  intros k x Hin Hx.
  rewrite dict_get_set_ne.
  - apply apply_items_set; [apply model_dump_NoDup|done..].
  - intros <-. apply updated_at_not_settable, (model_dump_keys u).
    apply list_elem_of_fmap. by exists (k_updated_at, x).
Qed.

Lemma first_with_id_insert l id i t t' :
  first_with_id l id i t → term_id_of t' = Some id →
  first_with_id (<[i := t']> l) id i t'.
Proof.
  intros (Hi & Hid & Hbefore) Ht'. split_and!; [|done|].
  - apply list_lookup_insert_eq. by eapply lookup_lt_Some.
  - intros j t0 Hj Ht0. apply (Hbefore j); [done|].
    by rewrite list_lookup_insert_ne in Ht0 by lia.
Qed.

(** X7: repeating an [update] with the same fields changes nothing but
    [updated_at]: the store after the two updates is the store after the
    second one alone. *)
Theorem update_twice now1 now2 io1 io2 id u w l i t :
  getitem (data (db w)) k_glossary = Ok (VList l) →
  first_with_id l id i t →
  db (update now2 io2 id u (update now1 io1 id u w).1).1
  = db (update now2 io2 id u w).1.
Proof.
  intros Hg Hfirst.
  destruct (first_with_id_dict _ _ _ _ Hfirst) as [d ->].
  pose proof (get_by_id_ref_found _ _ _ _ _ Hg Hfirst) as Hf.
  destruct (update_found now1 io1 id u w i _ Hf)
    as (d1 & l1 & [= <-] & Hg1 & Hi & Hu1).
  destruct (update_found now2 io2 id u w i _ Hf)
    as (d2 & l2 & [= <-] & Hg2 & _ & Hu2).
  rewrite Hg in Hg1, Hg2. inversion Hg1; subst l1. inversion Hg2; subst l2.
  cbv zeta in Hu1, Hu2. rewrite Hu1, Hu2. cbn [fst db].
  set (w1 := {| db := _; disk := (_save_data io1 _).1 |}).
  assert (getitem (data (db w1)) k_glossary
          = Ok (VList (<[i := updated_term d now1 u]> l))) as Hgw
    by (cbn [w1 db data]; by eapply getitem_set_glossary).
  assert (first_with_id (<[i := updated_term d now1 u]> l) id i
            (updated_term d now1 u)) as Hfirst1.
  { apply (first_with_id_insert _ _ _ _ _ Hfirst).
    rewrite updated_term_id. by destruct Hfirst as (_ & ? & _). }
  pose proof (get_by_id_ref_found _ _ _ _ _ Hgw Hfirst1) as Hf1.
  destruct (update_found now2 io2 id u w1 i _ Hf1)
    as (d' & l' & Hd' & Hg' & _ & Hu').
  rewrite Hgw in Hg'. inversion Hg'; subst l'.
  unfold updated_term in Hd' at 1. inversion Hd'; subst d'.
  cbv zeta in Hu'. rewrite Hu'. cbn [fst db w1 data next_id].
  rewrite set_glossary_twice, list_insert_insert_eq, updated_term_twice. done.
Qed.

Lemma first_with_id_last l id t :
  Forall (λ t, is_Some (field t k_id)) l → id ∉ term_ids l →
  term_id_of t = Some id →
  first_with_id (l ++ [t]) id (length l) t.
Proof.
  intros Hl Hn Ht. split_and!; [|done|].
  - by rewrite list_lookup_middle.
  - intros j t' Hj Ht'. rewrite lookup_app_l in Ht' by done.
    pose proof (absent_id _ _ Hl Hn) as Ha.
    rewrite list.Forall_forall in Ha. apply Ha.
    by eapply list_elem_of_lookup_2.
Qed.

Lemma delete_last {A} (l : list A) x : base.delete (length l) (l ++ [x]) = l.
Proof.
  induction l as [|a l IH]; [done|].
  cbn [length app base.delete list_delete]. by f_equal.
Qed.

(** X8: deleting the record that [create] has just added gives back the
    document as it was before, whatever the two writes did; the counter
    stays advanced, so the id is not assigned again. *)
Theorem create_then_delete now1 now2 io1 io2 td w l :
  getitem (data (db w)) k_glossary = Ok (VList l) →
  ids_below (db w) →
  ∃ w1 r1 w2 r2,
    create now1 now2 io1 td w = (w1, r1)
    ∧ delete io2 (next_id (db w)) w1 = (w2, r2)
    ∧ data (db w2) = data (db w)
    ∧ next_id (db w2) = (next_id (db w) + 1)%Z.
Proof.
  intros Hg Hb. rewrite (create_list _ _ _ _ _ _ Hg). cbv zeta.
  eexists _, _. 
  set (term := new_term (next_id (db w)) now1 now2 td).
  set (w1 := {| db := _; disk := _ |}).
  pose proof (ids_below_has_id _ Hb) as Hl.
  pose proof (ids_below_fresh _ Hb) as Hfresh.
  rewrite (collection_eq _ _ Hg) in Hl, Hfresh.
  assert (getitem (data (db w1)) k_glossary = Ok (VList (l ++ [term]))) as Hg1
    by (cbn [w1 db data]; by eapply getitem_set_glossary).
  assert (first_with_id (l ++ [term]) (next_id (db w)) (length l) term) as Hfirst
    by (apply first_with_id_last; [done..|apply new_term_id]).
  pose proof (get_by_id_ref_found _ _ _ _ _ Hg1 Hfirst) as Hf.
  destruct (delete_found io2 _ w1 _ _ Hf) as (l' & Hg' & _ & Hd).
  rewrite Hg1 in Hg'. inversion Hg'; subst l'. cbv zeta in Hd.
  eexists _, _. split; [done|]. split; [exact Hd|].
  cbn [db data next_id w1]. split; [|done].
  by rewrite set_glossary_twice, delete_last, set_glossary_same.
Qed.

(** * A running process *)

Lemma save_data_raises io self e :
  (_save_data io self).2 = Raise e → e = OSError ∨ e = UnicodeEncodeError.
Proof.
  destruct (save_data_cases io self) as [[_ H]|[_ (e' & H & He)]];
    rewrite H; cbn; [done|]. by intros [= <-].
Qed.

Lemma serve_list rq w w' r l :
  getitem (data (db w)) k_glossary = Ok (VList l) →
  Forall (λ t, is_Some (field t k_id)) l →
  serve rq w = (w', r) →
  (∃ l', getitem (data (db w')) k_glossary = Ok (VList l'))
  ∧ (∀ e, raised r e → e = OSError ∨ e = UnicodeEncodeError).
Proof.
  intros Hg Hl Hs.
  destruct rq as [now1 now2 io td|now io tid u|io tid]; cbn [serve] in *.
  - rewrite (create_list _ _ _ _ _ _ Hg) in Hs. cbv zeta in Hs.
    inversion Hs; subst w' r; clear Hs. cbn [db data]. split.
    + eexists. by eapply getitem_set_glossary.
    + intros e He. cbn in He.
      destruct (_save_data io _).2 eqn:E; cbn in He; [done|].
      subst. by eapply save_data_raises.
  - destruct (find_by_id_total l tid 0 Hl) as [found Hf].
    rewrite <- (get_by_id_ref_list _ _ _ Hg) in Hf.
    destruct found as [[i t]|].
    + destruct (update_found now io tid u w i t Hf)
        as (d & l' & -> & Hg' & Hi & Hu).
      cbv zeta in Hu. rewrite Hu in Hs.
      inversion Hs; subst w' r; clear Hs. cbn [db data]. split.
      * eexists. by eapply getitem_set_glossary.
      * intros e He. cbn in He.
        destruct (_save_data io _).2 eqn:E; cbn in He; [done|].
        subst. by eapply save_data_raises.
    + rewrite (update_not_found _ _ _ _ _ Hf) in Hs.
      inversion Hs; subst. split; [by eexists|]. by intros e [].
  - destruct (find_by_id_total l tid 0 Hl) as [found Hf].
    rewrite <- (get_by_id_ref_list _ _ _ Hg) in Hf.
    destruct found as [[i t]|].
    + destruct (delete_found io tid w i t Hf) as (l' & Hg' & Hi & Hd).
      cbv zeta in Hd. rewrite Hd in Hs.
      inversion Hs; subst w' r; clear Hs. cbn [db data]. split.
      * eexists. by eapply getitem_set_glossary.
      * intros e He. cbn in He.
        destruct (_save_data io _).2 eqn:E; cbn in He; [done|].
        subst. by eapply save_data_raises.
    + rewrite (delete_not_found _ _ _ Hf) in Hs.
      inversion Hs; subst. split; [by eexists|]. by intros e [].
Qed.

Lemma run_list rqs w w' rs l :
  getitem (data (db w)) k_glossary = Ok (VList l) →
  ids_below (db w) →
  run rqs w = (w', rs) →
  (∃ l', getitem (data (db w')) k_glossary = Ok (VList l'))
  ∧ ids_below (db w')
  ∧ (∀ r e, r ∈ rs → raised r e → e = OSError ∨ e = UnicodeEncodeError).
Proof.
  revert w w' rs l. induction rqs as [|rq rqs IH]; intros w w' rs l Hg Hb Hr.
  { inversion Hr; subst. split_and!; [by eexists|done|].
    by intros r e ?%elem_of_nil. }
  rewrite run_cons in Hr. inversion Hr; subst w' rs; clear Hr.
  destruct (serve rq w) as [w1 r1] eqn:Hs. cbn [fst snd].
  destruct (run rqs w1) as [w2 rs2] eqn:Hr. cbn [fst snd].
  pose proof (ids_below_has_id _ Hb) as Hl.
  rewrite (collection_eq _ _ Hg) in Hl.
  destruct (serve_list _ _ _ _ _ Hg Hl Hs) as [[l1 Hg1] Hraise].
  destruct (serve_ids _ _ _ _ Hb Hs) as (Hb1 & _).
  destruct (IH _ _ _ _ Hg1 Hb1 Hr) as (Hg2 & Hb2 & Hraise2).
  split_and!; [done..|].
  intros r e [->|Hin]%elem_of_cons; [apply Hraise|by apply Hraise2].
Qed.

Lemma serve_raised rq w w' r l e :
  getitem (data (db w)) k_glossary = Ok (VList l) →
  Forall (λ t, is_Some (field t k_id)) l →
  serve rq w = (w', r) →
  raised r e →
  reaches_save rq (db w)
  ∧ (_save_data (env_of rq) (db w')).2 = Raise e.
Proof.
  intros Hg Hl Hs.
  destruct rq as [now1 now2 io td|now io tid u|io tid];
    cbn [serve reaches_save env_of] in *.
  - rewrite (create_list _ _ _ _ _ _ Hg) in Hs. cbv zeta in Hs.
    inversion Hs; subst w' r; clear Hs. cbn [db raised].
    intros He. split; [by eexists|].
    destruct (_save_data io _).2; cbn in He; [done|by subst].
  - destruct (find_by_id_total l tid 0 Hl) as [found Hf].
    rewrite <- (get_by_id_ref_list _ _ _ Hg) in Hf.
    destruct found as [[i t]|].
    + destruct (update_found now io tid u w i t Hf)
        as (d & l' & -> & Hg' & Hi & Hu).
      cbv zeta in Hu. rewrite Hu in Hs.
      inversion Hs; subst w' r; clear Hs. cbn [db raised].
      intros He. split; [by eexists _, _|].
      destruct (_save_data io _).2; cbn in He; [done|by subst].
    + rewrite (update_not_found _ _ _ _ _ Hf) in Hs.
      inversion Hs; subst. by intros [].
  - destruct (find_by_id_total l tid 0 Hl) as [found Hf].
    rewrite <- (get_by_id_ref_list _ _ _ Hg) in Hf.
    destruct found as [[i t]|].
    + destruct (delete_found io tid w i t Hf) as (l' & Hg' & Hi & Hd).
      cbv zeta in Hd. rewrite Hd in Hs.
      inversion Hs; subst w' r; clear Hs. cbn [db raised].
      intros He. split; [by eexists _, _|].
      destruct (_save_data io _).2; cbn in He; [done|by subst].
    + rewrite (delete_not_found _ _ _ Hf) in Hs.
      inversion Hs; subst. by intros [].
Qed.

(** X9: in a process that started from a document whose [glossary] is a
    list, at every state it reaches: lookups by id never raise, the
    listing returns a list, and a mutating request raises only when it
    has got as far as the write of the file and that write raises, with
    the exception of the write. The operations raise nothing of their
    own. *)
Theorem only_write_errors disk0 self l rqs w' rs rq w'' r :
  __init__ disk0 = Ok self →
  getitem (data self) k_glossary = Ok (VList l) →
  run rqs {| db := self; disk := disk0 |} = (w', rs) →
  serve rq w' = (w'', r) →
  (∀ e, raised r e →
     reaches_save rq (db w')
     ∧ (_save_data (env_of rq) (db w'')).2 = Raise e)
  ∧ (∀ id, ∃ t, get_by_id (db w') id = Ok t)
  ∧ (∃ l', get_all (db w') = Ok (VList l')).
Proof.
  intros Hinit Hg Hr Hs.
  destruct (init_spec _ _ Hinit) as [Hb _].
  destruct (run_list _ {| db := self; disk := disk0 |} _ _ _ Hg Hb Hr)
    as ([l' Hg'] & Hb' & _).
  assert (Forall (λ t, is_Some (field t k_id)) l') as Hl'.
  { rewrite <- (collection_eq _ _ Hg'). by apply ids_below_has_id. }
  split_and!; [|intros id|by exists l'].
  - intros e He. by eapply serve_raised.
  - exists (lookup_id l' id). by apply get_by_id_lookup.
Qed.

(** ** Restart *)

Lemma max_loop_total l m :
  Forall (λ t, is_Some (term_id_of t)) l →
  max_loop m l = Ok (foldr Z.max m (term_ids l)).
Proof.
  intros Hl. revert m. induction Hl as [|t l [n Hn] _ IH]; intros m; [done|].
  rewrite term_ids_cons, Hn. cbn [max_loop foldr].
  apply term_id_of_Some, getitem_field in Hn. rewrite Hn.
  cbn [mbind result_bind as_int]. rewrite IH. f_equal.
  rewrite <- foldr_max_init. f_equal.
  destruct (Z.gtb_spec n m); lia.
Qed.

Lemma get_next_id_total d l :
  getitem d k_glossary = Ok (VList l) →
  Forall (λ t, is_Some (term_id_of t)) l →
  _get_next_id d = Ok match term_ids l with
                      | [] => 1
                      | i :: ids => max_of i ids + 1
                      end%Z.
Proof.
  intros Hg Hl. unfold _get_next_id. rewrite Hg. cbn [mbind result_bind].
  destruct Hl as [|t l [n Hn] Hl]; [done|].
  cbn [py_truthy negb py_iter mbind result_bind max_id].
  rewrite term_ids_cons, Hn.
  apply term_id_of_Some, getitem_field in Hn. rewrite Hn.
  cbn [mbind result_bind as_int]. by rewrite max_loop_total.
Qed.

Lemma max_of_lt x xs n :
  (x < n)%Z → Forall (λ y, y < n)%Z xs → (max_of x xs < n)%Z.
Proof.
  intros Hx Hxs. unfold max_of. induction Hxs as [|y xs Hy _ IH]; [done|].
  cbn [foldr]. lia.
Qed.

Lemma next_id_bound (ids : list Z) n :
  Forall (λ y, y < n)%Z ids →
  (match ids with [] => 1 | i :: ids' => max_of i ids' + 1 end
   ≤ Z.max 1 n)%Z.
Proof.
  intros [|i ids' Hi Hids]; [lia|].
  pose proof (max_of_lt _ _ _ Hi Hids). lia.
Qed.

Lemma ids_below_int self :
  ids_below self → Forall (λ t, is_Some (term_id_of t)) (collection self).
Proof.
  intros Hb. eapply list.Forall_impl; [exact Hb|].
  intros t (i & Hi & _). by eexists.
Qed.

Lemma ids_below_all self :
  ids_below self → Forall (λ y, y < next_id self)%Z (term_ids (collection self)).
Proof.
  intros Hb. apply list.Forall_forall. intros i Hi. by apply ids_below_lt.
Qed.

Lemma serve_not_list rq w w' r :
  (∀ l, getitem (data (db w)) k_glossary ≠ Ok (VList l)) →
  serve rq w = (w', r) → w' = w.
Proof.
  intros Hn Hs.
  destruct rq as [now1 now2 io td|now io tid u|io tid]; cbn [serve] in Hs.
  - destruct (create_not_list now1 now2 io td w Hn) as [e He].
    rewrite He in Hs. by inversion Hs.
  - destruct (get_by_id_ref (db w) tid) as [[[i t]|]|e] eqn:Hf.
    + apply get_by_id_ref_Some in Hf as (l & Hg & _). by destruct (Hn l).
    + rewrite (update_not_found _ _ _ _ _ Hf) in Hs. by inversion Hs.
    + rewrite (update_raises _ _ _ _ _ _ Hf) in Hs. by inversion Hs.
  - destruct (get_by_id_ref (db w) tid) as [[[i t]|]|e] eqn:Hf.
    + apply get_by_id_ref_Some in Hf as (l & Hg & _). by destruct (Hn l).
    + rewrite (delete_not_found _ _ _ Hf) in Hs. by inversion Hs.
    + rewrite (delete_raises _ _ _ _ Hf) in Hs. by inversion Hs.
Qed.

Lemma run_not_list rqs w w' rs :
  (∀ l, getitem (data (db w)) k_glossary ≠ Ok (VList l)) →
  run rqs w = (w', rs) → w' = w.
Proof.
  revert w w' rs. induction rqs as [|rq rqs IH]; intros w w' rs Hn Hr.
  { by inversion Hr. }
  rewrite run_cons in Hr. inversion Hr; subst w' rs; clear Hr.
  destruct (serve rq w) as [w1 r1] eqn:Hs. cbn [fst].
  apply (serve_not_list _ _ _ _ Hn) in Hs as ->.
  destruct (run rqs w) as [w2 rs2] eqn:Hr. cbn [fst]. by eapply IH.
Qed.

Lemma init_next_id disk0 self :
  __init__ disk0 = Ok self → _get_next_id (data self) = Ok (next_id self).
Proof.
  unfold __init__. intros H. inv_bind H. by inversion H; subst.
Qed.

(** X10: when the file holds what is in memory, a restart loads the
    same document, and its counter is not ahead of the counter of the
    process that wrote the file (nor of 1, for an empty collection). *)
Theorem restart_counter disk0 self rqs w' rs :
  __init__ disk0 = Ok self →
  run rqs {| db := self; disk := disk0 |} = (w', rs) →
  disk w' = Some (json_dumps (data (db w'))) →
  ∃ self', __init__ (disk w') = Ok self'
    ∧ data self' = data (db w')
    ∧ (next_id self' ≤ Z.max 1 (next_id (db w')))%Z.
Proof.
  intros Hinit Hr Hdisk.
  pose proof (reachable_wf _ _ _ _ _ Hinit Hr) as Hwf.
  assert (∃ n, _get_next_id (data (db w')) = Ok n
               ∧ (n ≤ Z.max 1 (next_id (db w')))%Z) as (n & Hn & Hle).
  { destruct (init_spec _ _ Hinit) as [Hb _].
    destruct (getitem (data self) k_glossary) as [g|e] eqn:Hg.
    - destruct g as [| | |l|].
      4:{ destruct (run_list _ {| db := self; disk := disk0 |} _ _ _ Hg Hb Hr)
            as ([l' Hg'] & Hb' & _).
          eexists. split.
          - apply (get_next_id_total _ _ Hg').
            rewrite <- (collection_eq _ _ Hg'). by apply ids_below_int.
          - apply next_id_bound.
            rewrite <- (collection_eq _ _ Hg'). by apply ids_below_all. }
      all: apply run_not_list in Hr as ->; [|cbn [db]; by rewrite Hg];
        exists (next_id self); (split; [by eapply init_next_id|cbn; lia]).
    - apply run_not_list in Hr as ->; [|cbn [db]; by rewrite Hg].
      exists (next_id self). split; [by eapply init_next_id|cbn; lia]. }
  exists {| data := data (db w'); next_id := n |}.
  split_and!; [|done..].
  unfold __init__. rewrite Hdisk. cbn [_load_data].
  rewrite (json_loads_dumps _ Hwf). cbn [mbind result_bind]. by rewrite Hn.
Qed.

(** X11: after the record with the largest id was deleted and the file
    written, a restart computes a counter that is not above the deleted
    id: ids the earlier process had assigned are assigned again. *)
Theorem restart_reuses_id io id w l i t :
  wf_value (data (db w)) →
  getitem (data (db w)) k_glossary = Ok (VList l) →
  ids_below (db w) →
  NoDup (term_ids l) →
  first_with_id l id i t →
  (∀ j, j ∈ term_ids l → (j ≤ id)%Z) →
  (1 ≤ id)%Z →
  write_fails io (db (delete io id w).1) = false →
  ∃ self', __init__ (disk (delete io id w).1) = Ok self'
    ∧ collection self' = base.delete i l
    ∧ (next_id self' ≤ id < next_id (db w))%Z.
Proof.
  intros Hwf Hg Hb Hnd Hfirst Hmax Hpos.
  pose proof (get_by_id_ref_found _ _ _ _ _ Hg Hfirst) as Hf.
  destruct (delete_found io id w i t Hf) as (l' & Hg' & Hi & Hd).
  rewrite Hg in Hg'. inversion Hg'; subst l'. cbv zeta in Hd.
  assert (wf_value (data (db (delete io id w).1))) as Hwf'.
  { apply (serve_wf (ReqDelete io id) w _ (Deleted (delete io id w).2));
      [done|].
    cbn [serve]. by destruct (delete io id w). }
  revert Hwf'. rewrite Hd. cbn [fst db data disk]. intros Hwf' Hw.
  rewrite (save_data_ok _ _ Hw). cbn [fst].
  set (d' := set_glossary (data (db w)) (base.delete i l)) in *.
  assert (getitem d' k_glossary = Ok (VList (base.delete i l))) as Hgd
    by by eapply getitem_set_glossary.
  pose proof (ids_below_int _ Hb) as Hint.
  rewrite (collection_eq _ _ Hg) in Hint.
  destruct Hfirst as (_ & Hid & _).
  eexists. split_and!.
  - unfold __init__. cbn [_load_data data].
    rewrite (json_loads_dumps _ Hwf'). cbn [mbind result_bind].
    rewrite (get_next_id_total _ _ Hgd) by by apply Forall_delete.
    cbn [mbind result_bind]. reflexivity.
  - by apply collection_eq.
  - cbn [next_id].
    assert (Forall (λ y, y < id)%Z (term_ids (base.delete i l))) as Hlt.
    { apply list.Forall_forall. intros j Hj.
      assert (j ≠ id).
      { intros ->. by eapply term_ids_delete_unique. }
      assert (j ≤ id)%Z; [|lia].
      apply Hmax. eapply elem_of_sublist; [done|apply term_ids_delete]. }
    destruct Hlt as [|j ids Hj Hids]; [lia|].
    pose proof (max_of_lt _ _ _ Hj Hids). lia.
  - apply (ids_below_lt _ _ Hb). rewrite (collection_eq _ _ Hg).
    unfold term_ids. apply list_elem_of_omap. exists t.
    split; [by eapply list_elem_of_lookup_2|done].
Qed.

(** * Paging through the collection *)

Lemma page_eq self l skip limit :
  get_all self = Ok (VList l) →
  (0 ≤ skip)%Z → (1 ≤ limit ≤ 1000)%Z →
  page self skip limit = take (Z.to_nat limit) (drop (Z.to_nat skip) l).
Proof.
  intros Hg Hs Hl. unfold page, get_all_terms.
  change (default 0%Z (Some skip)) with skip.
  change (default 100%Z (Some limit)) with limit.
  replace ((0 <=? skip)%Z && (1 <=? limit)%Z && (limit <=? 1000)%Z)
    with true by (symmetry; rewrite !andb_true_iff, !Z.leb_le; lia).
  cbn [negb]. rewrite Hg. cbn [mbind result_bind py_slice py_len].
  cbn [reply_field response_data mbind option_bind field dict_get].
  rewrite (list_slice_nonneg l skip limit) by lia. reflexivity.
Qed.

Lemma walk_take self l limit k :
  get_all self = Ok (VList l) → (1 ≤ limit ≤ 1000)%Z →
  walk self limit k = take (k * Z.to_nat limit) l.
Proof.
  intros Hg Hl. unfold walk. induction k as [|k IH]; [done|].
  rewrite seq_S, fmap_app, concat_app, IH. cbn [fmap list_fmap concat plus].
  rewrite (page_eq _ _ _ _ Hg) by lia. rewrite app_nil_r.
  replace (Z.to_nat (Z.of_nat k * limit)) with (k * Z.to_nat limit)%nat by lia.
  rewrite take_take_drop. f_equal. lia.
Qed.

(** X12: a client that asks for the pages of [limit] records one after
    the other, [skip] going 0, [limit], 2 [limit], ..., gets the records
    of the collection in their order, each one once; after [k] pages it
    has the first [k * limit] of them, and all of them as soon as
    [k * limit] reaches the size of the collection. *)
Theorem walk_pages self l limit k :
  get_all self = Ok (VList l) →
  (1 ≤ limit ≤ 1000)%Z →
  walk self limit k = take (k * Z.to_nat limit) l
  ∧ ((Z.of_nat (length l) ≤ Z.of_nat k * limit)%Z → walk self limit k = l)
  ∧ page self (Z.of_nat k * limit) limit
    = take (Z.to_nat limit) (drop (k * Z.to_nat limit) l)
  ∧ ((Z.of_nat (length l) ≤ Z.of_nat k * limit)%Z →
     page self (Z.of_nat k * limit) limit = []).
Proof.
  intros Hg Hl.
  assert (page self (Z.of_nat k * limit) limit
          = take (Z.to_nat limit) (drop (k * Z.to_nat limit) l)) as Hp.
  { rewrite (page_eq _ _ _ _ Hg) by lia. do 2 f_equal. lia. }
  split_and!.
  - by apply walk_take.
  - intros Hk. rewrite (walk_take _ _ _ _ Hg Hl). apply take_ge. lia.
  - done.
  - intros Hk. rewrite Hp, drop_ge; [apply take_nil|lia].
Qed.

(** * More on search *)

Lemma occurs_in_refl a : occurs_in a a.
Proof. exists [], []. by rewrite app_nil_r. Qed.




Lemma filter_all {A} (f : A → bool) l :
  Forall (λ x, f x = true) l → List.filter f l = l.
Proof. induction 1 as [|x l Hx _ IH]; [done|]. cbn. by rewrite Hx, IH. Qed.

Lemma searchable_new_term n now1 now2 td : searchable (new_term n now1 now2 td).
Proof. split_and!; [by eexists..|]. right; right. by eexists. Qed.

Section search_more.
Variable lower : str → str.
Hypothesis lower_nil : lower [] = [].

Lemma search_list self keyword l :
  getitem (data self) k_glossary = Ok (VList l) →
  Forall searchable l →
  search lower self keyword
  = Ok (List.filter (term_matchesb lower keyword) l).
Proof.
  intros Hg Hl. unfold search. rewrite Hg. cbn [mbind result_bind py_iter].
  by apply search_loop_spec.
Qed.


(** X13: the empty keyword matches every record: [search] returns the
    whole collection. *)
Theorem search_empty_keyword self l :
  getitem (data self) k_glossary = Ok (VList l) →
  Forall searchable l →
  search lower self [] = Ok l.
Proof.
  intros Hg Hl. rewrite (search_list _ _ _ Hg Hl). f_equal.
  apply filter_all. eapply list.Forall_impl; [exact Hl|].
  intros t ([s Hs] & _). unfold term_matchesb, field_containsb.
  by rewrite Hs, lower_nil, str_in_nil.
Qed.


(** X15: a record that [create] has added is found by every keyword
    that occurs in its title, its definition or its category, case
    ignored. *)
Theorem create_then_search now1 now2 io td w l keyword :
  getitem (data (db w)) k_glossary = Ok (VList l) →
  Forall searchable l →
  contains_ci lower keyword (GlossaryTermCreate.title td)
  ∨ contains_ci lower keyword (GlossaryTermCreate.definition td)
  ∨ contains_ci lower keyword (GlossaryTermCreate.category td) →
  ∃ w' r results, create now1 now2 io td w = (w', r)
    ∧ search lower (db w') keyword = Ok results
    ∧ new_term (next_id (db w)) now1 now2 td ∈ results.
Proof.
  intros Hg Hl Hk. rewrite (create_list _ _ _ _ _ _ Hg). cbv zeta.
  eexists _, _, _. split; [done|]. cbn [db].
  set (term := new_term (next_id (db w)) now1 now2 td).
  split.
  - apply search_list.
    + cbn [data]. by eapply getitem_set_glossary.
    + apply Forall_app. split; [done|].
      constructor; [apply searchable_new_term|constructor].
  - apply list_elem_of_In, filter_In. split.
    + apply list_elem_of_In, elem_of_app. right. left.
    + apply term_matchesb_spec. unfold term_matches, field_contains.
      destruct Hk as [Hk|[Hk|Hk]]; [left|right; left|right; right];
        eexists; (split; [reflexivity|exact Hk]).
Qed.
End search_more.

(** * Statistics *)

Lemma key_eqb_eq a b : key_eqb a b = true → a = b.
Proof.
  destruct a, b; cbn; try done.
  - by intros ->%Z.eqb_eq.
  - by intros ->%str_eqb_true.
Qed.

Lemma key_eqb_refl a : hashable a = true → key_eqb a a = true.
Proof.
  destruct a; cbn; try done; intros _.
  - apply Z.eqb_refl.
  - apply str_eqb_refl.
Qed.

Lemma key_eqb_ne a b : a ≠ b → key_eqb a b = false.
Proof.
  intros Hne. destruct (key_eqb a b) eqn:E; [|done].
  by apply key_eqb_eq in E.
Qed.

Lemma counts_get_In acc k n : counts_get acc k = Some n → (k, n) ∈ acc.
Proof.
  induction acc as [|[k0 m] acc IH]; [done|]. cbn.
  destruct (key_eqb k0 k) eqn:E.
  - apply key_eqb_eq in E as ->. intros [= ->]. left.
  - intros H. right. by apply IH.
Qed.

Lemma counts_get_None acc k : counts_get acc k = None → k ∉ acc.*1 ∨ hashable k = false.
Proof.
  induction acc as [|[k0 m] acc IH]; [intros _; left; apply not_elem_of_nil|].
  cbn. destruct (key_eqb k0 k) eqn:E; [done|]. intros H.
  destruct (IH H) as [Hn|Hh]; [|by right].
  destruct (hashable k) eqn:Hk; [|by right]. left.
  intros [->|Hin]%elem_of_cons; [|done].
  by rewrite key_eqb_refl in E.
Qed.

Lemma counts_In_get acc k n :
  counts_ok acc → (k, n) ∈ acc → counts_get acc k = Some n.
Proof.
  intros [Hnd Hall]. induction acc as [|[k0 m] acc IH]; [by intros ?%elem_of_nil|].
  cbn in Hnd. apply list.NoDup_cons in Hnd as [Hk0 Hnd].
  apply list.Forall_cons in Hall as [[Hh _] Hall]. cbn in Hh.
  intros [[= -> ->]|Hin]%elem_of_cons; cbn.
  - by rewrite key_eqb_refl.
  - rewrite key_eqb_ne; [by apply IH|].
    intros ->. apply Hk0. apply list_elem_of_fmap. by exists (k, n).
Qed.

Lemma count_key_cons k t l :
  count_key k (t :: l)
  = ((if key_eqb (category_key t) k then 1 else 0) + count_key k l)%Z.
Proof.
  unfold count_key. cbn [List.filter].
  destruct (key_eqb (category_key t) k); cbn [length]; lia.
Qed.

Lemma count_key_nonneg k l : (0 ≤ count_key k l)%Z.
Proof. unfold count_key. lia. Qed.

(** One pass of the loop body over the counts. *)
Lemma counts_step acc k :
  counts_ok acc → hashable k = true →
  let acc' := counts_set acc k (count_of acc k + 1) in
  counts_ok acc'
  ∧ (∀ k', count_of acc' k'
           = (count_of acc k' + if key_eqb k k' then 1 else 0)%Z)
  ∧ k ∈ acc'.*1
  ∧ (∀ k', k' ∈ acc.*1 → k' ∈ acc'.*1)
  ∧ (∀ k', k' ∈ acc'.*1 → k' = k ∨ k' ∈ acc.*1)
  ∧ total_count acc' = (total_count acc + 1)%Z.
Proof.
  intros [Hnd Hall] Hk. unfold count_of, total_count.
  induction acc as [|[k0 m] acc IH]; cbn [counts_set counts_get].
  - cbn. split_and!.
    + split; [apply NoDup_singleton|]. constructor; [cbn; split; [done|lia]|constructor].
    + intros k'. cbn. destruct (key_eqb k k'); cbn; lia.
    + left.
    + by intros k' ?%elem_of_nil.
    + intros k' [->|?%elem_of_nil]%elem_of_cons; [by left|done].
    + done.
  - cbn in Hnd. apply list.NoDup_cons in Hnd as [Hk0 Hnd].
    apply list.Forall_cons in Hall as [[Hh Hm] Hall]. cbn in Hh, Hm.
    destruct (key_eqb k0 k) eqn:E.
    + apply key_eqb_eq in E as ->. cbn. split_and!.
      * split; [by constructor|]. constructor; [cbn; split; [done|lia]|done].
      * intros k'. cbn [counts_get].
        destruct (key_eqb k k'); cbn; lia.
      * left.
      * done.
      * intros k' Hin. by right.
      * cbn. lia.
    + destruct (IH Hnd Hall) as ([Hnd' Hall'] & Hget & Hin & Hsub & Hinv & Hsum).
      cbn. split_and!.
      * split; [|constructor; [done|done]].
        constructor; [|done]. intros Hin0.
        destruct (Hinv _ Hin0) as [Heq|?]; [|done].
        cbn in Heq. subst k0. by rewrite key_eqb_refl in E.
      * intros k'. cbn [counts_get].
        destruct (key_eqb k0 k') eqn:E'.
        -- apply key_eqb_eq in E' as ->.
           rewrite (key_eqb_ne k k'); [cbn; lia|].
           intros ->. by rewrite key_eqb_refl in E.
        -- apply Hget.
      * by right.
      * intros k' [->|Hin']%elem_of_cons; [left|right; by apply Hsub].
      * intros k' [->|Hin']%elem_of_cons; [right; left|].
        destruct (Hinv _ Hin') as [->|?]; [by left|right; by right].
      * cbn in Hsum |- *. lia.
Qed.

Lemma py_get_default_dict d key dflt :
  py_get_default (VDict d) key dflt = Ok (default dflt (dict_get d key)).
Proof. done. Qed.

Lemma categories_loop_spec acc l :
  counts_ok acc → Forall countable l →
  ∃ res, categories_loop acc l = Ok res
    ∧ counts_ok res
    ∧ (∀ k, count_of res k = (count_of acc k + count_key k l)%Z)
    ∧ (∀ k, k ∈ res.*1 ↔ k ∈ acc.*1 ∨ ∃ t, t ∈ l ∧ category_key t = k)
    ∧ total_count res = (total_count acc + Z.of_nat (length l))%Z.
Proof.
  intros Hacc Hl. revert acc Hacc.
  induction Hl as [|t l [[d ->] Hh] _ IH]; intros acc Hacc.
  - exists acc. split_and!; [done..| | |].
    + intros k. unfold count_key. cbn. lia.
    + intros k. split; [by left|]. intros [?|(t & ?%elem_of_nil & _)]; done.
    + cbn. lia.
  - cbn [categories_loop]. rewrite py_get_default_dict.
    cbn [mbind result_bind].
    change (default (VStr (lit "Unknown")) (dict_get d k_category))
      with (category_key (VDict d)).
    rewrite Hh.
    destruct (counts_step acc _ Hacc Hh)
      as (Hok & Hget & Hin & Hsub & Hinv & Hsum).
    destruct (IH _ Hok) as (res & Hres & Hok' & Hget' & Hkeys & Hsum').
    exists res. split_and!; [done..| | |].
    + intros k. rewrite Hget', Hget, count_key_cons. lia.
    + intros k. rewrite Hkeys. split.
      * intros [Hk|(t & Ht & Hk)].
        -- destruct (Hinv _ Hk) as [->|?]; [|by left].
           right. exists (VDict d). split; [left|done].
        -- right. exists t. split; [by right|done].
      * intros [Hk|(t & [->|Ht]%elem_of_cons & Hk)].
        -- left. by apply Hsub.
        -- left. by rewrite <- Hk.
        -- right. by exists t.
    + rewrite Hsum', Hsum. cbn [length]. lia.
Qed.

Lemma categories_loop_raises acc l :
  ¬ Forall countable l → categories_loop acc l = Raise ShapeError.
Proof.
  revert acc. induction l as [|t l IH]; intros acc Hn.
  { destruct Hn. constructor. }
  cbn [categories_loop]. destruct t as [| | | |d]; try done.
  rewrite py_get_default_dict. cbn [mbind result_bind].
  change (default (VStr (lit "Unknown")) (dict_get d k_category))
    with (category_key (VDict d)).
  destruct (hashable (category_key (VDict d))) eqn:Hh; [|done].
  apply IH. intros Hl. apply Hn. constructor; [|done].
  split; [by eexists|done].
Qed.

Lemma count_key_pos t l :
  t ∈ l → hashable (category_key t) = true →
  (1 ≤ count_key (category_key t) l)%Z.
Proof.
  intros Hin Hh. induction l as [|t0 l IH]; [by apply elem_of_nil in Hin|].
  rewrite count_key_cons. pose proof (count_key_nonneg (category_key t) l).
  apply elem_of_cons in Hin as [<-|Hin].
  - rewrite key_eqb_refl by done. lia.
  - specialize (IH Hin). destruct (key_eqb _ _); lia.
Qed.

(** X16: [get_statistics] on a collection of records it can count:
    [total_terms] is the size of the collection; [categories] holds each
    category that occurs once, with the number of records counted under
    it, where a record without the key [category] counts under
    [Unknown] and a record whose category is [null] under the key
    [None]; the counts add up to [total_terms], and [categories_count]
    is the number of entries. *)
Theorem get_statistics_spec self l :
  get_all self = Ok (VList l) →
  Forall countable l →
  ∃ st, get_statistics self = Ok st
    ∧ total_terms st = Z.of_nat (length l)
    ∧ categories_count st = Z.of_nat (length (categories st))
    ∧ NoDup (categories st).*1
    ∧ (∀ k n, (k, n) ∈ categories st ↔ n = count_key k l ∧ (1 ≤ n)%Z)
    ∧ (∀ t, t ∈ l → (category_key t, count_key (category_key t) l)
                      ∈ categories st)
    ∧ total_count (categories st) = total_terms st.
Proof.
  intros Hg Hl.
  assert (counts_ok []) as Hnil by (split; constructor).
  destruct (categories_loop_spec [] l Hnil Hl)
    as (res & Hres & Hok & Hget & Hkeys & Hsum).
  exists {| total_terms := Z.of_nat (length l); categories := res;
            categories_count := Z.of_nat (length res) |}.
  assert (∀ k n, (k, n) ∈ res ↔ n = count_key k l ∧ (1 ≤ n)%Z) as Hiff.
  { intros k n. split.
    - intros Hin. destruct Hok as [Hnd Hall].
      pose proof Hall as Hall'. rewrite list.Forall_forall in Hall'.
      destruct (Hall' _ Hin) as [_ Hn]. cbn in Hn. split; [|done].
      apply (counts_In_get _ _ _ (conj Hnd Hall)) in Hin.
      specialize (Hget k). unfold count_of in Hget. rewrite Hin in Hget.
      cbn in Hget. lia.
    - intros [-> Hn]. specialize (Hget k). unfold count_of in Hget.
      cbn [counts_get default] in Hget.
      destruct (counts_get res k) as [n|] eqn:E; cbn in Hget.
      + apply counts_get_In in E. replace (count_key k l) with n by lia. done.
      + lia. }
  unfold get_statistics. rewrite Hg.
  cbn [mbind result_bind py_iter py_len]. rewrite Hres.
  cbn [mbind result_bind]. split_and!; [done..|by destruct Hok|done| |].
  - intros t Ht. apply Hiff. split; [done|].
    apply count_key_pos; [done|].
    rewrite list.Forall_forall in Hl. by destruct (Hl _ Ht).
  - cbn [categories total_terms]. rewrite Hsum. unfold total_count. cbn. lia.
Qed.

(** X17: [get_statistics] raises as soon as one record is not a dict or
    has a list or a dict as its category, and only then. *)
Theorem get_statistics_raises self l :
  get_all self = Ok (VList l) →
  (is_ok (get_statistics self) = true ↔ Forall countable l)
  ∧ (¬ Forall countable l → get_statistics self = Raise ShapeError).
Proof.
  intros Hg.
  assert (¬ Forall countable l → get_statistics self = Raise ShapeError) as Hr.
  { intros Hn. unfold get_statistics. rewrite Hg.
    cbn [mbind result_bind py_iter]. by rewrite categories_loop_raises. }
  split; [|done]. split.
  - intros Hok.
    assert (Decision (Forall countable l)) as [?|Hn]; [|done|].
    { apply Forall_dec. intros t. unfold countable.
      destruct t; try (right; by intros [[? ?] _]).
      destruct (hashable (category_key (VDict d))) eqn:E.
      - left. split; [by eexists|done].
      - right. by intros [_ ?]. }
    by rewrite (Hr Hn) in Hok.
  - intros Hl.
    assert (counts_ok []) as Hnil by (split; constructor).
    destruct (categories_loop_spec [] l Hnil Hl) as (res & Hres & _).
    unfold get_statistics. rewrite Hg.
    cbn [mbind result_bind py_iter py_len]. by rewrite Hres.
Qed.

(** * The handlers of single records *)

Lemma found_truthy t i : term_id_of t = Some i → py_truthy t = true.
Proof.
  unfold term_id_of, field. destruct t as [| | | |d]; try done.
  by destruct d.
Qed.

(** X18: [get_term] answers 404, with the id in the detail, when no
    record has the id, and otherwise 200 with the first record that has
    it. *)
Theorem get_term_spec self l id :
  getitem (data self) k_glossary = Ok (VList l) →
  Forall (λ t, is_Some (field t k_id)) l →
  (id ∉ term_ids l →
     get_term self id
     = HTTPException 404
         (lit "Термин с ID " ++ repr_int id ++ lit " не найден"))
  ∧ (∀ i t, first_with_id l id i t →
       get_term self id
       = Returned (Reply 200 {| success := true;
                                message := lit "Термин найден";
                                response_data := Some t |})).
Proof.
  intros Hg Hl. unfold get_term. rewrite (get_by_id_lookup _ _ _ Hg Hl).
  split.
  - intros Hn. by rewrite lookup_id_absent.
  - intros i t Hfirst. rewrite (lookup_id_first _ _ _ _ Hfirst).
    destruct Hfirst as (_ & Hid & _). by rewrite (found_truthy _ _ Hid).
Qed.

Lemma delete_present io id w l i t :
  getitem (data (db w)) k_glossary = Ok (VList l) →
  Forall (λ t, is_Some (field t k_id)) l →
  NoDup (term_ids l) →
  first_with_id l id i t →
  ∃ w' r, delete io id w = (w', r)
    ∧ collection (db w') = base.delete i l
    ∧ (write_fails io (db w') = false → r = Ok true)
    ∧ (write_fails io (db w') = true →
       ∃ e, r = Raise e ∧ (e = OSError ∨ e = UnicodeEncodeError))
    ∧ (∀ io', delete io' id w' = (w', Ok false)).
Proof.
  intros Hg Hl Hnd Hfirst.
  pose proof (get_by_id_ref_found _ _ _ _ _ Hg Hfirst) as Hf.
  destruct (delete_found io id w i t Hf) as (l' & Hg' & Hi & Hd).
  rewrite Hg in Hg'. inversion Hg'; subst l'. cbv zeta in Hd.
  rewrite Hd. eexists _, _. split; [done|]. cbn [db].
  destruct Hfirst as (_ & Hid & _).
  pose proof (term_ids_delete_unique _ _ _ _ Hnd Hi Hid) as Habs.
  split_and!.
  - by eapply collection_set_glossary.
  - intros Hw. by rewrite (save_data_ok _ _ Hw).
  - intros Hw. destruct (save_data_fails _ _ Hw) as [e He].
    exists e. split; [by rewrite He|].
    eapply save_data_raises. by rewrite He.
  - intros io'. apply delete_not_found. cbn [db].
    erewrite get_by_id_ref_list by (cbn [data]; by eapply getitem_set_glossary).
    apply find_by_id_None. apply absent_id; [by apply Forall_delete|done].
Qed.

(** X19: [delete_term] of a record that is there answers 200 when the
    file was written and 500 when the write failed; in both cases the
    record is gone, and asking again answers 404 and changes nothing. *)
Theorem delete_term_retry io id w l i t :
  getitem (data (db w)) k_glossary = Ok (VList l) →
  Forall (λ t, is_Some (field t k_id)) l →
  NoDup (term_ids l) →
  first_with_id l id i t →
  ∃ w' r, delete_term io id w = (w', r)
    ∧ collection (db w') = base.delete i l
    ∧ (write_fails io (db w') = false →
       r = Returned (Reply 200 {|
             success := true;
             message := lit "Термин успешно удален";
             response_data := Some (VDict [(k_deleted_id, VInt id)]) |}))
    ∧ (write_fails io (db w') = true →
       ∃ e, r = Returned (ServerError e)
            ∧ (e = OSError ∨ e = UnicodeEncodeError))
    ∧ (∀ io', delete_term io' id w' = (w', not_found id)).
Proof.
  intros Hg Hl Hnd Hfirst.
  destruct (delete_present io id w l i t Hg Hl Hnd Hfirst)
    as (w' & r & Hd & Hc & Hok & Hfail & Hagain).
  unfold delete_term. rewrite Hd. eexists _, _. split; [done|].
  split_and!; [done|..].
  - intros Hw. by rewrite (Hok Hw).
  - intros Hw. destruct (Hfail Hw) as (e & -> & He). by exists e.
  - intros io'. by rewrite Hagain.
Qed.

(** X20: [update_term] with a body that passes validation answers 404
    and changes nothing when no record has the id; when a record has it,
    the record is replaced in the collection, and the reply is 200 with
    the updated record when the file was written. *)
Theorem update_term_spec now io id body u w l :
  validate_update body = Some u →
  getitem (data (db w)) k_glossary = Ok (VList l) →
  Forall (λ t, is_Some (field t k_id)) l →
  (id ∉ term_ids l → update_term now io id body w = (w, not_found id))
  ∧ (∀ i d, first_with_id l id i (VDict d) →
       ∃ w' r, update_term now io id body w = (w', r)
         ∧ collection (db w') = <[i := updated_term d now u]> l
         ∧ (write_fails io (db w') = false →
            r = Returned (Reply 200 {|
                  success := true;
                  message := lit "Термин успешно обновлен";
                  response_data := Some (updated_term d now u) |}))).
Proof.
  intros Hv Hg Hl. unfold update_term. rewrite Hv. split.
  - intros Hn. rewrite update_not_found; [done|].
    rewrite (get_by_id_ref_list _ _ _ Hg).
    apply find_by_id_None. by apply absent_id.
  - intros i d Hfirst.
    destruct (update_at now io id u w l i d Hg Hfirst)
      as (w' & r & Hu & Hc & _ & Hok).
    rewrite Hu. eexists _, _. split; [done|]. split; [done|].
    intros Hw. destruct (Hok Hw) as [-> _].
    rewrite (found_truthy _ id); [done|].
    rewrite updated_term_id. by destruct Hfirst as (_ & ? & _).
Qed.

(** ** Records that came in through the handlers *)

Lemma bounded_str_Some lo hi v s :
  bounded_str lo hi v = Some s → v = VStr s ∧ len_between lo hi s = true.
Proof.
  unfold bounded_str. destruct v; try done. cbn.
  destruct (len_between lo hi s0) eqn:E; [|done]. by intros [= ->].
Qed.

Lemma optional_field_bounded lo hi b k s :
  optional_field (bounded_str lo hi) b k = Some (Some (Some s)) →
  len_between lo hi s = true.
Proof.
  unfold optional_field. destruct (dict_get b k) as [v|]; [|done].
  destruct v; try done; cbn.
  destruct (len_between lo hi s0) eqn:E; cbn; [|done]. by intros [= <-].
Qed.

Lemma validate_create_bounds body td :
  validate_create body = Some td →
  len_between 1 100 (GlossaryTermCreate.title td) = true
  ∧ len_between 10 2000 (GlossaryTermCreate.definition td) = true.
Proof.
  unfold validate_create. destruct body as [| | | |b]; try done.
  destruct (dict_get b k_title ≫= bounded_str 1 100) as [t|] eqn:Et; [|done].
  destruct (dict_get b k_definition ≫= bounded_str 10 2000) as [d|] eqn:Ed;
    [|done].
  cbn [mbind option_bind].
  destruct (match dict_get b k_category with
            | Some v => as_str v | None => Some (lit "General") end); [|done].
  destruct (optional_field as_str_list b k_examples); [|done].
  destruct (optional_field as_str_list b k_related_terms); [|done].
  destruct (optional_field as_str b k_source); [|done].
  cbn. intros [= <-]. cbn.
  destruct (dict_get b k_title) as [vt|]; [|done].
  destruct (dict_get b k_definition) as [vd|]; [|done].
  cbn in Et, Ed.
  apply bounded_str_Some in Et as [_ ?], Ed as [_ ?]. done.
Qed.

Lemma validate_update_bounds body u :
  validate_update body = Some u →
  (∀ s, GlossaryTermUpdate.title u = Some (Some s) →
        len_between 1 100 s = true)
  ∧ (∀ s, GlossaryTermUpdate.definition u = Some (Some s) →
          len_between 10 2000 s = true).
Proof.
  unfold validate_update. destruct body as [| | | |b]; try done.
  destruct (optional_field (bounded_str 1 100) b k_title) as [t|] eqn:Et;
    [|done].
  destruct (optional_field (bounded_str 10 2000) b k_definition) as [d|] eqn:Ed;
    [|done].
  destruct (optional_field as_str b k_category); [|done].
  destruct (optional_field as_str_list b k_examples); [|done].
  destruct (optional_field as_str_list b k_related_terms); [|done].
  destruct (optional_field as_str b k_source); [|done].
  cbn. intros [= <-]. cbn. split; intros s ->.
  - by eapply optional_field_bounded.
  - by eapply optional_field_bounded.
Qed.

Lemma valid_new_term n now1 now2 td :
  len_between 1 100 (GlossaryTermCreate.title td) = true →
  len_between 10 2000 (GlossaryTermCreate.definition td) = true →
  valid_record (new_term n now1 now2 td).
Proof. intros Ht Hd. split_and!; by eexists. Qed.

(** The field [key] of the update, as [model_dump] shows it. *)
Lemma model_dump_In u k x :
  (k, x) ∈ model_dump_exclude_unset u ↔
  (k, x) ∈ dump_field k_title VStr (GlossaryTermUpdate.title u)
  ∨ (k, x) ∈ dump_field k_definition VStr (GlossaryTermUpdate.definition u)
  ∨ (k, x) ∈ dump_field k_category VStr (GlossaryTermUpdate.category u)
  ∨ (k, x) ∈ dump_field k_examples str_list (GlossaryTermUpdate.examples u)
  ∨ (k, x) ∈ dump_field k_related_terms str_list
               (GlossaryTermUpdate.related_terms u)
  ∨ (k, x) ∈ dump_field k_source VStr (GlossaryTermUpdate.source u).
Proof. unfold model_dump_exclude_unset. by rewrite !elem_of_app. Qed.

Lemma dump_field_In {A} key (conv : A → value) f k x :
  (k, x) ∈ dump_field key conv f →
  k = key ∧ (f = Some None ∧ x = VNone ∨ ∃ a, f = Some (Some a) ∧ x = conv a).
Proof.
  destruct f as [[a|]|]; cbn.
  - intros [[= -> ->]|?%elem_of_nil]%elem_of_cons; [|done]. eauto.
  - intros [[= -> ->]|?%elem_of_nil]%elem_of_cons; [|done]. eauto.
  - by intros ?%elem_of_nil.
Qed.

(** What [update] leaves in a text field of the record: the text of the
    update when it gives one, the old value otherwise. *)
Lemma updated_text_field d now u key (f : option (option str)) :
  key ∈ [k_title; k_definition; k_category] →
  (∀ x, (key, x) ∈ model_dump_exclude_unset u ↔
        (key, x) ∈ dump_field key VStr f) →
  field (updated_term d now u) key
  = match f with
    | Some (Some s) => Some (VStr s)
    | _ => dict_get d key
    end.
Proof.
  intros Hkey Hitems. unfold updated_term, field.
  rewrite dict_get_set_ne.
  2:{ intros <-. revert Hkey. vm_compute.
      intros H. repeat (inversion H as [|? ? ? H']; clear H; rename H' into H; subst). }
  destruct f as [[s|]|].
  - apply apply_items_set; [apply model_dump_NoDup| |done].
    apply Hitems. left.
  - apply apply_items_null. intros x Hx%Hitems.
    apply elem_of_cons in Hx as [[= ->]|?%elem_of_nil]; done.
  - apply apply_items_null. intros x Hx%Hitems. by apply elem_of_nil in Hx.
Qed.

Ltac other_key H :=
  apply dump_field_In in H as [H _]; vm_compute in H; discriminate H.

Lemma model_dump_title u x :
  (k_title, x) ∈ model_dump_exclude_unset u ↔
  (k_title, x) ∈ dump_field k_title VStr (GlossaryTermUpdate.title u).
Proof.
  rewrite model_dump_In. split; [|by left].
  intros [H|[H|[H|[H|[H|H]]]]]; [done|other_key H..].
Qed.

Lemma model_dump_definition u x :
  (k_definition, x) ∈ model_dump_exclude_unset u ↔
  (k_definition, x)
    ∈ dump_field k_definition VStr (GlossaryTermUpdate.definition u).
Proof.
  rewrite model_dump_In. split; [|by right; left].
  intros [H|[H|[H|[H|[H|H]]]]]; [other_key H|done|other_key H..].
Qed.

Lemma model_dump_category u x :
  (k_category, x) ∈ model_dump_exclude_unset u ↔
  (k_category, x) ∈ dump_field k_category VStr (GlossaryTermUpdate.category u).
Proof.
  rewrite model_dump_In. split; [|by right; right; left].
  intros [H|[H|[H|[H|[H|H]]]]];
    [other_key H|other_key H|done|other_key H..].
Qed.

Lemma valid_updated_term d now body u :
  validate_update body = Some u →
  valid_record (VDict d) → valid_record (updated_term d now u).
Proof.
  intros [Ht Hd]%validate_update_bounds ((t & Ht0 & Hlt) & (df & Hd0 & Hld) & (c & Hc0)).
  unfold valid_record.
  rewrite (updated_text_field d now u k_title (GlossaryTermUpdate.title u))
    by first [apply model_dump_title | repeat constructor].
  rewrite (updated_text_field d now u k_definition
             (GlossaryTermUpdate.definition u))
    by first [apply model_dump_definition | repeat constructor].
  rewrite (updated_text_field d now u k_category
             (GlossaryTermUpdate.category u))
    by first [apply model_dump_category | repeat constructor].
  cbn [field] in Ht0, Hd0, Hc0. split_and!.
  - destruct (GlossaryTermUpdate.title u) as [[s|]|]; eauto.
  - destruct (GlossaryTermUpdate.definition u) as [[s|]|]; eauto.
  - destruct (GlossaryTermUpdate.category u) as [[s|]|]; eauto.
Qed.

Lemma valid_searchable t : valid_record t → searchable t.
Proof.
  intros ((s & Hs & _) & (s' & Hs' & _) & (c & Hc)).
  split_and!; [by eexists..|]. right; right. by eexists.
Qed.

Lemma valid_countable t : valid_record t → countable t.
Proof.
  intros (_ & _ & (c & Hc)). unfold countable, category_key. rewrite Hc.
  split; [|done]. destruct t; try done. by eexists.
Qed.

(** X21: the length limits of the request models hold for the whole
    collection as long as it is changed through the handlers: if every
    record has a title of 1 to 100 characters, a definition of 10 to
    2000 and a text as category, so has every record after
    [create_term], [update_term] or [delete_term], whatever the body
    and whatever the write of the file does. Such records are ones that
    [search] and [get_statistics] accept. *)
Theorem handlers_keep_records_valid w :
  Forall valid_record (collection (db w)) →
  (∀ now1 now2 io body,
     Forall valid_record
       (collection (db (create_term now1 now2 io body w).1)))
  ∧ (∀ now io id body,
       Forall valid_record
         (collection (db (update_term now io id body w).1)))
  ∧ (∀ io id,
       Forall valid_record (collection (db (delete_term io id w).1)))
  ∧ Forall searchable (collection (db w))
  ∧ Forall countable (collection (db w)).
Proof.
  intros Hw. split_and!.
  - intros now1 now2 io body. unfold create_term.
    destruct (validate_create body) as [td|] eqn:Hv; [|done].
    apply validate_create_bounds in Hv as [Ht Hd].
    destruct (create now1 now2 io td w) as [w' r] eqn:Hc. cbn [fst].
    destruct (serve_collection (ReqCreate now1 now2 io td) w w' (Created r))
      as [->|[(? & ? & ? & ? & [= <- <- <- <-] & ->)|
              [(? & ? & ? & ? & ? & ? & ? & _)|(? & ? & ? & ? & _)]]];
      [by cbn [serve]; rewrite Hc|done| |done..].
    apply Forall_app. split; [done|].
    constructor; [by apply valid_new_term|constructor].
  - intros now io id body. unfold update_term.
    destruct (validate_update body) as [u|] eqn:Hv; [|done].
    destruct (update now io id u w) as [w' r] eqn:Hu. cbn [fst].
    destruct (serve_collection (ReqUpdate now io id u) w w' (Updated r))
      as [->|[(? & ? & ? & ? & ? & _)|
              [(? & ? & ? & ? & i & d & [= <- <- <- <-] & Hi & ->)|
               (? & ? & ? & ? & _)]]];
      [by cbn [serve]; rewrite Hu|done|done| |done].
    apply Forall_insert; [done|].
    apply (valid_updated_term _ _ _ _ Hv).
    rewrite list.Forall_forall in Hw. apply Hw.
    by eapply list_elem_of_lookup_2.
  - intros io id. unfold delete_term.
    destruct (delete io id w) as [w' r] eqn:Hd. cbn [fst].
    destruct (serve_collection (ReqDelete io id) w w' (Deleted r))
      as [->|[(? & ? & ? & ? & ? & _)|
              [(? & ? & ? & ? & ? & ? & ? & _)|
               (? & ? & i & [= <- <-] & ->)]]];
      [by cbn [serve]; rewrite Hd|done|done|done|].
    by apply Forall_delete.
  - eapply list.Forall_impl; [exact Hw|]. apply valid_searchable.
  - eapply list.Forall_impl; [exact Hw|]. apply valid_countable.
Qed.

(** ** The further statements at a concrete store *)

Lemma two_terms_glossary :
  getitem (data (db two_terms)) k_glossary
  = Ok (VList [oracle_term; blockchain_term]).
Proof. reflexivity. Qed.

Lemma two_terms_have_ids :
  Forall (λ t, is_Some (field t k_id)) [oracle_term; blockchain_term].
Proof. repeat constructor; by eexists. Qed.

Lemma two_terms_ids_below : ids_below (db two_terms).
Proof.
  unfold ids_below. rewrite (collection_eq _ _ two_terms_glossary).
  repeat constructor; eexists; (split; [reflexivity|done]).
Qed.

Lemma two_terms_unique : NoDup (term_ids [oracle_term; blockchain_term]).
Proof. change (NoDup [1; 2]%Z). compute_done. Qed.

Lemma first_blockchain :
  first_with_id [oracle_term; blockchain_term] 2 1 blockchain_term.
Proof.
  split_and!; [done..|]. intros [|j] t Hj Ht; [|lia].
  cbn in Ht. inversion Ht; subst t.
  eexists. split; [reflexivity|done].
Qed.

Lemma two_terms_init : __init__ (disk two_terms) = Ok (db two_terms).
Proof. vm_compute. reflexivity. Qed.

Lemma two_terms_valid : Forall valid_record (collection (db two_terms)).
Proof.
  rewrite (collection_eq _ _ two_terms_glossary).
  repeat constructor; eexists; (split; [reflexivity|by vm_compute]) || reflexivity.
Qed.

Lemma get_by_id_spec_witness :
  getitem (data (db two_terms)) k_glossary
  = Ok (VList [oracle_term; blockchain_term])
  ∧ Forall (λ t, is_Some (field t k_id)) [oracle_term; blockchain_term]
  ∧ ∃ r, get_by_id (db two_terms) 2 = Ok r
      ∧ (2%Z ∉ term_ids [oracle_term; blockchain_term] → r = VNone)
      ∧ (2%Z ∈ term_ids [oracle_term; blockchain_term] →
         ∃ i, first_with_id [oracle_term; blockchain_term] 2 i r)
      ∧ (∀ i t, first_with_id [oracle_term; blockchain_term] 2 i t → r = t).
Proof.
  split; [exact two_terms_glossary|]. split; [exact two_terms_have_ids|].
  exact (get_by_id_spec _ _ 2 two_terms_glossary two_terms_have_ids).
Defined.

Lemma serve_frame_witness :
  getitem (data (db two_terms)) k_glossary
  = Ok (VList [oracle_term; blockchain_term])
  ∧ Forall (λ t, is_Some (field t k_id)) [oracle_term; blockchain_term]
  ∧ serve (ReqDelete io_ok 1) two_terms
    = ((serve (ReqDelete io_ok 1) two_terms).1,
       (serve (ReqDelete io_ok 1) two_terms).2)
  ∧ 2%Z ≠ target (ReqDelete io_ok 1) (db two_terms)
  ∧ get_by_id (db (serve (ReqDelete io_ok 1) two_terms).1) 2
    = get_by_id (db two_terms) 2.
Proof.
  assert (serve (ReqDelete io_ok 1) two_terms
          = ((serve (ReqDelete io_ok 1) two_terms).1,
             (serve (ReqDelete io_ok 1) two_terms).2)) as Hs
    by reflexivity.
  assert (2%Z ≠ target (ReqDelete io_ok 1) (db two_terms)) as Hne by done.
  split; [exact two_terms_glossary|]. split; [exact two_terms_have_ids|].
  split; [exact Hs|]. split; [exact Hne|].
  exact (serve_frame _ _ _ _ _ 2 two_terms_glossary two_terms_have_ids Hs Hne).
Defined.

Lemma create_then_get_witness :
  getitem (data (db two_terms)) k_glossary
  = Ok (VList [oracle_term; blockchain_term])
  ∧ ids_below (db two_terms)
  ∧ ∃ w' r, create (clock 5) (clock 6) io_fault oracle two_terms = (w', r)
      ∧ get_by_id (db w') (next_id (db two_terms))
        = Ok (new_term (next_id (db two_terms)) (clock 5) (clock 6) oracle)
      ∧ (∀ t, r = Ok t → get_by_id (db w') (next_id (db two_terms)) = Ok t).
Proof.
  split; [exact two_terms_glossary|]. split; [exact two_terms_ids_below|].
  exact (create_then_get (clock 5) (clock 6) io_fault oracle _ _
           two_terms_glossary two_terms_ids_below).
Defined.

Lemma update_then_get_witness :
  getitem (data (db two_terms)) k_glossary
  = Ok (VList [oracle_term; blockchain_term])
  ∧ Forall (λ t, is_Some (field t k_id)) [oracle_term; blockchain_term]
  ∧ first_with_id [oracle_term; blockchain_term] 1 0 oracle_term
  ∧ ∃ w' r t', update (clock 7) io_ok 1 null_source two_terms = (w', r)
      ∧ get_by_id (db w') 1 = Ok t'
      ∧ field t' k_updated_at = Some (VStr (clock 7))
      ∧ (∀ x, r = Ok x → x = t').
Proof.
  split; [exact two_terms_glossary|]. split; [exact two_terms_have_ids|].
  split; [exact first_oracle|].
  exact (update_then_get (clock 7) io_ok 1 null_source _ _ _ _
           two_terms_glossary two_terms_have_ids first_oracle).
Defined.

Lemma delete_then_get_witness :
  getitem (data (db two_terms)) k_glossary
  = Ok (VList [oracle_term; blockchain_term])
  ∧ Forall (λ t, is_Some (field t k_id)) [oracle_term; blockchain_term]
  ∧ NoDup (term_ids [oracle_term; blockchain_term])
  ∧ first_with_id [oracle_term; blockchain_term] 1 0 oracle_term
  ∧ ∃ w' r, delete io_fault 1 two_terms = (w', r)
      ∧ get_by_id (db w') 1 = Ok VNone
      ∧ (∀ io', delete io' 1 w' = (w', Ok false)).
Proof.
  split; [exact two_terms_glossary|]. split; [exact two_terms_have_ids|].
  split; [exact two_terms_unique|]. split; [exact first_oracle|].
  exact (delete_then_get io_fault 1 _ _ _ _
           two_terms_glossary two_terms_have_ids two_terms_unique first_oracle).
Defined.

Lemma seven_absent : 7%Z ∉ term_ids [oracle_term; blockchain_term].
Proof. change (7%Z ∉ [1; 2]%Z). compute_done. Qed.

Lemma update_absent_witness :
  getitem (data (db two_terms)) k_glossary
  = Ok (VList [oracle_term; blockchain_term])
  ∧ Forall (λ t, is_Some (field t k_id)) [oracle_term; blockchain_term]
  ∧ (7%Z ∉ term_ids [oracle_term; blockchain_term])
  ∧ update (clock 7) io_ok 7 null_source two_terms = (two_terms, Ok VNone).
Proof.
  split; [exact two_terms_glossary|]. split; [exact two_terms_have_ids|].
  split; [exact seven_absent|].
  exact (update_absent (clock 7) io_ok 7 null_source _ _
           two_terms_glossary two_terms_have_ids seven_absent).
Defined.

Lemma update_twice_witness :
  getitem (data (db two_terms)) k_glossary
  = Ok (VList [oracle_term; blockchain_term])
  ∧ first_with_id [oracle_term; blockchain_term] 1 0 oracle_term
  ∧ db (update (clock 8) io_ok 1 null_source
          (update (clock 7) io_ok 1 null_source two_terms).1).1
    = db (update (clock 8) io_ok 1 null_source two_terms).1.
Proof.
  split; [exact two_terms_glossary|]. split; [exact first_oracle|].
  exact (update_twice (clock 7) (clock 8) io_ok io_ok 1 null_source _ _ _ _
           two_terms_glossary first_oracle).
Defined.

Lemma create_then_delete_witness :
  getitem (data (db two_terms)) k_glossary
  = Ok (VList [oracle_term; blockchain_term])
  ∧ ids_below (db two_terms)
  ∧ ∃ w1 r1 w2 r2,
      create (clock 5) (clock 6) io_ok oracle two_terms = (w1, r1)
      ∧ delete io_ok (next_id (db two_terms)) w1 = (w2, r2)
      ∧ data (db w2) = data (db two_terms)
      ∧ next_id (db w2) = (next_id (db two_terms) + 1)%Z.
Proof.
  split; [exact two_terms_glossary|]. split; [exact two_terms_ids_below|].
  exact (create_then_delete (clock 5) (clock 6) io_ok io_ok oracle _ _
           two_terms_glossary two_terms_ids_below).
Defined.

Lemma busy_day_run :
  run busy_day {| db := db two_terms; disk := disk two_terms |}
  = ((run busy_day two_terms).1, (run busy_day two_terms).2).
Proof. reflexivity. Qed.

Lemma busy_day_then_create :
  serve (ReqCreate (clock 9) (clock 9) io_fault oracle)
    (run busy_day two_terms).1
  = ((serve (ReqCreate (clock 9) (clock 9) io_fault oracle)
        (run busy_day two_terms).1).1,
     (serve (ReqCreate (clock 9) (clock 9) io_fault oracle)
        (run busy_day two_terms).1).2).
Proof. reflexivity. Qed.

Lemma only_write_errors_witness :
  __init__ (disk two_terms) = Ok (db two_terms)
  ∧ getitem (data (db two_terms)) k_glossary
    = Ok (VList [oracle_term; blockchain_term])
  ∧ run busy_day {| db := db two_terms; disk := disk two_terms |}
    = ((run busy_day two_terms).1, (run busy_day two_terms).2)
  ∧ serve (ReqCreate (clock 9) (clock 9) io_fault oracle)
      (run busy_day two_terms).1
    = ((serve (ReqCreate (clock 9) (clock 9) io_fault oracle)
          (run busy_day two_terms).1).1,
       (serve (ReqCreate (clock 9) (clock 9) io_fault oracle)
          (run busy_day two_terms).1).2)
  ∧ (∀ e, raised (serve (ReqCreate (clock 9) (clock 9) io_fault oracle)
                    (run busy_day two_terms).1).2 e →
       reaches_save (ReqCreate (clock 9) (clock 9) io_fault oracle)
         (db (run busy_day two_terms).1)
       ∧ (_save_data
            (env_of (ReqCreate (clock 9) (clock 9) io_fault oracle))
            (db (serve (ReqCreate (clock 9) (clock 9) io_fault oracle)
                   (run busy_day two_terms).1).1)).2
         = Raise e)
  ∧ (∀ id, ∃ t, get_by_id (db (run busy_day two_terms).1) id = Ok t)
  ∧ (∃ l', get_all (db (run busy_day two_terms).1) = Ok (VList l')).
Proof.
  split; [exact two_terms_init|]. split; [exact two_terms_glossary|].
  split; [exact busy_day_run|]. split; [exact busy_day_then_create|].
  exact (only_write_errors _ _ _ _ _ _ _ _ _
           two_terms_init two_terms_glossary busy_day_run
           busy_day_then_create).
Defined.

Lemma busy_day_saved :
  disk (run busy_day two_terms).1
  = Some (json_dumps (data (db (run busy_day two_terms).1))).
Proof. vm_compute. reflexivity. Qed.

Lemma restart_counter_witness :
  __init__ (disk two_terms) = Ok (db two_terms)
  ∧ run busy_day {| db := db two_terms; disk := disk two_terms |}
    = ((run busy_day two_terms).1, (run busy_day two_terms).2)
  ∧ disk (run busy_day two_terms).1
    = Some (json_dumps (data (db (run busy_day two_terms).1)))
  ∧ ∃ self', __init__ (disk (run busy_day two_terms).1) = Ok self'
      ∧ data self' = data (db (run busy_day two_terms).1)
      ∧ (next_id self' ≤ Z.max 1 (next_id (db (run busy_day two_terms).1)))%Z.
Proof.
  split; [exact two_terms_init|]. split; [exact busy_day_run|].
  split; [exact busy_day_saved|].
  exact (restart_counter _ _ _ _ _ two_terms_init busy_day_run busy_day_saved).
Defined.

Lemma two_is_largest :
  ∀ j, j ∈ term_ids [oracle_term; blockchain_term] → (j ≤ 2)%Z.
Proof.
  change (∀ j, j ∈ [1; 2]%Z → (j ≤ 2)%Z).
  intros j [->|[->|?%elem_of_nil]%elem_of_cons]%elem_of_cons; done.
Qed.

Lemma delete_two_saved :
  write_fails io_ok (db (delete io_ok 2 two_terms).1) = false.
Proof. vm_compute. reflexivity. Qed.

Lemma restart_reuses_id_witness :
  wf_value (data (db two_terms))
  ∧ getitem (data (db two_terms)) k_glossary
    = Ok (VList [oracle_term; blockchain_term])
  ∧ ids_below (db two_terms)
  ∧ NoDup (term_ids [oracle_term; blockchain_term])
  ∧ first_with_id [oracle_term; blockchain_term] 2 1 blockchain_term
  ∧ (∀ j, j ∈ term_ids [oracle_term; blockchain_term] → (j ≤ 2)%Z)
  ∧ (1 ≤ 2)%Z
  ∧ write_fails io_ok (db (delete io_ok 2 two_terms).1) = false
  ∧ ∃ self', __init__ (disk (delete io_ok 2 two_terms).1) = Ok self'
      ∧ collection self' = base.delete 1%nat [oracle_term; blockchain_term]
      ∧ (next_id self' ≤ 2 < next_id (db two_terms))%Z.
Proof.
  assert (1 ≤ 2)%Z as H12 by lia.
  split; [exact two_terms_wf|]. split; [exact two_terms_glossary|].
  split; [exact two_terms_ids_below|]. split; [exact two_terms_unique|].
  split; [exact first_blockchain|]. split; [exact two_is_largest|].
  split; [exact H12|]. split; [exact delete_two_saved|].
  exact (restart_reuses_id io_ok 2 _ _ _ _ two_terms_wf two_terms_glossary
           two_terms_ids_below two_terms_unique first_blockchain
           two_is_largest H12 delete_two_saved).
Defined.

Lemma full_store_all : get_all full_store = Ok (VList twenty_five).
Proof. reflexivity. Qed.

Lemma walk_pages_witness :
  get_all full_store = Ok (VList twenty_five)
  ∧ (1 ≤ 10 ≤ 1000)%Z
  ∧ walk full_store 10 3 = take (3 * Z.to_nat 10) twenty_five
  ∧ ((Z.of_nat (length twenty_five) ≤ Z.of_nat 3 * 10)%Z →
     walk full_store 10 3 = twenty_five)
  ∧ page full_store (Z.of_nat 3 * 10) 10
    = take (Z.to_nat 10) (drop (3 * Z.to_nat 10) twenty_five)
  ∧ ((Z.of_nat (length twenty_five) ≤ Z.of_nat 3 * 10)%Z →
     page full_store (Z.of_nat 3 * 10) 10 = []).
Proof.
  assert (1 ≤ 10 ≤ 1000)%Z as Hl by lia.
  split; [exact full_store_all|]. split; [exact Hl|].
  exact (walk_pages full_store twenty_five 10 3 full_store_all Hl).
Defined.

Lemma ascii_lower_nil : ascii_lower [] = [].
Proof. reflexivity. Qed.

Lemma search_empty_keyword_witness :
  ascii_lower [] = []
  ∧ getitem (data (db two_terms)) k_glossary
    = Ok (VList [oracle_term; blockchain_term])
  ∧ Forall searchable [oracle_term; blockchain_term]
  ∧ search ascii_lower (db two_terms) []
    = Ok [oracle_term; blockchain_term].
Proof.
  split; [exact ascii_lower_nil|]. split; [exact two_terms_glossary|].
  split; [exact two_terms_searchable|].
  exact (search_empty_keyword ascii_lower ascii_lower_nil _ _
           two_terms_glossary two_terms_searchable).
Defined.



Lemma capitals_in_title :
  contains_ci ascii_lower (lit "ORACLE") (GlossaryTermCreate.title oracle)
  ∨ contains_ci ascii_lower (lit "ORACLE")
      (GlossaryTermCreate.definition oracle)
  ∨ contains_ci ascii_lower (lit "ORACLE")
      (GlossaryTermCreate.category oracle).
Proof. left. exists [], []. reflexivity. Qed.

Lemma create_then_search_witness :
  getitem (data (db two_terms)) k_glossary
  = Ok (VList [oracle_term; blockchain_term])
  ∧ Forall searchable [oracle_term; blockchain_term]
  ∧ (contains_ci ascii_lower (lit "ORACLE") (GlossaryTermCreate.title oracle)
     ∨ contains_ci ascii_lower (lit "ORACLE")
         (GlossaryTermCreate.definition oracle)
     ∨ contains_ci ascii_lower (lit "ORACLE")
         (GlossaryTermCreate.category oracle))
  ∧ ∃ w' r results,
      create (clock 5) (clock 6) io_ok oracle two_terms = (w', r)
      ∧ search ascii_lower (db w') (lit "ORACLE") = Ok results
      ∧ new_term (next_id (db two_terms)) (clock 5) (clock 6) oracle
        ∈ results.
Proof.
  split; [exact two_terms_glossary|]. split; [exact two_terms_searchable|].
  split; [exact capitals_in_title|].
  exact (create_then_search ascii_lower ascii_lower_nil
           (clock 5) (clock 6) io_ok oracle _ _ _
           two_terms_glossary two_terms_searchable capitals_in_title).
Defined.

Lemma two_terms_all :
  get_all (db two_terms) = Ok (VList [oracle_term; blockchain_term]).
Proof. reflexivity. Qed.

Lemma two_terms_countable : Forall countable [oracle_term; blockchain_term].
Proof. repeat constructor; by eexists. Qed.

Lemma get_statistics_spec_witness :
  get_all (db two_terms) = Ok (VList [oracle_term; blockchain_term])
  ∧ Forall countable [oracle_term; blockchain_term]
  ∧ ∃ st, get_statistics (db two_terms) = Ok st
      ∧ total_terms st = Z.of_nat (length [oracle_term; blockchain_term])
      ∧ categories_count st = Z.of_nat (length (categories st))
      ∧ NoDup (categories st).*1
      ∧ (∀ k n, (k, n) ∈ categories st ↔
           n = count_key k [oracle_term; blockchain_term] ∧ (1 ≤ n)%Z)
      ∧ (∀ t, t ∈ [oracle_term; blockchain_term] →
           (category_key t,
            count_key (category_key t) [oracle_term; blockchain_term])
           ∈ categories st)
      ∧ total_count (categories st) = total_terms st.
Proof.
  split; [exact two_terms_all|]. split; [exact two_terms_countable|].
  exact (get_statistics_spec _ _ two_terms_all two_terms_countable).
Defined.

Lemma get_statistics_raises_witness :
  get_all (db two_terms) = Ok (VList [oracle_term; blockchain_term])
  ∧ (is_ok (get_statistics (db two_terms)) = true
     ↔ Forall countable [oracle_term; blockchain_term])
  ∧ (¬ Forall countable [oracle_term; blockchain_term] →
     get_statistics (db two_terms) = Raise ShapeError).
Proof.
  split; [exact two_terms_all|].
  exact (get_statistics_raises _ _ two_terms_all).
Defined.

Lemma get_term_spec_witness :
  getitem (data (db two_terms)) k_glossary
  = Ok (VList [oracle_term; blockchain_term])
  ∧ Forall (λ t, is_Some (field t k_id)) [oracle_term; blockchain_term]
  ∧ (7%Z ∉ term_ids [oracle_term; blockchain_term] →
     get_term (db two_terms) 7
     = HTTPException 404
         (lit "Термин с ID " ++ repr_int 7 ++ lit " не найден"))
  ∧ (∀ i t, first_with_id [oracle_term; blockchain_term] 7 i t →
       get_term (db two_terms) 7
       = Returned (Reply 200 {| success := true;
                                message := lit "Термин найден";
                                response_data := Some t |})).
Proof.
  split; [exact two_terms_glossary|]. split; [exact two_terms_have_ids|].
  exact (get_term_spec _ _ 7 two_terms_glossary two_terms_have_ids).
Defined.

Lemma delete_term_retry_witness :
  getitem (data (db two_terms)) k_glossary
  = Ok (VList [oracle_term; blockchain_term])
  ∧ Forall (λ t, is_Some (field t k_id)) [oracle_term; blockchain_term]
  ∧ NoDup (term_ids [oracle_term; blockchain_term])
  ∧ first_with_id [oracle_term; blockchain_term] 1 0 oracle_term
  ∧ ∃ w' r, delete_term io_fault 1 two_terms = (w', r)
      ∧ collection (db w') = base.delete 0%nat [oracle_term; blockchain_term]
      ∧ (write_fails io_fault (db w') = false →
         r = Returned (Reply 200 {|
               success := true;
               message := lit "Термин успешно удален";
               response_data := Some (VDict [(k_deleted_id, VInt 1)]) |}))
      ∧ (write_fails io_fault (db w') = true →
         ∃ e, r = Returned (ServerError e)
              ∧ (e = OSError ∨ e = UnicodeEncodeError))
      ∧ (∀ io', delete_term io' 1 w' = (w', not_found 1)).
Proof.
  split; [exact two_terms_glossary|]. split; [exact two_terms_have_ids|].
  split; [exact two_terms_unique|]. split; [exact first_oracle|].
  exact (delete_term_retry io_fault 1 _ _ _ _
           two_terms_glossary two_terms_have_ids two_terms_unique first_oracle).
Defined.

Lemma null_source_body :
  validate_update
    (VDict [(k_definition,
             VStr (lit "A bridge between a chain and the outside world"));
            (k_source, VNone)])
  = Some null_source.
Proof. vm_compute. reflexivity. Qed.

Lemma update_term_spec_witness :
  validate_update
    (VDict [(k_definition,
             VStr (lit "A bridge between a chain and the outside world"));
            (k_source, VNone)])
  = Some null_source
  ∧ getitem (data (db two_terms)) k_glossary
    = Ok (VList [oracle_term; blockchain_term])
  ∧ Forall (λ t, is_Some (field t k_id)) [oracle_term; blockchain_term]
  ∧ (7%Z ∉ term_ids [oracle_term; blockchain_term] →
     update_term (clock 7) io_ok 7
       (VDict [(k_definition,
                VStr (lit "A bridge between a chain and the outside world"));
               (k_source, VNone)]) two_terms
     = (two_terms, not_found 7))
  ∧ (∀ i d, first_with_id [oracle_term; blockchain_term] 7 i (VDict d) →
       ∃ w' r,
         update_term (clock 7) io_ok 7
           (VDict [(k_definition,
                    VStr (lit "A bridge between a chain and the outside world"));
                   (k_source, VNone)]) two_terms
         = (w', r)
         ∧ collection (db w')
           = <[i := updated_term d (clock 7) null_source]>
               [oracle_term; blockchain_term]
         ∧ (write_fails io_ok (db w') = false →
            r = Returned (Reply 200 {|
                  success := true;
                  message := lit "Термин успешно обновлен";
                  response_data
                    := Some (updated_term d (clock 7) null_source) |}))).
Proof.
  split; [exact null_source_body|]. split; [exact two_terms_glossary|].
  split; [exact two_terms_have_ids|].
  exact (update_term_spec (clock 7) io_ok 7 _ _ _ _
           null_source_body two_terms_glossary two_terms_have_ids).
Defined.

Lemma handlers_keep_records_valid_witness :
  Forall valid_record (collection (db two_terms))
  ∧ (∀ now1 now2 io body,
       Forall valid_record
         (collection (db (create_term now1 now2 io body two_terms).1)))
  ∧ (∀ now io id body,
       Forall valid_record
         (collection (db (update_term now io id body two_terms).1)))
  ∧ (∀ io id,
       Forall valid_record
         (collection (db (delete_term io id two_terms).1)))
  ∧ Forall searchable (collection (db two_terms))
  ∧ Forall countable (collection (db two_terms)).
Proof.
  split; [exact two_terms_valid|].
  exact (handlers_keep_records_valid two_terms two_terms_valid).
Defined.
